(** * faast.js, AWS provider: lifecycle and queue-mode dispatch

    A shallow embedding of the AWS provider of the repository
    (provisioning, dispatch, response collection, teardown) together with
    the properties its specification states about it.

    The provider is asynchronous JavaScript running on one event loop.
    Three views of it are embedded:

    - the provisioning and teardown code ([initialize], [cleanup] and
      their helpers) read as sequential code over the provider SDK; it
      is written in a state-and-exception monad [M] whose state is the
      [World] and whose SDK answers come from an environment [Env];
    - the same code turn by turn ([Async]): [initialize] calls its
      closure [createFunction] and awaits it later, so the two take
      turns, and a failure of the one meets the other in flight; a
      schedule says whose turn is next;
    - the dispatch code ([enqueueCallRequest], [resultCollector], ...)
      is run one event-loop turn at a time: each function below is what
      one task executes between two suspension points, and [step] lets
      the environment choose the next turn.

    Logging has no effect on control flow. The messages of the queue-mode
    dispatch code and of the collector are recorded as [EvLog] events;
    the other calls of [log] are not recorded. *)

From stdpp Require Import base tactics option list strings.
From Stdlib Require Import ZArith Lia.

Set Default Proof Using "Type".
Open Scope Z_scope.
Open Scope nat_scope.

(* ================================================================== *)
(** * Part I: data                                                     *)
(* ================================================================== *)

(** JavaScript [Error] objects: [stack = None] is the stack captured by
    the host when the error is constructed. *)
Record Error := mkError {
  e_name : string;
  e_message : string;
  e_stack : option string
}.

Definition new_Error (msg : string) : Error := mkError "Error" msg None.
Definition TypeError (msg : string) : Error := mkError "TypeError" msg None.
Definition SyntaxError (msg : string) : Error := mkError "SyntaxError" msg None.

(** JSON data carried as arguments and return values of user functions. *)
#[local] Unset Elimination Schemes.
Inductive Json :=
| JNull
| JBool (b : bool)
| JNum (z : Z)
| JStr (s : string)
| JArr (l : list Json)
| JObj (l : list (string * Json)).
#[local] Set Elimination Schemes.

(** Modelled from the spec: the wire type [FunctionCall] of [../shared],
    [{ name, args, CallId, ResponseQueueUrl }]. *)
Record FunctionCall := mkFunctionCall {
  fc_name : string;
  fc_args : list Json;
  fc_CallId : string;
  fc_ResponseQueueUrl : option string
}.

(** The value of a [FunctionReturn] of type ["error"]. *)
Record ErrValue := mkErrValue {
  ev_message : string;
  ev_name : string;
  ev_stack : option string
}.

(** Modelled from the spec: the wire type [FunctionReturn] of [../shared],
    [{ type: "value" | "error", value }], where on ["error"] the value
    carries [{ message, name, stack }]. *)
Inductive FunctionReturn :=
| FRValue (value : Json)
| FRError (value : ErrValue).

Inductive RoleHandling := createTemporaryRole | createOrReuseCachedRole.

#[global] Instance RoleHandling_eq_dec : EqDecision RoleHandling.
Proof. solve_decision. Defined.

(** The JavaScript value of a request parameter. *)
#[local] Unset Elimination Schemes.
Inductive Param :=
| PUndefined
| PString (s : string)
| PNumber (n : Z)
| PBoolean (b : bool)
| PArray (items : list Param)
| PObject (props : list (string * Param)).
#[local] Set Elimination Schemes.

(** The own properties of an object, in insertion order. *)
Definition Params := list (string * Param).

Fixpoint obj_has (o : Params) (k : string) : bool :=
  match o with
  | [] => false
  | (k', _) :: o' => String.eqb k' k || obj_has o' k
  end.

(** [o[k]]: a property that is absent reads as [undefined]. *)
Fixpoint obj_get (o : Params) (k : string) : Param :=
  match o with
  | [] => PUndefined
  | (k', v) :: o' => if String.eqb k' k then v else obj_get o' k
  end.

Fixpoint obj_replace (o : Params) (k : string) (v : Param) : Params :=
  match o with
  | [] => []
  | (k', v') :: o' =>
      if String.eqb k' k then (k', v) :: o' else (k', v') :: obj_replace o' k v
  end.

(** [o[k] = v]: an existing property keeps its place, a new one goes
    last. *)
Definition obj_set (o : Params) (k : string) (v : Param) : Params :=
  if obj_has o k then obj_replace o k v else o ++ [(k, v)].

(** [{ ...o, ...src }]: every own property of [src] is set on a copy of
    [o], in the order of [src]; whatever its value, it replaces the
    property of that name. *)
Definition spread (o src : Params) : Params :=
  fold_left (fun o p => obj_set o (fst p) (snd p)) src o.

Definition param_string (s : option string) : Param :=
  match s with
  | Some s => PString s
  | None => PUndefined
  end.

(** The argument [options] of [initialize]: the eight properties the
    interface names, and [o_rest], whatever other own properties the
    object has ([...rest] of the destructuring). [awsLambdaOptions] is a
    [Partial<CreateFunctionRequest>]: an object with any of the
    request's properties. *)
Record Options := mkOptions {
  o_region : option string;
  o_PolicyArn : option string;
  o_rolePolicy : option RoleHandling;
  o_RoleName : option string;
  o_timeout : option Z;
  o_memorySize : option Z;
  o_useQueue : option bool;
  o_awsLambdaOptions : option Params;
  o_rest : Params
}.

(** [AWSResources], with every field optional as in [PartialState]
    ([Partial<AWSResources>]), the type [cleanup] takes. *)
Record AWSResources := mkResources {
  FunctionName : option string;
  RoleName : option string;
  RequestTopicArn : option string;
  ResponseQueueUrl : option string;
  DeadLetterQueueUrl : option string;
  rolePolicy : option RoleHandling;
  logGroupName : option string;
  region : option string;
  SNSLambdaSubscriptionArn : option string;
  SNSFeedbackRole : option string
}.

(** ** SQS messages *)

Record MessageAttributeValue := mkAttr {
  DataType : string;
  StringValue : option string
}.

Record Message := mkMessage {
  MessageId : option string;
  ReceiptHandle : option string;
  Body : option string;
  MessageAttributes : option (list (string * MessageAttributeValue))
}.

(** [lambda.invoke]'s response, as far as the code reads it. *)
Record InvocationResponse := mkInvocation {
  FunctionError : option string;
  LogResult : option string;
  Payload : option string
}.

(** ** SDK requests

    One constructor per SDK operation the provider calls, with the
    parameters the code passes; the parameters of [createFunction] are
    the object the closure builds. [Pack] and [ZipStreamToBuffer] are the
    packager and the archive stream, [AwaitResultCollector] is awaiting
    [state.resultCollectorPromise]: all three are answered by the
    environment like SDK requests. *)

Inductive Request :=
| IamGetRole (RoleName : string)
| IamCreateRole (RoleName Service Description : string) (MaxSessionDuration : Z)
| IamAttachRolePolicy (RoleName PolicyArn : string)
| IamPutRolePolicy (RoleName PolicyName Action Effect : string)
| IamListAttachedRolePolicies (RoleName : string)
| IamDetachRolePolicy (RoleName : string) (PolicyArn : option string)
| IamListRolePolicies (RoleName : string)
| IamDeleteRolePolicy (RoleName PolicyName : string)
| IamDeleteRole (RoleName : string)
| LogsCreateLogGroup (logGroupName : string)
| LogsPutRetentionPolicy (logGroupName : string) (retentionInDays : Z)
| LogsDeleteLogGroup (logGroupName : string)
| SqsCreateQueue (QueueName : string) (VisibilityTimeout : Z)
    (deadLetterTargetArn : option string)
| SqsGetQueueAttributes (QueueUrl : option string) (AttributeNames : list string)
| SqsSendMessage (QueueUrl MessageBody : string)
    (MessageAttributes : list (string * MessageAttributeValue))
| SqsReceiveMessage (QueueUrl : option string) (WaitTimeSeconds : Z)
    (MaxNumberOfMessages : Z) (MessageAttributeNames : list string)
| SqsDeleteMessageBatch (QueueUrl : option string)
    (Entries : list (option string * option string))
| SqsDeleteQueue (QueueUrl : string)
| SnsCreateTopic (Name : string)
| SnsSetTopicAttributes (TopicArn : option string)
    (AttributeName AttributeValue : string)
| SnsSubscribe (TopicArn : option string) (Protocol : string)
    (Endpoint : option string)
| SnsUnsubscribe (SubscriptionArn : string)
| SnsDeleteTopic (TopicArn : string)
| SnsPublish (TopicArn : option string) (Message : FunctionCall)
| LambdaGetFunction (FunctionName : string)
| LambdaCreateFunction (request : Params)
| LambdaAddPermission (FunctionName Action Principal StatementId : string)
    (SourceArn : option string)
| LambdaDeleteFunction (FunctionName : string)
| LambdaInvoke (FunctionName : option string) (LogType : string)
    (Payload : FunctionCall)
| Pack (functionModule : string)
| ZipStreamToBuffer (archive : option string)
| AwaitResultCollector (handle : nat).

(** ** SDK responses

    A response is a JavaScript object; a property that is absent reads as
    [undefined] ([None]). *)
Record IamRole := mkRole { role_RoleName : string; role_Arn : string }.

Record Data := mkData {
  Role : option IamRole;
  QueueUrl : option string;
  Attributes : option (list (string * string));
  TopicArn : option string;
  SubscriptionArn : option string;
  cfg_FunctionName : option string;
  FunctionArn : option string;
  AttachedPolicies : option (list (option string));
  PolicyNames : option (list string);
  archive : option string;
  buffer : option string
}.

Inductive Outcome :=
| Fulfilled (d : Data)
| Failed (e : Error).

(** ** Runtime state of the dispatch pipeline *)

Record QueuedResponse := mkQueued {
  returned : FunctionReturn;
  rawResponse : Message
}.

(** The state of one [Deferred]: a promise settles once. *)
Inductive Settled :=
| Pending
| Resolved (r : QueuedResponse)
| Rejected (e : Error).

(** [CallResults]; a [Deferred] is named by its index in the store
    [deferreds] of the [World]. *)
Record CallResults := mkCallResults {
  cr_CallId : option string;
  cr_message : Message;
  cr_deferred : option nat
}.

(** Callbacks handed to [setTimeout(..., 0)]. *)
Inductive Timer :=
| TResolvePromises (results : list CallResults)
| TStartResultCollectorIfNeeded.

Inductive Log :=
| LogCalling (call : FunctionCall)
| LogEnqueuing (CallId : string) (deferred : nat)
| LogPolling (size : nat) (QueueUrl : option string)
| LogReceived (n : nat)
| LogNoCallId (m : Message)
| LogDeferredNotFound (CallId : option string)
| LogRejecting (size : nat)
| LogRejectingCall (key : string)
| LogError (e : Error).

Inductive Event :=
| EvReq (r : Request)
| EvLog (l : Log)
| EvSleep (ms : Z)
| EvSetTimeout (t : Timer)
| EvUncaught (e : Error).

(** [State] (without the SDK client handles, which are determined by the
    region) and the runtime around it: the store of deferreds, the
    collector tasks suspended in [receiveMessage], the number of collector
    tasks started so far, the timer queue and the trace of effects.
    [callResultPromises] is a JavaScript [Map]: it iterates in insertion
    order, so it is kept as an association list. *)
Record World := mkWorld {
  resources : AWSResources;
  useQueue : option bool;
  callResultPromises : list (string * nat);
  resultCollectorPromise : option nat;
  deferreds : list Settled;
  collectors : list nat;
  spawned : nat;
  timers : list Timer;
  trace : list Event
}.

Definition set_resources (r : AWSResources) (w : World) : World :=
  mkWorld r (useQueue w) (callResultPromises w) (resultCollectorPromise w)
    (deferreds w) (collectors w) (spawned w) (timers w) (trace w).

Definition set_callResultPromises (m : list (string * nat)) (w : World) : World :=
  mkWorld (resources w) (useQueue w) m (resultCollectorPromise w)
    (deferreds w) (collectors w) (spawned w) (timers w) (trace w).

Definition set_resultCollectorPromise (h : option nat) (w : World) : World :=
  mkWorld (resources w) (useQueue w) (callResultPromises w) h
    (deferreds w) (collectors w) (spawned w) (timers w) (trace w).

Definition set_deferreds (ds : list Settled) (w : World) : World :=
  mkWorld (resources w) (useQueue w) (callResultPromises w)
    (resultCollectorPromise w) ds (collectors w) (spawned w) (timers w) (trace w).

Definition set_collectors (cs : list nat) (w : World) : World :=
  mkWorld (resources w) (useQueue w) (callResultPromises w)
    (resultCollectorPromise w) (deferreds w) cs (spawned w) (timers w) (trace w).

Definition set_spawned (n : nat) (w : World) : World :=
  mkWorld (resources w) (useQueue w) (callResultPromises w)
    (resultCollectorPromise w) (deferreds w) (collectors w) n (timers w) (trace w).

Definition set_timers (ts : list Timer) (w : World) : World :=
  mkWorld (resources w) (useQueue w) (callResultPromises w)
    (resultCollectorPromise w) (deferreds w) (collectors w) (spawned w) ts (trace w).

Definition emit (ev : Event) (w : World) : World :=
  mkWorld (resources w) (useQueue w) (callResultPromises w)
    (resultCollectorPromise w) (deferreds w) (collectors w) (spawned w)
    (timers w) (trace w ++ [ev]).

(** [setTimeout(callback, 0)]: the callback joins the timer queue. *)
Definition setTimeout (t : Timer) (w : World) : World :=
  emit (EvSetTimeout t) (set_timers (timers w ++ [t]) w).

(** Truthiness of an optional string: [undefined] and [""] are falsy. *)
Definition truthy (s : option string) : bool :=
  match s with
  | None => false
  | Some s => negb (String.eqb s "")
  end.

(** ** The [Map] of pending calls *)

Fixpoint Map_get (m : list (string * nat)) (k : string) : option nat :=
  match m with
  | [] => None
  | (k', v) :: m' => if String.eqb k' k then Some v else Map_get m' k
  end.

Fixpoint Map_has (m : list (string * nat)) (k : string) : bool :=
  match m with
  | [] => false
  | (k', _) :: m' => String.eqb k' k || Map_has m' k
  end.

Fixpoint Map_replace (m : list (string * nat)) (k : string) (v : nat) :
    list (string * nat) :=
  match m with
  | [] => []
  | (k', v') :: m' =>
      if String.eqb k' k then (k', v) :: m' else (k', v') :: Map_replace m' k v
  end.

(** [Map.prototype.set]: an existing key keeps its place, a new one goes
    last. *)
Definition Map_set (m : list (string * nat)) (k : string) (v : nat) :
    list (string * nat) :=
  if Map_has m k then Map_replace m k v else m ++ [(k, v)].

Fixpoint Map_delete (m : list (string * nat)) (k : string) : list (string * nat) :=
  match m with
  | [] => []
  | (k', v) :: m' =>
      if String.eqb k' k then Map_delete m' k else (k', v) :: Map_delete m' k
  end.

(** A key that is [undefined] is never present: the keys are strings. *)
Definition Map_get_opt (m : list (string * nat)) (k : option string) : option nat :=
  match k with
  | Some k => Map_get m k
  | None => None
  end.

Definition Map_delete_opt (m : list (string * nat)) (k : option string) :
    list (string * nat) :=
  match k with
  | Some k => Map_delete m k
  | None => m
  end.

(* ================================================================== *)
(** * Part II: provisioning and teardown                               *)
(* ================================================================== *)

(** ** The monad of sequential SDK code

    The environment answers a request from the trace of everything that
    happened before it, so that the same request can fail now and succeed
    later. A computation returns a value or throws, and keeps the world
    it reached in both cases. *)
Definition Env := list Event -> Request -> Outcome.

Inductive Res (A : Type) :=
| Ok (a : A)
| Thrown (e : Error).
Arguments Ok {A} a.
Arguments Thrown {A} e.

Definition M (A : Type) := Env -> World -> Res A * World.

Definition ret {A} (a : A) : M A := fun _ w => (Ok a, w).

Definition throw {A} (e : Error) : M A := fun _ w => (Thrown e, w).

Definition bind {A B} (m : M A) (k : A -> M B) : M B :=
  fun env w =>
    match m env w with
    | (Ok a, w') => k a env w'
    | (Thrown e, w') => (Thrown e, w')
    end.

Notation "'do' x <- m ; k" := (bind m (fun x => k))
  (at level 10, x name, m at level 100, k at level 200).
Notation "m ;; k" := (bind m (fun _ => k))
  (at level 100, k at level 200, right associativity).

(** [try { m } catch (err) { h err }] *)
Definition try_catch {A} (m : M A) (h : Error -> M A) : M A :=
  fun env w =>
    match m env w with
    | (Ok a, w') => (Ok a, w')
    | (Thrown e, w') => h e env w'
    end.

Definition get_world : M World := fun _ w => (Ok w, w).

Definition modify (f : World -> World) : M unit := fun _ w => (Ok tt, f w).

(** Issuing a request: it is sent now, and the environment decides how
    its promise settles. *)
Definition send (r : Request) : M Outcome :=
  fun env w => (Ok (env (trace w) r), emit (EvReq r) w).

(** [await request.promise()] *)
Definition promise (r : Request) : M Data :=
  do o <- send r;
  match o with
  | Fulfilled d => ret d
  | Failed e => throw e
  end.

(** [quietly]: a failure becomes [undefined]. *)
Definition quietly (r : Request) : M (option Data) :=
  do o <- send r;
  match o with
  | Fulfilled d => ret (Some d)
  | Failed _ => ret None
  end.

(** [carefully]: a failure is logged and becomes [undefined]. *)
Definition carefully (r : Request) : M (option Data) :=
  do o <- send r;
  match o with
  | Fulfilled d => ret (Some d)
  | Failed _ => ret None
  end.

Definition sleep (ms : Z) : M unit := modify (emit (EvSleep ms)).

(** An [async] function that is called but awaited only later, read
    sequentially: its body runs to its end at the call, and the way its
    promise settled is kept. In the source the body and the caller take
    turns between the call and the [await], and the body can still be in
    flight when the caller fails: [Async] below has the turns. What is
    stated of [initialize] on this sequential reading is what does not
    depend on the order of the turns: which fields of the manifest the
    main flow sets, and which requests are sent at all. The body started
    this way ([createFunction]) neither reads nor writes
    [state.resources]. *)
Definition start {A} (m : M A) : M (Res A) :=
  fun env w => let '(r, w') := m env w in (Ok r, w').

Definition await {A} (p : Res A) : M A :=
  match p with
  | Ok a => ret a
  | Thrown e => throw e
  end.

Fixpoint for_each {A} (l : list A) (f : A -> M unit) : M unit :=
  match l with
  | [] => ret tt
  | x :: l' => f x;; for_each l' f
  end.

(** Reading [response.Role]: a property of [undefined] is a [TypeError]. *)
Definition Role_of (d : Data) : M IamRole :=
  match Role d with
  | Some r => ret r
  | None => throw (TypeError "Cannot read property of undefined")
  end.

Definition createSNSFeedbackRole (RoleName : string) : M Data :=
  do previousRole <- quietly (IamGetRole RoleName);
  match previousRole with
  | Some previousRole => ret previousRole
  | None =>
      do roleResponse <- promise (IamCreateRole RoleName "sns.amazonaws.com"
                            "role for SNS failures created by cloudify" 36000);
      promise (IamAttachRolePolicy RoleName
                 "arn:aws:iam::aws:policy/service-role/AmazonSNSRole");;
      ret roleResponse
  end.

Definition createLambdaRole (RoleName PolicyArn : string) : M Data :=
  do previousRole <- quietly (IamGetRole RoleName);
  match previousRole with
  | Some previousRole => ret previousRole
  | None =>
      do roleResponse <- promise (IamCreateRole RoleName "lambda.amazonaws.com"
                            "role for lambda functions created by cloudify" 3600);
      promise (IamAttachRolePolicy RoleName PolicyArn);;
      ret roleResponse
  end.

Definition addNoCreateLogPolicyToRole (RoleName PolicyName : string) : M unit :=
  promise (IamPutRolePolicy RoleName PolicyName "logs:CreateLogGroup" "Deny");;
  ret tt.

Definition createQueue (QueueName : string) (VTimeout : Z)
    (deadLetterTargetArn : option string) : M (option string) :=
  do response <- promise (SqsCreateQueue QueueName VTimeout
                    (if truthy deadLetterTargetArn then deadLetterTargetArn else None));
  ret (QueueUrl response).

Definition set_DeadLetterQueueUrl (v : option string) (r : AWSResources) :=
  mkResources (FunctionName r) (RoleName r) (RequestTopicArn r)
    (ResponseQueueUrl r) v (rolePolicy r) (logGroupName r) (region r)
    (SNSLambdaSubscriptionArn r) (SNSFeedbackRole r).

Definition set_SNSFeedbackRole (v : option string) (r : AWSResources) :=
  mkResources (FunctionName r) (RoleName r) (RequestTopicArn r)
    (ResponseQueueUrl r) (DeadLetterQueueUrl r) (rolePolicy r) (logGroupName r)
    (region r) (SNSLambdaSubscriptionArn r) v.

Definition set_RequestTopicArn (v : option string) (r : AWSResources) :=
  mkResources (FunctionName r) (RoleName r) v
    (ResponseQueueUrl r) (DeadLetterQueueUrl r) (rolePolicy r) (logGroupName r)
    (region r) (SNSLambdaSubscriptionArn r) (SNSFeedbackRole r).

Definition set_ResponseQueueUrl (v : option string) (r : AWSResources) :=
  mkResources (FunctionName r) (RoleName r) (RequestTopicArn r)
    v (DeadLetterQueueUrl r) (rolePolicy r) (logGroupName r)
    (region r) (SNSLambdaSubscriptionArn r) (SNSFeedbackRole r).

Definition set_SNSLambdaSubscriptionArn (v : option string) (r : AWSResources) :=
  mkResources (FunctionName r) (RoleName r) (RequestTopicArn r)
    (ResponseQueueUrl r) (DeadLetterQueueUrl r) (rolePolicy r) (logGroupName r)
    (region r) v (SNSFeedbackRole r).

(** [state.resources.f = v] *)
Definition assign (f : AWSResources -> AWSResources) : M unit :=
  modify (fun w => set_resources (f (resources w)) w).

Fixpoint lookup_attribute (l : list (string * string)) (k : string) : option string :=
  match l with
  | [] => None
  | (k', v) :: l' => if String.eqb k' k then Some v else lookup_attribute l' k
  end.

Definition createDLQ (FunctionName : string) (Timeout : Z) : M (option string) :=
  do url <- createQueue (FunctionName +:+ "-DLQ") Timeout None;
  assign (set_DeadLetterQueueUrl url);;
  do attributeResponse <- promise (SqsGetQueueAttributes url ["QueueArn"]);
  match Attributes attributeResponse with
  | Some attrs => ret (lookup_attribute attrs "QueueArn")
  | None => throw (TypeError "Cannot read property 'QueueArn' of undefined")
  end.

Definition stopAttributes : list (string * MessageAttributeValue) :=
  [("cloudify", mkAttr "String" (Some "stop"))].

Definition sendQueueStopMessage (QueueUrl : string) : M (option Data) :=
  carefully (SqsSendMessage QueueUrl "empty" stopAttributes).

(** [deadLetterQueueCollector(state)] is started and never awaited: what
    [initialize] runs of it is its first long poll. *)
Definition deadLetterQueueCollector : M unit :=
  do w <- get_world;
  send (SqsReceiveMessage (DeadLetterQueueUrl (resources w)) 20 10 ["cloudify"]);;
  ret tt.

Fixpoint pollAWSRequest_loop (n : nat) (fn : unit -> Request) : M (option Data) :=
  match n with
  | 0 => throw (new_Error "Polling failed for ${description}")
  | S n' =>
      do result <- quietly (fn tt);
      match result with
      | Some _ => ret result
      | None => sleep 1000;; pollAWSRequest_loop n' fn
      end
  end.

(** [pollAWSRequest]: what it returns is the [result] that passed
    [if (result)], of type [void | T]. The message of the final error is
    not a template literal in the source, so [description] is not
    substituted in it. *)
Definition pollAWSRequest (n : nat) (description : string)
    (fn : unit -> Request) : M (option Data) :=
  sleep 2000;;
  pollAWSRequest_loop n fn.

Definition createSNSNotifier (Name RoleArn : string) : M (option string) :=
  do topic <- promise (SnsCreateTopic Name);
  let TopicArn := TopicArn topic in
  do success <- pollAWSRequest 100
                  "role for SNS invocation of lambda function failure feedback"
                  (fun _ => SnsSetTopicAttributes TopicArn
                              "LambdaFailureFeedbackRoleArn" RoleArn);
  match success with
  | None => throw (new_Error "Could not initialize lambda execution role")
  | Some _ => ret TopicArn
  end.

Definition createLogGroup (logGroupName : string) : M Data :=
  do response <- promise (LogsCreateLogGroup logGroupName);
  promise (LogsPutRetentionPolicy logGroupName 1);;
  ret response.

Definition addSnsInvokePermissionsToFunction (FunctionName : string)
    (RequestTopicArn : option string) : M Data :=
  promise (LambdaAddPermission FunctionName "lambda:invokeFunction"
             "sns.amazonaws.com" (FunctionName +:+ "-Invoke") RequestTopicArn).

(** ** The options, the manifest and the request of [initialize] *)

(** The options of [initialize] after defaulting, and the names derived
    from the nonce. *)
Record Settings := mkSettings {
  s_region : string;
  s_PolicyArn : string;
  s_rolePolicy : RoleHandling;
  s_RoleName : string;
  s_Timeout : Z;
  s_MemorySize : Z;
  s_useQueue : bool;
  s_awsLambdaOptions : Params;
  s_rest : Params;
  s_FunctionName : string;
  s_logGroupName : string
}.

Definition settings (options : Options) (nonce : string) : Settings :=
  let region := default "us-west-1" (o_region options) in
  let PolicyArn :=
    default "arn:aws:iam::aws:policy/AdministratorAccess" (o_PolicyArn options) in
  let rolePolicy := default createOrReuseCachedRole (o_rolePolicy options) in
  let RoleName := default "cloudify-cached-lambda-role" (o_RoleName options) in
  let Timeout := default 60%Z (o_timeout options) in
  let MemorySize := default 128%Z (o_memorySize options) in
  let useQueue := default true (o_useQueue options) in
  let awsLambdaOptions := default [] (o_awsLambdaOptions options) in
  let FunctionName := "cloudify-" +:+ nonce in
  let logGroupName := "/aws/lambda/" +:+ FunctionName in
  let RoleName :=
    if bool_decide (rolePolicy = createTemporaryRole)
    then "cloudify-role-" +:+ nonce else RoleName in
  mkSettings region PolicyArn rolePolicy RoleName Timeout MemorySize useQueue
    awsLambdaOptions (o_rest options) FunctionName logGroupName.

(** [state.resources] as [initialize] first builds it. *)
Definition initial_resources (s : Settings) : AWSResources :=
  mkResources (Some (s_FunctionName s)) (Some (s_RoleName s)) None None None
    (Some (s_rolePolicy s)) (Some (s_logGroupName s)) (Some (s_region s)) None None.

(** The object literal [{ useQueue, callResultPromises: new Map(),
    resources, services }]: a state without a collector handle. *)
Definition new_State (r : AWSResources) (uq : option bool) (w : World) : World :=
  mkWorld r uq [] None (deferreds w) (collectors w) (spawned w) (timers w) (trace w).

(** The object literal of the closure [createFunction], before [rest]
    and [awsLambdaOptions] are spread over it. *)
Definition createFunctionRequest_literal (FunctionName RoleArn : string)
    (useQueue : bool) (ZipFile : option string) (Timeout MemorySize : Z)
    (DeadLetterQueueUrl : option string) : Params :=
  [("FunctionName", PString FunctionName);
   ("Role", PString RoleArn);
   ("Runtime", PString "nodejs6.10");
   ("Handler", PString (if useQueue then "index.snsTrampoline" else "index.trampoline"));
   ("Code", PObject [("ZipFile", param_string ZipFile)]);
   ("Description", PString "cloudify trampoline function");
   ("Timeout", PNumber Timeout);
   ("MemorySize", PNumber MemorySize);
   ("DeadLetterConfig", PObject [("TargetArn", param_string DeadLetterQueueUrl)])].

(** [createFunctionRequest]: the properties of [rest], then those of
    [awsLambdaOptions], replace the properties of the literal that they
    name, [FunctionName] included. *)
Definition createFunctionRequest (FunctionName RoleArn : string)
    (useQueue : bool) (ZipFile : option string) (Timeout MemorySize : Z)
    (DeadLetterQueueUrl : option string) (rest awsLambdaOptions : Params) : Params :=
  spread
    (spread
       (createFunctionRequest_literal FunctionName RoleArn useQueue ZipFile
          Timeout MemorySize DeadLetterQueueUrl)
       rest)
    awsLambdaOptions.

(** ** The start of the response collector

    [initialize] ends by starting the collector of the responses; its
    later turns are in Part III. *)

(** The inner [cleanup] of [resultCollector]. *)
Definition collector_cleanup (w : World) : World :=
  set_resultCollectorPromise None w.

(** The test of the [while] loop and what follows it, for the collector
    task [c]: either the next long poll is issued and the task suspends in
    it, or the task ends after clearing the handle and scheduling a
    restart check. *)
Definition resultCollector_loop (c : nat) (w : World) : World :=
  if 0 <? length (callResultPromises w) then
    let w := emit (EvLog (LogPolling (length (callResultPromises w))
                            (ResponseQueueUrl (resources w)))) w in
    let w := emit (EvReq (SqsReceiveMessage (ResponseQueueUrl (resources w))
                            20 10 ["All"])) w in
    set_collectors (c :: collectors w) w
  else
    setTimeout TStartResultCollectorIfNeeded (collector_cleanup w).

(** [resultCollector(state)] up to its first suspension. *)
Definition resultCollector (c : nat) (w : World) : World :=
  resultCollector_loop c w.

Definition startResultCollectorIfNeeded (w : World) : World :=
  if (0 <? length (callResultPromises w))
     && negb (bool_decide (is_Some (resultCollectorPromise w))) then
    let c := spawned w in
    set_resultCollectorPromise (Some c) (resultCollector c (set_spawned (S c) w))
  else w.

(* ================================================================== *)
(** * Part II, continued: [initialize] and [cleanup], turn by turn     *)
(* ================================================================== *)

(** [initialize] calls its closure [createFunction] and awaits the
    promise only after the SNS steps: between the call and the [await]
    the closure and the main flow take turns, and when a step of the main
    flow throws, [cleanup] runs while the closure is still in flight.
    Here an [async] function is a resumable computation: it runs from one
    [await] to the next in one turn, and a schedule says whose turn is
    next. A request is issued, and answered by the environment, in the
    turn that calls the SDK; the caller sees the answer in the turn that
    resumes it. *)
Module Async.

(** ** Code that talks to the provider and to nothing else

    [SIssue]: a request is sent, its promise is in hand; [SEmit]: another
    effect on the trace; [SYield]: an [await], the turn ends. *)
Inductive Script (A : Type) : Type :=
| SDone (r : Res A)
| SIssue (r : Request) (k : Outcome -> Script A)
| SEmit (ev : Event) (k : Script A)
| SYield (k : Script A).
Arguments SDone {A} r.
Arguments SIssue {A} r k.
Arguments SEmit {A} ev k.
Arguments SYield {A} k.

Fixpoint script_bind {A B} (s : Script A) (k : A -> Script B) : Script B :=
  match s with
  | SDone (Ok a) => k a
  | SDone (Thrown e) => SDone (Thrown e)
  | SIssue r f => SIssue r (fun o => script_bind (f o) k)
  | SEmit ev s' => SEmit ev (script_bind s' k)
  | SYield s' => SYield (script_bind s' k)
  end.

#[global] Instance Script_ret : MRet Script := fun A a => SDone (Ok a).
#[global] Instance Script_bind : MBind Script := fun A B k s => script_bind s k.
#[global] Instance Script_throw : MThrow Error Script := fun A e => SDone (Thrown e).

(** [await request.promise()] *)
Definition promise (r : Request) : Script Data :=
  SIssue r (fun o =>
    SYield (match o with
            | Fulfilled d => SDone (Ok d)
            | Failed e => SDone (Thrown e)
            end)).

(** [quietly(request)] that is not awaited at once: the request is sent,
    and the promise, which never rejects, is what is returned. *)
Definition quietly_promise (r : Request) : Script (option Data) :=
  SIssue r (fun o =>
    SDone (Ok (match o with
               | Fulfilled d => Some d
               | Failed _ => None
               end))).

(** [await quietly(request)] *)
Definition quietly (r : Request) : Script (option Data) :=
  SIssue r (fun o =>
    SYield (SDone (Ok (match o with
                       | Fulfilled d => Some d
                       | Failed _ => None
                       end)))).

(** [await carefully(request)] *)
Definition carefully (r : Request) : Script (option Data) :=
  SIssue r (fun o =>
    SYield (SDone (Ok (match o with
                       | Fulfilled d => Some d
                       | Failed _ => None
                       end)))).

(** [await Promise.all(requests.map(carefully))]: all the requests are
    sent, then the turn ends. *)
Fixpoint all_carefully (requests : list Request) : Script unit :=
  match requests with
  | [] => SYield (SDone (Ok tt))
  | r :: requests => SIssue r (fun _ => all_carefully requests)
  end.

(** [await sleep(ms)] *)
Definition sleep (ms : Z) : Script unit :=
  SEmit (EvSleep ms) (SYield (SDone (Ok tt))).

Definition Role_of (d : Data) : Script IamRole :=
  match Role d with
  | Some r => mret r
  | None => mthrow (TypeError "Cannot read property of undefined")
  end.

Definition createSNSFeedbackRole (RoleName : string) : Script Data :=
  previousRole ← quietly (IamGetRole RoleName);
  match previousRole with
  | Some previousRole => mret previousRole
  | None =>
      roleResponse ← promise (IamCreateRole RoleName "sns.amazonaws.com"
                                "role for SNS failures created by cloudify" 36000);
      _ ← promise (IamAttachRolePolicy RoleName
                     "arn:aws:iam::aws:policy/service-role/AmazonSNSRole");
      mret roleResponse
  end.

Definition createLambdaRole (RoleName PolicyArn : string) : Script Data :=
  previousRole ← quietly (IamGetRole RoleName);
  match previousRole with
  | Some previousRole => mret previousRole
  | None =>
      roleResponse ← promise (IamCreateRole RoleName "lambda.amazonaws.com"
                                "role for lambda functions created by cloudify" 3600);
      _ ← promise (IamAttachRolePolicy RoleName PolicyArn);
      mret roleResponse
  end.

Definition addNoCreateLogPolicyToRole (RoleName PolicyName : string) : Script unit :=
  _ ← promise (IamPutRolePolicy RoleName PolicyName "logs:CreateLogGroup" "Deny");
  mret tt.

Definition createQueue (QueueName : string) (VTimeout : Z)
    (deadLetterTargetArn : option string) : Script (option string) :=
  response ← promise (SqsCreateQueue QueueName VTimeout
                        (if truthy deadLetterTargetArn then deadLetterTargetArn
                         else None));
  mret (QueueUrl response).

(** [sendQueueStopMessage] returns the promise of [carefully]. *)
Definition sendQueueStopMessage (QueueUrl : string) : Script (option Data) :=
  quietly_promise (SqsSendMessage QueueUrl "empty" stopAttributes).

Fixpoint pollAWSRequest_loop (n : nat) (fn : unit -> Request) : Script (option Data) :=
  match n with
  | 0 => mthrow (new_Error "Polling failed for ${description}")
  | S n' =>
      result ← quietly (fn tt);
      match result with
      | Some _ => mret result
      | None => _ ← sleep 1000; pollAWSRequest_loop n' fn
      end
  end.

Definition pollAWSRequest (n : nat) (description : string)
    (fn : unit -> Request) : Script (option Data) :=
  _ ← sleep 2000;
  pollAWSRequest_loop n fn.

Definition createSNSNotifier (Name RoleArn : string) : Script (option string) :=
  topic ← promise (SnsCreateTopic Name);
  let TopicArn := TopicArn topic in
  success ← pollAWSRequest 100
              "role for SNS invocation of lambda function failure feedback"
              (fun _ => SnsSetTopicAttributes TopicArn
                          "LambdaFailureFeedbackRoleArn" RoleArn);
  match success with
  | None => mthrow (new_Error "Could not initialize lambda execution role")
  | Some _ => mret TopicArn
  end.

Definition createLogGroup (logGroupName : string) : Script Data :=
  response ← promise (LogsCreateLogGroup logGroupName);
  _ ← promise (LogsPutRetentionPolicy logGroupName 1);
  mret response.

Definition addSnsInvokePermissionsToFunction (FunctionName : string)
    (RequestTopicArn : option string) : Script Data :=
  promise (LambdaAddPermission FunctionName "lambda:invokeFunction"
             "sns.amazonaws.com" (FunctionName +:+ "-Invoke") RequestTopicArn).

Definition deleteRole (RoleName : string) : Script unit :=
  policies ← carefully (IamListAttachedRolePolicies RoleName);
  let AttachedPolicies :=
    match policies with
    | Some policies => default [] (AttachedPolicies policies)
    | None => []
    end in
  _ ← all_carefully (map (IamDetachRolePolicy RoleName) AttachedPolicies);
  rolePolicyListResponse ← carefully (IamListRolePolicies RoleName);
  let RolePolicies :=
    match rolePolicyListResponse with
    | Some response => default [] (PolicyNames response)
    | None => []
    end in
  _ ← all_carefully (map (IamDeleteRolePolicy RoleName) RolePolicies);
  _ ← carefully (IamDeleteRole RoleName);
  mret tt.

(** The closure [createFunction] of [initialize], with the variables it
    captures as parameters. It reads and writes nothing of the state. *)
Definition createFunction (fModule FunctionName RoleName PolicyArn : string)
    (Timeout MemorySize : Z) (useQueue : bool)
    (rest awsLambdaOptions : Params)
    (DeadLetterQueueUrl : option string) : Script (option string) :=
  roleResponse ← createLambdaRole RoleName PolicyArn;
  _ ← addNoCreateLogPolicyToRole RoleName "cloudify-deny-create-log-group-policy";
  packed ← promise (Pack fModule);
  previous ← quietly (LambdaGetFunction FunctionName);
  match previous with
  | Some _ => mthrow (new_Error "Function name hash collision")
  | None =>
      role ← Role_of roleResponse;
      zip ← promise (ZipStreamToBuffer (archive packed));
      let createFunctionRequest :=
        createFunctionRequest FunctionName (role_Arn role) useQueue (buffer zip)
          Timeout MemorySize DeadLetterQueueUrl rest awsLambdaOptions in
      func ← pollAWSRequest 100 "creating function"
               (fun _ => LambdaCreateFunction createFunctionRequest);
      match func with
      | Some func => mret (FunctionArn func)
      | None => mthrow (TypeError "Cannot read property 'FunctionArn' of undefined")
      end
  end.

(** ** Code that also reads and writes the state

    [Fork]: the closure is called, it runs to its first [await] within
    the caller's turn, and its promise is kept; [Join]: that promise is
    awaited. *)
Inductive Task (A : Type) : Type :=
| Done (r : Res A)
| Issue (r : Request) (k : Outcome -> Task A)
| Get (k : World -> Task A)
| Modify (f : World -> World) (k : Task A)
| Yield (k : Task A)
| Fork (body : Script (option string)) (k : Task A)
| Join (k : Res (option string) -> Task A).
Arguments Done {A} r.
Arguments Issue {A} r k.
Arguments Get {A} k.
Arguments Modify {A} f k.
Arguments Yield {A} k.
Arguments Fork {A} body k.
Arguments Join {A} k.

Fixpoint task_bind {A B} (t : Task A) (k : A -> Task B) : Task B :=
  match t with
  | Done (Ok a) => k a
  | Done (Thrown e) => Done (Thrown e)
  | Issue r f => Issue r (fun o => task_bind (f o) k)
  | Get f => Get (fun w => task_bind (f w) k)
  | Modify f t' => Modify f (task_bind t' k)
  | Yield t' => Yield (task_bind t' k)
  | Fork body t' => Fork body (task_bind t' k)
  | Join f => Join (fun r => task_bind (f r) k)
  end.

#[global] Instance Task_ret : MRet Task := fun A a => Done (Ok a).
#[global] Instance Task_bind : MBind Task := fun A B k t => task_bind t k.
#[global] Instance Task_throw : MThrow Error Task := fun A e => Done (Thrown e).

(** [try { t } catch (err) { h err }] *)
Fixpoint try_catch {A} (t : Task A) (h : Error -> Task A) : Task A :=
  match t with
  | Done (Ok a) => Done (Ok a)
  | Done (Thrown e) => h e
  | Issue r f => Issue r (fun o => try_catch (f o) h)
  | Get f => Get (fun w => try_catch (f w) h)
  | Modify f t' => Modify f (try_catch t' h)
  | Yield t' => Yield (try_catch t' h)
  | Fork body t' => Fork body (try_catch t' h)
  | Join f => Join (fun r => try_catch (f r) h)
  end.

(** A script within a task: its effects are effects on the trace. *)
Fixpoint lift {A} (s : Script A) : Task A :=
  match s with
  | SDone r => Done r
  | SIssue r k => Issue r (fun o => lift (k o))
  | SEmit ev k => Modify (emit ev) (lift k)
  | SYield k => Yield (lift k)
  end.

Definition modify (f : World -> World) : Task unit := Modify f (Done (Ok tt)).

(** [state.resources.f = v] *)
Definition assign (f : AWSResources -> AWSResources) : Task unit :=
  modify (fun w => set_resources (f (resources w)) w).

(** [let createFunctionPromise = createFunction(...)] *)
Definition fork (body : Script (option string)) : Task unit :=
  Fork body (Done (Ok tt)).

(** [await createFunctionPromise] *)
Definition join : Task (option string) := Join (fun r => Done r).

(** [if (x) { ... }] on an optional string. *)
Definition when_set (x : option string) (f : string -> Task unit) : Task unit :=
  match x with
  | Some v => if truthy x then f v else mret tt
  | None => mret tt
  end.

Definition createDLQ (FunctionName : string) (Timeout : Z) : Task (option string) :=
  url ← lift (createQueue (FunctionName +:+ "-DLQ") Timeout None);
  _ ← assign (set_DeadLetterQueueUrl url);
  attributeResponse ← lift (promise (SqsGetQueueAttributes url ["QueueArn"]));
  match Attributes attributeResponse with
  | Some attrs => mret (lookup_attribute attrs "QueueArn")
  | None => mthrow (TypeError "Cannot read property 'QueueArn' of undefined")
  end.

(** [deadLetterQueueCollector(state)] is called and never awaited: what
    runs of it within the caller's turn is its first long poll. Its later
    turns are not turns of [initialize]. *)
Definition deadLetterQueueCollector : Task unit :=
  Get (fun w =>
    Issue (SqsReceiveMessage (DeadLetterQueueUrl (resources w)) 20 10 ["cloudify"])
      (fun _ => Done (Ok tt))).

(** [cancelWithoutCleanup(state)] up to its [await]: the stop messages
    are sent within the caller's turn. What is returned stands for the
    promise: the handle of the collector that [Promise.all(tasks)] waits
    for, if any; the sends never reject. *)
Definition cancelWithoutCleanup : Task (option nat) :=
  Get (fun w =>
    let ResponseQueueUrl := ResponseQueueUrl (resources w) in
    let DeadLetterQueueUrl := DeadLetterQueueUrl (resources w) in
    collector ←
      match ResponseQueueUrl, resultCollectorPromise w with
      | Some url, Some handle =>
          if truthy ResponseQueueUrl
          then _ ← lift (sendQueueStopMessage url); mret (Some handle)
          else mret None
      | _, _ => mret None
      end;
    _ ← when_set DeadLetterQueueUrl
          (fun url => _ ← lift (sendQueueStopMessage url); mret tt);
    mret collector).

(** [await cancelPromise] *)
Definition await_cancel (collector : option nat) : Task unit :=
  match collector with
  | Some handle => _ ← lift (promise (AwaitResultCollector handle)); mret tt
  | None => Yield (mret tt)
  end.

(** [cleanup(state)]: the manifest is read when [cleanup] is called. *)
Definition cleanup : Task unit :=
  Get (fun w =>
    let r := resources w in
    _ ← when_set (SNSLambdaSubscriptionArn r)
          (fun arn => _ ← lift (quietly (SnsUnsubscribe arn)); mret tt);
    cancelPromise ← cancelWithoutCleanup;
    _ ← when_set (FunctionName r)
          (fun FunctionName =>
             _ ← lift (quietly (LambdaDeleteFunction FunctionName)); mret tt);
    _ ← when_set (logGroupName r)
          (fun logGroupName =>
             _ ← lift (quietly (LogsDeleteLogGroup logGroupName)); mret tt);
    _ ← when_set (RoleName r)
          (fun RoleName =>
             if bool_decide (rolePolicy r = Some createTemporaryRole)
             then lift (deleteRole RoleName) else mret tt);
    _ ← when_set (SNSFeedbackRole r)
          (fun SNSFeedbackRole =>
             if bool_decide (rolePolicy r = Some createTemporaryRole)
             then lift (deleteRole SNSFeedbackRole) else mret tt);
    _ ← await_cancel cancelPromise;
    _ ← when_set (RequestTopicArn r)
          (fun TopicArn => _ ← lift (quietly (SnsDeleteTopic TopicArn)); mret tt);
    _ ← when_set (ResponseQueueUrl r)
          (fun QueueUrl => _ ← lift (quietly (SqsDeleteQueue QueueUrl)); mret tt);
    when_set (DeadLetterQueueUrl r)
      (fun QueueUrl => _ ← lift (quietly (SqsDeleteQueue QueueUrl)); mret tt)).

(** The [try] block of [initialize]. *)
Definition initialize_try (fModule : string) (s : Settings) : Task unit :=
  let FunctionName := s_FunctionName s in
  _ ← lift (createLogGroup (s_logGroupName s));
  DeadLetterQueueArn ← createDLQ FunctionName (s_Timeout s);
  _ ← deadLetterQueueCollector;
  _ ← fork (createFunction fModule FunctionName (s_RoleName s) (s_PolicyArn s)
              (s_Timeout s) (s_MemorySize s) (s_useQueue s) (s_rest s)
              (s_awsLambdaOptions s) DeadLetterQueueArn);
  _ ← (if s_useQueue s then
         let SNSFeedbackRoleName :=
           if bool_decide (s_rolePolicy s = createTemporaryRole)
           then FunctionName +:+ "-SNSRole"
           else "cloudify-cached-SNSFeedbackRole" in
         snsRole ← lift (createSNSFeedbackRole SNSFeedbackRoleName);
         role ← lift (Role_of snsRole);
         _ ← assign (set_SNSFeedbackRole (Some (role_RoleName role)));
         topic ← lift (createSNSNotifier (FunctionName +:+ "-Requests")
                         (role_Arn role));
         _ ← assign (set_RequestTopicArn topic);
         queue ← lift (createQueue (FunctionName +:+ "-Responses") (s_Timeout s)
                         DeadLetterQueueArn);
         assign (set_ResponseQueueUrl queue)
       else mret tt);
  FunctionArn ← join;
  if s_useQueue s then
    _ ← Get (fun w =>
           lift (addSnsInvokePermissionsToFunction FunctionName
                   (RequestTopicArn (resources w))));
    snsRepsonse ← Get (fun w =>
                     lift (promise (SnsSubscribe (RequestTopicArn (resources w))
                                      "lambda" FunctionArn)));
    _ ← assign (set_SNSLambdaSubscriptionArn (SubscriptionArn snsRepsonse));
    modify startResultCollectorIfNeeded
  else mret tt.

(** The [catch] block of [initialize]. *)
Definition initialize_catch (err : Error) : Task unit :=
  _ ← cleanup; mthrow err.

(** [initialize]; [nonce] is the fresh [uuidv4()]. *)
Definition initialize (fModule : string) (options : Options) (nonce : string) :
    Task unit :=
  let s := settings options nonce in
  _ ← modify (new_State (initial_resources s) (Some (s_useQueue s)));
  try_catch (initialize_try fModule s) initialize_catch.

(** ** Turns

    The main flow, the closure once it is called, and the world. Between
    turns the main flow is at an [await] ([Yield], [Join]) or has
    settled ([Done]); so is the closure. *)
Record Config (A : Type) := mkConfig {
  main : Task A;
  closure : option (Script (option string));
  world : World
}.
Arguments mkConfig {A} main closure world.
Arguments main {A} c.
Arguments closure {A} c.
Arguments world {A} c.

(** A script runs to its next [await] or to its end. *)
Fixpoint advance_script {A} (env : Env) (s : Script A) (w : World) :
    Script A * World :=
  match s with
  | SDone r => (SDone r, w)
  | SIssue r k => advance_script env (k (env (trace w) r)) (emit (EvReq r) w)
  | SEmit ev k => advance_script env k (emit ev w)
  | SYield k => (SYield k, w)
  end.

(** The main flow runs to its next [await] or to its end. *)
Fixpoint advance {A} (env : Env) (t : Task A)
    (c : option (Script (option string))) (w : World) : Config A :=
  match t with
  | Done r => mkConfig (Done r) c w
  | Issue r k => advance env (k (env (trace w) r)) c (emit (EvReq r) w)
  | Get k => advance env (k w) c w
  | Modify f k => advance env k c (f w)
  | Yield k => mkConfig (Yield k) c w
  | Fork body k =>
      let '(s, w) := advance_script env body w in advance env k (Some s) w
  | Join k => mkConfig (Join k) c w
  end.

Inductive Turn := resume_main | resume_closure.

(** One turn. The main flow at [Join] is resumed once the closure has
    settled. A turn of who cannot be resumed changes nothing. *)
Definition step {A} (env : Env) (turn : Turn) (c : Config A) : Config A :=
  match turn with
  | resume_main =>
      match main c with
      | Yield k => advance env k (closure c) (world c)
      | Join k =>
          match closure c with
          | Some (SDone r) => advance env (k r) (closure c) (world c)
          | _ => c
          end
      | _ => c
      end
  | resume_closure =>
      match closure c with
      | Some (SYield k) =>
          let '(s, w) := advance_script env k (world c) in
          mkConfig (main c) (Some s) w
      | _ => c
      end
  end.

Definition run {A} (env : Env) (schedule : list Turn) (c : Config A) : Config A :=
  fold_left (fun c turn => step env turn c) schedule c.

(** The call of the task: its first turn. *)
Definition begin {A} (env : Env) (t : Task A) (w : World) : Config A :=
  advance env t None w.

(** The promise of the main flow has settled. *)
Definition finished {A} (t : Task A) : bool :=
  match t with
  | Done _ => true
  | _ => false
  end.

(** The task that goes on after a [try] block threw [e] to [h]. *)
Definition caught {A} (h : Error -> Task A) (c : Config A) : Config A :=
  mkConfig (try_catch (main c) h) (closure c) (world c).

End Async.

(* ================================================================== *)
(** * Part III: dispatch and response collection                       *)
(* ================================================================== *)

Section Host.

(** [JSON.parse] on a reply body or payload: [None] is a [SyntaxError].
    By the trampoline contract a body that parses is a [FunctionReturn]. *)
Variable JSON_parse : string -> option FunctionReturn.

(** [JSON.stringify] and [JSON.parse] on the manifest. *)
Variable JSON_stringify_resources : AWSResources -> string.
Variable JSON_parse_resources : string -> option AWSResources.

(** ** Deferreds *)

Definition createDeferred (w : World) : nat * World :=
  (length (deferreds w), set_deferreds (deferreds w ++ [Pending]) w).

(** Settling a promise that is already settled does nothing. *)
Definition settle (d : nat) (s : Settled) (w : World) : World :=
  match deferreds w !! d with
  | Some Pending => set_deferreds (<[d := s]> (deferreds w)) w
  | _ => w
  end.

Definition resolve (d : nat) (r : QueuedResponse) : World -> World :=
  settle d (Resolved r).

Definition reject (d : nat) (e : Error) : World -> World :=
  settle d (Rejected e).

(** ** Messages *)

Fixpoint attribute (l : list (string * MessageAttributeValue)) (k : string) :
    option MessageAttributeValue :=
  match l with
  | [] => None
  | (k', v) :: l' => if String.eqb k' k then Some v else attribute l' k
  end.

Definition isQueueStopMessage (m : Message) : bool :=
  match MessageAttributes m with
  | None => false
  | Some attrs =>
      match attribute attrs "cloudify" with
      | None => false
      | Some a => bool_decide (StringValue a = Some "stop")
      end
  end.

(** [m.MessageAttributes!.CallId.StringValue!]: reading a property of
    [undefined] throws a [TypeError]; a missing [StringValue] is
    [undefined]. *)
Definition CallId_of (m : Message) : Res (option string) :=
  match MessageAttributes m with
  | None => Thrown (TypeError "Cannot read property 'CallId' of undefined")
  | Some attrs =>
      match attribute attrs "CallId" with
      | None => Thrown (TypeError "Cannot read property 'StringValue' of undefined")
      | Some a => Ok (StringValue a)
      end
  end.

(** The request is sent and not awaited. *)
Definition deleteSQSMessages (QueueUrl : option string) (Messages : list Message)
    (w : World) : World :=
  if 0 <? length Messages then
    emit (EvReq (SqsDeleteMessageBatch QueueUrl
                   (map (fun m => (MessageId m, ReceiptHandle m)) Messages))) w
  else w.

(** ** The response collector *)

Fixpoint resolvePromises (results : list CallResults) (w : World) : World :=
  match results with
  | [] => w
  | mkCallResults CallId message deferred :: results =>
      let w := if truthy CallId then w else emit (EvLog (LogNoCallId message)) w in
      if negb (truthy (Body message)) then resolvePromises results w
      else
        match JSON_parse (default "" (Body message)) with
        | None =>
            (* JSON.parse throws in the timer callback: the loop is left *)
            emit (EvUncaught (SyntaxError "Unexpected token in JSON")) w
        | Some returned =>
            match deferred with
            | None =>
                resolvePromises results (emit (EvLog (LogDeferredNotFound CallId)) w)
            | Some d =>
                resolvePromises results (resolve d (mkQueued returned message) w)
            end
        end
  end.

Definition rejectAll (w : World) : World :=
  fold_left
    (fun w kv =>
       reject (snd kv) (new_Error "Call to cloud function cancelled in cleanup")
         (emit (EvLog (LogRejectingCall (fst kv))) w))
    (callResultPromises w)
    (emit (EvLog (LogRejecting (length (callResultPromises w)))) w).

(** The [for] loop over the received messages, inside the [try]. *)
Inductive Collected :=
| Stop (w : World)
| Batch (callResults : list CallResults) (w : World)
| Caught (err : Error) (w : World).

Fixpoint collect (Messages : list Message) (callResults : list CallResults)
    (w : World) : Collected :=
  match Messages with
  | [] => Batch callResults w
  | m :: Messages =>
      if isQueueStopMessage m then Stop (collector_cleanup (rejectAll w))
      else
        match CallId_of m with
        | Thrown err => Caught err w
        | Ok CallId =>
            collect Messages
              (callResults ++
                 [mkCallResults CallId m (Map_get_opt (callResultPromises w) CallId)])
              (set_callResultPromises
                 (Map_delete_opt (callResultPromises w) CallId) w)
        end
  end.

(** The collector task [c] is resumed with the outcome of its long poll
    and runs to its next suspension or to its end. When the poll fails
    the [await] throws outside the [try]: the task ends, nothing else
    happens. *)
Definition resultCollector_resume (c : nat) (response : Res (option (list Message)))
    (w : World) : World :=
  let w := set_collectors (List.filter (fun c' => negb (c' =? c)) (collectors w)) w in
  match response with
  | Thrown _ => w
  | Ok Messages =>
      let Messages := default [] Messages in
      let w := emit (EvLog (LogReceived (length Messages))) w in
      let w := deleteSQSMessages (ResponseQueueUrl (resources w)) Messages w in
      match collect Messages [] w with
      | Stop w => w
      | Batch callResults w =>
          resultCollector_loop c (setTimeout (TResolvePromises callResults) w)
      | Caught err w =>
          resultCollector_loop c (emit (EvLog (LogError err)) w)
      end
  end.

Definition enqueueCallRequest (CallId : string) (w : World) : nat * World :=
  let '(deferred, w) := createDeferred w in
  let w := emit (EvLog (LogEnqueuing CallId deferred)) w in
  let w := set_callResultPromises (Map_set (callResultPromises w) CallId deferred) w in
  (deferred, startResultCollectorIfNeeded w).

Definition run_timer (t : Timer) (w : World) : World :=
  match t with
  | TResolvePromises results => resolvePromises results w
  | TStartResultCollectorIfNeeded => startResultCollectorIfNeeded w
  end.

(** ** [cloudifyWithResponse] *)

(** Where the returned function is suspended after its first turn. *)
Inductive Suspended :=
| AwaitPublish (responsePromise : nat)
| AwaitInvoke.

(** The function returned by [cloudifyWithResponse], from its call to its
    first [await]; [CallId] is the fresh [uuidv4()]. The message that is
    published or passed as payload is [JSON.stringify(callArgs)]. *)
Definition responsifedFunc (fn_name : string) (args : list Json) (CallId : string)
    (w : World) : Suspended * World :=
  let callArgs :=
    mkFunctionCall fn_name args CallId (ResponseQueueUrl (resources w)) in
  let w := emit (EvLog (LogCalling callArgs)) w in
  if bool_decide (useQueue w = Some true) then
    let '(responsePromise, w) := enqueueCallRequest CallId w in
    (AwaitPublish responsePromise,
     emit (EvReq (SnsPublish (RequestTopicArn (resources w)) callArgs)) w)
  else
    (AwaitInvoke,
     emit (EvReq (LambdaInvoke (FunctionName (resources w)) "Tail" callArgs)) w).

Inductive RawResponse :=
| RawUndefined
| RawMessage (m : Message)
| RawInvocation (r : InvocationResponse).

(** What the variable [returned] can hold. *)
Inductive Returned :=
| RUndefined
| RFalse
| REmptyString
| RObject (r : FunctionReturn).

Inductive JsValue :=
| VUndefined
| VFalse
| VEmptyString
| VJson (j : Json).

Record Response := mkResponse {
  value : JsValue;
  error : option Error;
  resp_rawResponse : RawResponse
}.

(** The end of the returned function, after both branches. *)
Definition respond (returned : Returned) (error : option Error)
    (rawResponse : RawResponse) : Response :=
  let error :=
    match returned with
    | RObject (FRError errValue) =>
        Some (mkError (ev_name errValue) (ev_message errValue) (ev_stack errValue))
    | _ => error
    end in
  let value :=
    match error with
    | Some _ => VFalse
    | None =>
        match returned with
        | RUndefined => VUndefined
        | RFalse => VFalse
        | REmptyString => VEmptyString
        | RObject (FRValue v) => VJson v
        | RObject (FRError _) => VFalse
        end
    end in
  mkResponse value error rawResponse.

(** Queue mode after the first turn: [sns.publish] settles, then the
    response promise. [None]: the call is still waiting. *)
Definition responsifedFunc_queue (snsResponse : Outcome) (responsePromise : Settled) :
    option (Res Response) :=
  match snsResponse with
  | Failed e => Some (Thrown e)
  | Fulfilled _ =>
      match responsePromise with
      | Pending => None
      | Rejected e => Some (Thrown e)
      | Resolved r =>
          Some (Ok (respond (RObject (returned r)) None (RawMessage (rawResponse r))))
      end
  end.

(** Direct mode after the first turn: [lambda.invoke] settles. *)
Definition responsifedFunc_direct (response : Res InvocationResponse) : Res Response :=
  match response with
  | Thrown e => Thrown e
  | Ok rawResponse =>
      let error :=
        if truthy (FunctionError rawResponse)
        then Some (new_Error (default "" (Payload rawResponse)))
        else None in
      match error with
      | Some _ => Ok (respond RFalse error (RawInvocation rawResponse))
      | None =>
          match Payload rawResponse with
          | None => Ok (respond RUndefined error (RawInvocation rawResponse))
          | Some payload =>
              if String.eqb payload ""
              then Ok (respond REmptyString error (RawInvocation rawResponse))
              else
                match JSON_parse payload with
                | None => Thrown (SyntaxError "Unexpected token in JSON")
                | Some r => Ok (respond (RObject r) error (RawInvocation rawResponse))
                end
          end
      end
  end.

(** ** The event loop

    One step is one turn: a caller enters the returned function, a
    suspended collector is resumed with the outcome of its poll, or the
    first timer fires. What a poll returns is the environment's choice. *)
Inductive step : World -> World -> Prop :=
| step_call fn_name args CallId w :
    step w (snd (responsifedFunc fn_name args CallId w))
| step_receive c response w :
    In c (collectors w) ->
    step w (resultCollector_resume c response w)
| step_timer t ts w :
    timers w = t :: ts ->
    step w (run_timer t (set_timers ts w)).

(** The calls enqueued so far, as the trace records them: the [CallId]
    and the deferred of every "Enqueuing call request" message. *)
Fixpoint enqueuings (tr : list Event) : list (string * nat) :=
  match tr with
  | [] => []
  | EvLog (LogEnqueuing CallId deferred) :: tr => (CallId, deferred) :: enqueuings tr
  | _ :: tr => enqueuings tr
  end.

(** The runtime state [initialize] hands out: no pending call, no
    collector, no timer, and no call enqueued yet. *)
Definition idle (w : World) : Prop :=
  callResultPromises w = [] /\ resultCollectorPromise w = None /\
  deferreds w = [] /\ collectors w = [] /\ timers w = [] /\
  enqueuings (trace w) = [].

Inductive reachable : World -> Prop :=
| reachable_idle w : idle w -> reachable w
| reachable_step w w' : reachable w -> step w w' -> reachable w'.

(* ================================================================== *)
(** * Part IV: [initialize], [cleanup], [cleanupResources]             *)
(* ================================================================== *)

(** The sequential reading, in the monad [M]. *)

(** [if (x) { ... }] on an optional string. *)
Definition when_set (x : option string) (f : string -> M unit) : M unit :=
  match x with
  | Some v => if truthy x then f v else ret tt
  | None => ret tt
  end.

Definition deleteRole (RoleName : string) : M unit :=
  do policies <- carefully (IamListAttachedRolePolicies RoleName);
  let AttachedPolicies :=
    match policies with
    | Some policies => default [] (AttachedPolicies policies)
    | None => []
    end in
  for_each AttachedPolicies
    (fun PolicyArn => carefully (IamDetachRolePolicy RoleName PolicyArn);; ret tt);;
  do rolePolicyListResponse <- carefully (IamListRolePolicies RoleName);
  let RolePolicies :=
    match rolePolicyListResponse with
    | Some response => default [] (PolicyNames response)
    | None => []
    end in
  for_each RolePolicies
    (fun PolicyName => carefully (IamDeleteRolePolicy RoleName PolicyName);; ret tt);;
  carefully (IamDeleteRole RoleName);;
  ret tt.

(** [cancelWithoutCleanup(state)]: the stop messages are sent at the
    call; what is returned is [await Promise.all(tasks)], which whoever
    holds the promise runs when it awaits it. The sends never reject
    ([carefully]); the collector's promise can. *)
Definition cancelWithoutCleanup : M (M unit) :=
  do w <- get_world;
  let ResponseQueueUrl := ResponseQueueUrl (resources w) in
  let DeadLetterQueueUrl := DeadLetterQueueUrl (resources w) in
  do collector <-
    match ResponseQueueUrl, resultCollectorPromise w with
    | Some url, Some handle =>
        if truthy ResponseQueueUrl
        then sendQueueStopMessage url;; ret (Some handle)
        else ret None
    | _, _ => ret None
    end;
  when_set DeadLetterQueueUrl (fun url => sendQueueStopMessage url;; ret tt);;
  ret (match collector with
       | Some handle => promise (AwaitResultCollector handle);; ret tt
       | None => ret tt
       end).

Definition cleanup : M unit :=
  do w <- get_world;
  let r := resources w in
  when_set (SNSLambdaSubscriptionArn r)
    (fun arn => quietly (SnsUnsubscribe arn);; ret tt);;
  do cancelPromise <- cancelWithoutCleanup;
  when_set (FunctionName r)
    (fun FunctionName => quietly (LambdaDeleteFunction FunctionName);; ret tt);;
  when_set (logGroupName r)
    (fun logGroupName => quietly (LogsDeleteLogGroup logGroupName);; ret tt);;
  when_set (RoleName r)
    (fun RoleName =>
       if bool_decide (rolePolicy r = Some createTemporaryRole)
       then deleteRole RoleName else ret tt);;
  when_set (SNSFeedbackRole r)
    (fun SNSFeedbackRole =>
       if bool_decide (rolePolicy r = Some createTemporaryRole)
       then deleteRole SNSFeedbackRole else ret tt);;
  cancelPromise;;
  when_set (RequestTopicArn r)
    (fun TopicArn => quietly (SnsDeleteTopic TopicArn);; ret tt);;
  when_set (ResponseQueueUrl r)
    (fun QueueUrl => quietly (SqsDeleteQueue QueueUrl);; ret tt);;
  when_set (DeadLetterQueueUrl r)
    (fun QueueUrl => quietly (SqsDeleteQueue QueueUrl);; ret tt).

(** The closure [createFunction] of [initialize], with the variables it
    captures as parameters. *)
Definition createFunction (fModule FunctionName RoleName PolicyArn : string)
    (Timeout MemorySize : Z) (useQueue : bool)
    (rest awsLambdaOptions : Params)
    (DeadLetterQueueUrl : option string) : M (option string) :=
  do roleResponse <- createLambdaRole RoleName PolicyArn;
  addNoCreateLogPolicyToRole RoleName "cloudify-deny-create-log-group-policy";;
  do packed <- promise (Pack fModule);
  do previous <- quietly (LambdaGetFunction FunctionName);
  match previous with
  | Some _ => throw (new_Error "Function name hash collision")
  | None =>
      do role <- Role_of roleResponse;
      do zip <- promise (ZipStreamToBuffer (archive packed));
      let createFunctionRequest :=
        createFunctionRequest FunctionName (role_Arn role) useQueue (buffer zip)
          Timeout MemorySize DeadLetterQueueUrl rest awsLambdaOptions in
      do func <- pollAWSRequest 100 "creating function"
                   (fun _ => LambdaCreateFunction createFunctionRequest);
      match func with
      | Some func => ret (FunctionArn func)
      | None => throw (TypeError "Cannot read property 'FunctionArn' of undefined")
      end
  end.

(** The [try] block of [initialize]. *)
Definition initialize_try (fModule : string) (s : Settings) : M unit :=
  let FunctionName := s_FunctionName s in
  createLogGroup (s_logGroupName s);;
  do DeadLetterQueueArn <- createDLQ FunctionName (s_Timeout s);
  deadLetterQueueCollector;;
  do createFunctionPromise <-
    start (createFunction fModule FunctionName (s_RoleName s) (s_PolicyArn s)
             (s_Timeout s) (s_MemorySize s) (s_useQueue s) (s_rest s)
             (s_awsLambdaOptions s) DeadLetterQueueArn);
  (if s_useQueue s then
     let SNSFeedbackRoleName :=
       if bool_decide (s_rolePolicy s = createTemporaryRole)
       then FunctionName +:+ "-SNSRole"
       else "cloudify-cached-SNSFeedbackRole" in
     do snsRole <- createSNSFeedbackRole SNSFeedbackRoleName;
     do role <- Role_of snsRole;
     assign (set_SNSFeedbackRole (Some (role_RoleName role)));;
     do topic <- createSNSNotifier (FunctionName +:+ "-Requests") (role_Arn role);
     assign (set_RequestTopicArn topic);;
     do queue <- createQueue (FunctionName +:+ "-Responses") (s_Timeout s)
                   DeadLetterQueueArn;
     assign (set_ResponseQueueUrl queue)
   else ret tt);;
  do FunctionArn <- await createFunctionPromise;
  (if s_useQueue s then
     do w <- get_world;
     addSnsInvokePermissionsToFunction FunctionName (RequestTopicArn (resources w));;
     do snsRepsonse <- promise (SnsSubscribe (RequestTopicArn (resources w))
                                  "lambda" FunctionArn);
     assign (set_SNSLambdaSubscriptionArn (SubscriptionArn snsRepsonse));;
     modify startResultCollectorIfNeeded
   else ret tt).

(** [initialize]; [nonce] is the fresh [uuidv4()]. The state it returns
    is the state of the world it ends in. *)
Definition initialize (fModule : string) (options : Options) (nonce : string) : M unit :=
  let s := settings options nonce in
  modify (new_State (initial_resources s) (Some (s_useQueue s)));;
  try_catch (initialize_try fModule s) (fun err => cleanup;; throw err).

Definition getResourceList (w : World) : string :=
  JSON_stringify_resources (resources w).

(** [cleanupResources] is not [async]: what it throws, it throws before
    anything is sent. *)
Definition cleanupResources (resourceString : string) : M unit :=
  match JSON_parse_resources resourceString with
  | None => throw (SyntaxError "Unexpected token in JSON")
  | Some resources =>
      if negb (truthy (region resources))
      then throw (new_Error "Resources missing 'region'")
      else modify (new_State resources None);; cleanup
  end.

(* ================================================================== *)
(** * Part V: vocabulary of the statements                             *)
(* ================================================================== *)

(** The world after the events [l] and nothing else. *)
Definition add_trace (l : list Event) (w : World) : World :=
  mkWorld (resources w) (useQueue w) (callResultPromises w)
    (resultCollectorPromise w) (deferreds w) (collectors w) (spawned w)
    (timers w) (trace w ++ l).

(** [k] attempts of a poll that failed, each followed by its pause. *)
Definition failed_attempts (fn : unit -> Request) (k : nat) : list Event :=
  concat (replicate k [EvReq (fn tt); EvSleep 1000]).

(** The request made for a manifest field, when the field is set. *)
Definition opt_req (x : option string) (f : string -> Request) : list Event :=
  match x with
  | Some v => if truthy x then [EvReq (f v)] else []
  | None => []
  end.

Definition stop_message (QueueUrl : string) : Request :=
  SqsSendMessage QueueUrl "empty" stopAttributes.

(** The requests of [deleteRole name]: the attached policies
    [detached] are detached, the inline policies [inline] deleted, then
    the role. *)
Definition role_deletion (name : string) (detached : list (option string))
    (inline : list string) : list Event :=
  EvReq (IamListAttachedRolePolicies name)
  :: map (fun p => EvReq (IamDetachRolePolicy name p)) detached
  ++ EvReq (IamListRolePolicies name)
  :: map (fun p => EvReq (IamDeleteRolePolicy name p)) inline
  ++ [EvReq (IamDeleteRole name)].

(** The requests [cleanup] makes for the role field [x] of the manifest
    [r]: a role is deleted when the field is set and the manifest says
    [createTemporaryRole], and nothing is sent otherwise. *)
Definition role_segment (r : AWSResources) (x : option string)
    (seg : list Event) : Prop :=
  match x with
  | Some name =>
      if truthy x && bool_decide (rolePolicy r = Some createTemporaryRole)
      then exists detached inline, seg = role_deletion name detached inline
      else seg = []
  | None => seg = []
  end.

(** The collector promise [cleanup] will await: there is one when the
    response queue is recorded and the state holds a collector handle. *)
Definition awaited_collector (w : World) : option nat :=
  if truthy (ResponseQueueUrl (resources w)) then resultCollectorPromise w else None.

(** The requests of [cleanup] before it awaits [cancelPromise]. *)
Definition cleanup_head (w : World) (roles feedback : list Event) : list Event :=
  let r := resources w in
  opt_req (SNSLambdaSubscriptionArn r) SnsUnsubscribe
  ++ match awaited_collector w with
     | Some _ => opt_req (ResponseQueueUrl r) stop_message
     | None => []
     end
  ++ opt_req (DeadLetterQueueUrl r) stop_message
  ++ opt_req (FunctionName r) LambdaDeleteFunction
  ++ opt_req (logGroupName r) LogsDeleteLogGroup
  ++ roles ++ feedback.

(** The requests of [cleanup] after it awaited [cancelPromise]. *)
Definition cleanup_tail (r : AWSResources) : list Event :=
  opt_req (RequestTopicArn r) SnsDeleteTopic
  ++ opt_req (ResponseQueueUrl r) SqsDeleteQueue
  ++ opt_req (DeadLetterQueueUrl r) SqsDeleteQueue.

(** The request that deletes the resource a manifest field records. *)
Definition recorded (x : option string) (f : string -> Request) : list Request :=
  match x with
  | Some v => if truthy x then [f v] else []
  | None => []
  end.

(** The deletions a manifest calls for: one per recorded resource, the
    roles only under [createTemporaryRole]. *)
Definition recorded_deletions (r : AWSResources) : list Request :=
  recorded (SNSLambdaSubscriptionArn r) SnsUnsubscribe
  ++ recorded (FunctionName r) LambdaDeleteFunction
  ++ recorded (logGroupName r) LogsDeleteLogGroup
  ++ (if bool_decide (rolePolicy r = Some createTemporaryRole)
      then recorded (RoleName r) IamDeleteRole
           ++ recorded (SNSFeedbackRole r) IamDeleteRole
      else [])
  ++ recorded (RequestTopicArn r) SnsDeleteTopic
  ++ recorded (ResponseQueueUrl r) SqsDeleteQueue
  ++ recorded (DeadLetterQueueUrl r) SqsDeleteQueue.

(** The requests that delete a resource of the manifest. *)
Definition resource_deletion (req : Request) : bool :=
  match req with
  | SnsUnsubscribe _ | LambdaDeleteFunction _ | LogsDeleteLogGroup _
  | IamDeleteRole _ | SnsDeleteTopic _ | SqsDeleteQueue _ => true
  | _ => false
  end.

(** A state without pending calls and without a collector handle. *)
Definition quiet (w : World) : Prop :=
  callResultPromises w = [] /\ resultCollectorPromise w = None.

(** Computations that leave such a state as it is in that respect. *)
Definition keeps {A} (m : M A) : Prop :=
  forall env w, quiet w -> quiet (snd (m env w)).

(** ** Vocabulary of the dispatch properties *)

(** [w'] differs from [w] at most in the store of deferreds and in the
    trace. *)
Definition frame (w w' : World) : Prop :=
  resources w' = resources w /\ useQueue w' = useQueue w /\
  callResultPromises w' = callResultPromises w /\
  resultCollectorPromise w' = resultCollectorPromise w /\
  collectors w' = collectors w /\ spawned w' = spawned w /\
  timers w' = timers w.

(** The response [r] answers the call [CallId]: the message it was
    taken from carries that [CallId], and what it returns is the parse of
    that message's body. *)
Definition answers (CallId : string) (r : QueuedResponse) : Prop :=
  CallId_of (rawResponse r) = Ok (Some CallId) /\
  JSON_parse (default "" (Body (rawResponse r))) = Some (returned r).

(** A collected result that holds a deferred holds the one enqueued under
    the [CallId] of its message. *)
Definition good_result (enq : list (string * nat)) (cr : CallResults) : Prop :=
  forall d, cr_deferred cr = Some d ->
    exists CallId, cr_CallId cr = Some CallId /\
      CallId_of (cr_message cr) = Ok (Some CallId) /\ (CallId, d) ∈ enq.

Definition good_map (enq : list (string * nat)) (m : list (string * nat)) : Prop :=
  forall CallId d, Map_get m CallId = Some d -> (CallId, d) ∈ enq.

Definition good_store (enq : list (string * nat)) (ds : list Settled) : Prop :=
  forall d r, ds !! d = Some (Resolved r) ->
    exists CallId, (CallId, d) ∈ enq /\ answers CallId r.

(** Every deferred enqueued exists, and under one [CallId] only. *)
Definition good_enqueuings (enq : list (string * nat)) (n : nat) : Prop :=
  (forall CallId d, (CallId, d) ∈ enq -> d < n) /\
  (forall CallId CallId' d, (CallId, d) ∈ enq -> (CallId', d) ∈ enq -> CallId = CallId').

Definition correlated (w : World) : Prop :=
  good_map (enqueuings (trace w)) (callResultPromises w) /\
  (forall results, TResolvePromises results ∈ timers w ->
     Forall (good_result (enqueuings (trace w))) results) /\
  good_store (enqueuings (trace w)) (deferreds w) /\
  good_enqueuings (enqueuings (trace w)) (length (deferreds w)).

(** A message the trampoline sends for the call [CallId], returning
    [fr]. *)
Definition is_reply (m : Message) (CallId : string) (fr : FunctionReturn) : Prop :=
  isQueueStopMessage m = false /\ CallId_of m = Ok (Some CallId) /\
  truthy (Body m) = true /\ JSON_parse (default "" (Body m)) = Some fr.

(** [w'] has the same enqueued calls and as many deferreds as [w]. *)
Definition same_calls (w w' : World) : Prop :=
  enqueuings (trace w') = enqueuings (trace w) /\
  length (deferreds w') = length (deferreds w).

(** The deferred [d] is pending and out of reach: no entry of the map
    and no scheduled batch holds it. *)
Definition stranded (d : nat) (w : World) : Prop :=
  deferreds w !! d = Some Pending /\
  (forall k v, (k, v) ∈ callResultPromises w -> v <> d) /\
  (forall results cr,
     TResolvePromises results ∈ timers w -> cr ∈ results -> cr_deferred cr <> Some d).

(** Any number of turns of the event loop. *)
Inductive steps : World -> World -> Prop :=
| steps_refl w : steps w w
| steps_next w w' w'' : steps w w' -> step w' w'' -> steps w w''.

(** At most one collector task, known to the handle, and only while
    calls are pending. *)
Definition collector_inv (w : World) : Prop :=
  collectors w = [] \/
  exists c, collectors w = [c] /\ resultCollectorPromise w = Some c /\
            callResultPromises w <> [].

(** The same with the converse: a collector task exactly while calls are
    pending. *)
Definition collector_exact (w : World) : Prop :=
  (collectors w = [] /\ resultCollectorPromise w = None /\
   callResultPromises w = []) \/
  exists c, collectors w = [c] /\ resultCollectorPromise w = Some c /\
            callResultPromises w <> [].

(** Turns in which no poll fails and no stop sentinel is received. *)
Inductive calm_step : World -> World -> Prop :=
| calm_call fn_name args CallId w :
    calm_step w (snd (responsifedFunc fn_name args CallId w))
| calm_receive c Messages w :
    In c (collectors w) ->
    forallb (fun m => negb (isQueueStopMessage m)) (default [] Messages) = true ->
    calm_step w (resultCollector_resume c (Ok Messages) w)
| calm_timer t ts w :
    timers w = t :: ts ->
    calm_step w (run_timer t (set_timers ts w)).

Inductive calm_reachable : World -> Prop :=
| calm_idle w : idle w -> calm_reachable w
| calm_next w w' : calm_reachable w -> calm_step w w' -> calm_reachable w'.

(** Turns in which no poll of a collector fails: a stop sentinel may be
    received. *)
Inductive polled_step : World -> World -> Prop :=
| polled_call fn_name args CallId w :
    polled_step w (snd (responsifedFunc fn_name args CallId w))
| polled_receive c Messages w :
    In c (collectors w) ->
    polled_step w (resultCollector_resume c (Ok Messages) w)
| polled_timer t ts w :
    timers w = t :: ts ->
    polled_step w (run_timer t (set_timers ts w)).

Inductive polled_reachable : World -> Prop :=
| polled_idle w : idle w -> polled_reachable w
| polled_next w w' : polled_reachable w -> polled_step w w' -> polled_reachable w'.

(** The collector handle is set exactly while a collector runs, and
    names it. *)
Definition handle_live (w : World) : Prop :=
  (collectors w = [] /\ resultCollectorPromise w = None) \/
  exists c, collectors w = [c] /\ resultCollectorPromise w = Some c.

(** ** Sample inputs *)

(** A host whose [JSON.parse] knows the bodies of the sample replies. *)
Definition sample_JSON_parse (s : string) : option FunctionReturn :=
  if String.eqb s "2" then Some (FRValue (JNum 2))
  else if String.eqb s "15" then Some (FRValue (JNum 15))
  else None.

(** A host whose JSON functions on manifests know the manifests of the
    samples, told apart by their region. *)
Definition sample_region (r : AWSResources) : string :=
  "region=" +:+ default "" (region r).

(** A provider that fulfils every request, always with the same data. *)
Definition sample_data : Data :=
  mkData (Some (mkRole "cloudify-cached-lambda-role" "arn:role"))
    (Some "https://sqs/queue") (Some [("QueueArn", "arn:queue")])
    (Some "arn:topic") (Some "arn:subscription") (Some "cloudify-n")
    (Some "arn:function") (Some []) (Some []) (Some "archive") (Some "zip").

Definition sample_env : Env := fun _ _ => Fulfilled sample_data.


Definition sample_resources : AWSResources :=
  mkResources (Some "cloudify-n") (Some "cloudify-role-n") (Some "arn:requests")
    (Some "https://sqs/responses") (Some "https://sqs/dlq")
    (Some createTemporaryRole) (Some "/aws/lambda/cloudify-n") (Some "us-west-1")
    (Some "arn:subscription") (Some "cloudify-n-SNSRole").

(** A queue-mode instance right after [initialize]. *)
Definition sample_idle : World :=
  mkWorld sample_resources (Some true) [] None [] [] 0 [] [].

(** The reply of the trampoline to the call [CallId]. *)
Definition sample_reply (CallId body : string) : Message :=
  mkMessage (Some ("id-" +:+ CallId)) (Some "receipt") (Some body)
    (Some [("CallId", mkAttr "String" (Some CallId))]).

(** The message [sendQueueStopMessage] sends. *)
Definition sample_stop : Message :=
  mkMessage (Some "id-stop") (Some "receipt") (Some "empty") (Some stopAttributes).

(** Two calls enqueued from the idle state. *)
Definition sample_two_calls : World :=
  snd (responsifedFunc "add" [JNum 7; JNum 8] "c2"
         (snd (responsifedFunc "add" [JNum 1; JNum 1] "c1" sample_idle))).

(** A manifest whose region is the empty string. *)
Definition sample_empty_region : AWSResources :=
  mkResources (Some "cloudify-n") (Some "cloudify-role-n") None None None
    (Some createTemporaryRole) (Some "/aws/lambda/cloudify-n") (Some "") None None.

Definition sample_parse_resources (s : string) : option AWSResources :=
  if String.eqb s "region=us-west-1" then Some sample_resources
  else if String.eqb s "region=" then Some sample_empty_region
  else None.

(** The first event of [tr], by position, that satisfies [p]. *)
Fixpoint first_index (p : Event -> bool) (tr : list Event) : option nat :=
  match tr with
  | [] => None
  | ev :: tr => if p ev then Some 0 else S <$> first_index p tr
  end.


Definition is_delete_function (ev : Event) : bool :=
  match ev with EvReq (LambdaDeleteFunction _) => true | _ => false end.


(** ** Vocabulary of the further properties *)

(** The error every cancelled call is rejected with. *)
Definition cancelled : Error :=
  new_Error "Call to cloud function cancelled in cleanup".

(** Some entry of the map holds the deferred [d]. *)
Definition held (d : nat) (m : list (string * nat)) : bool :=
  existsb (fun kv => snd kv =? d) m.

(** The deferred [d] once every pending deferred that the map of [w]
    holds is rejected. *)
Definition after_rejectAll (w : World) (d : nat) : option Settled :=
  match deferreds w !! d with
  | Some Pending =>
      if held d (callResultPromises w) then Some (Rejected cancelled)
      else Some Pending
  | settled => settled
  end.

(** No pending call, no deferred, no collector, no timer. *)
Definition unused (w : World) : Prop :=
  callResultPromises w = [] /\ resultCollectorPromise w = None /\
  deferreds w = [] /\ collectors w = [] /\ timers w = [].

(** The events of the collector that are not a batch deletion: its log
    lines, its timers and its polls. *)
Definition collector_event (ev : Event) : bool :=
  match ev with
  | EvLog _ | EvSetTimeout _ | EvReq (SqsReceiveMessage _ _ _ _) => true
  | _ => false
  end.

(** [w'] has the trace of [w] and, behind it, events that satisfy [P]. *)
Definition adds (P : Event -> bool) (w w' : World) : Prop :=
  exists l, trace w' = trace w ++ l /\ forallb P l = true.

(** The request that deletes the received messages from the queue. *)
Definition delete_batch (QueueUrl : option string) (Messages : list Message) : Event :=
  EvReq (SqsDeleteMessageBatch QueueUrl
           (map (fun m => (MessageId m, ReceiptHandle m)) Messages)).

(** A direct-mode instance right after [initialize]. *)
Definition sample_direct : World :=
  mkWorld sample_resources (Some false) [] None [] [] 0 [] [].

(** The map is a map, and a deferred is in one place at a time: the keys
    of the map are distinct, a deferred that a scheduled batch holds is
    not in the map, and a deferred that is in the map is not resolved. *)
Definition tidy (w : World) : Prop :=
  NoDup (map fst (callResultPromises w)) /\
  (forall results cr d k,
     TResolvePromises results ∈ timers w -> cr ∈ results ->
     cr_deferred cr = Some d -> (k, d) ∉ callResultPromises w) /\
  (forall k d, (k, d) ∈ callResultPromises w ->
     deferreds w !! d = Some Pending \/ deferreds w !! d = Some (Rejected cancelled)).

(** The collector has died: no task is left, and the handle is set. *)
Definition dead (w : World) : Prop :=
  collectors w = [] /\ is_Some (resultCollectorPromise w).

(** A message a collector can read the [CallId] of, whatever it is. *)
Definition readable (m : Message) : Prop :=
  isQueueStopMessage m = false /\ exists k, CallId_of m = Ok k.

(** A message without attributes. *)
Definition sample_malformed : Message :=
  mkMessage (Some "id-x") (Some "receipt") (Some "2") None.

(** ** Vocabulary of the provisioning properties *)

(** In the environment [env], the computation [m] only adds to the
    trace, and every request it sends satisfies [P]. *)
Definition sends {A} (env : Env) (P : Request -> bool) (m : M A) : Prop :=
  forall w, exists l,
    trace (snd (m env w)) = trace w ++ l /\
    forall r, EvReq r ∈ l -> P r = true.

(** In the environment [env], the computation [m] keeps the property
    [I] of the state. *)
Definition preserves {A} (env : Env) (I : World -> Prop) (m : M A) : Prop :=
  forall w, I w -> I (snd (m env w)).

(** Properties of the state that the trace has no part in. *)
Definition traceless (I : World -> Prop) : Prop :=
  forall ev w, I w -> I (emit ev w).

(** The manifest fields [initialize] sets first, and the mode. *)
Definition base_of (s : Settings) (w : World) : Prop :=
  FunctionName (resources w) = Some (s_FunctionName s) /\
  RoleName (resources w) = Some (s_RoleName s) /\
  rolePolicy (resources w) = Some (s_rolePolicy s) /\
  logGroupName (resources w) = Some (s_logGroupName s) /\
  region (resources w) = Some (s_region s) /\
  useQueue w = Some (s_useQueue s).

(** None of the manifest fields of queue mode is set. *)
Definition queue_fields_unset (w : World) : Prop :=
  RequestTopicArn (resources w) = None /\
  ResponseQueueUrl (resources w) = None /\
  SNSLambdaSubscriptionArn (resources w) = None /\
  SNSFeedbackRole (resources w) = None.

(** The requests to SNS, and the permission for SNS to invoke the
    function. *)
Definition queue_mode_request (r : Request) : bool :=
  match r with
  | SnsCreateTopic _ | SnsSetTopicAttributes _ _ _ | SnsSubscribe _ _ _
  | SnsUnsubscribe _ | SnsDeleteTopic _ | SnsPublish _ _
  | LambdaAddPermission _ _ _ _ _ => true
  | _ => false
  end.

(** The requests to IAM. *)
Definition iam_request (r : Request) : bool :=
  match r with
  | IamGetRole _ | IamCreateRole _ _ _ _ | IamAttachRolePolicy _ _
  | IamPutRolePolicy _ _ _ _ | IamListAttachedRolePolicies _
  | IamDetachRolePolicy _ _ | IamListRolePolicies _
  | IamDeleteRolePolicy _ _ | IamDeleteRole _ => true
  | _ => false
  end.

(** A provider on which no function of the name exists yet: it fulfils
    every request but [getFunction]. *)
Definition sample_env_fresh : Env :=
  fun _ r =>
    match r with
    | LambdaGetFunction _ => Failed (new_Error "ResourceNotFoundException")
    | _ => Fulfilled sample_data
    end.

Definition sample_options : Options :=
  mkOptions None None None None None None None None [].

Definition sample_direct_options : Options :=
  mkOptions None None None None None None (Some false) None [].

Definition creates_function (r : Request) : bool :=
  match r with
  | LambdaCreateFunction _ => true
  | _ => false
  end.

(** Every [createFunction] request among the events [l], which follow
    the trace [tr0], has parameters of the given [shape] and comes after
    a [getFunction] for [name] which the provider failed. *)
Definition after_failed_probe (env : Env) (name : string) (shape : Params -> Prop)
    (tr0 l : list Event) : Prop :=
  forall cf, EvReq (LambdaCreateFunction cf) ∈ l ->
    shape cf /\
    exists l1 l2 e,
      l = l1 ++ EvReq (LambdaGetFunction name) :: l2 /\
      env (tr0 ++ l1) (LambdaGetFunction name) = Failed e.

(** What a listing of policies gives: nothing when it failed. *)
Definition listed {A} (o : Outcome) (field : Data -> option (list A)) : list A :=
  match o with
  | Fulfilled d => default [] (field d)
  | Failed _ => []
  end.

(** In the environment [env], the computation [m] throws from every
    state. *)
Definition fails {A} (env : Env) (m : M A) : Prop :=
  forall w, exists e, fst (m env w) = Thrown e.

(** ** The dead-letter queue collector after its first poll

    One turn of the loop of [deadLetterQueueCollector]: the task is
    resumed with the outcome of its long poll on the queue
    [DeadLetterQueueUrl], which it read from the manifest when it was
    started. The log lines of the turn are returned in their order, with
    the value of [continueMonitoring] at the end of the turn; when that is
    true the next poll is issued. A poll that rejects makes the promise of
    the task reject. *)
Inductive DeadLetterLog :=
| LogDeadLetters (n : nat)
| LogDeadLetterStop
| LogDeadLetter (m : Message).

Record DeadLetterTurn := mkDeadLetterTurn {
  continueMonitoring : bool;
  dead_letter_log : list DeadLetterLog
}.

(** [Messages.forEach(m => ...)] *)
Definition deadLetterQueueCollector_forEach (Messages : list Message)
    (turn : DeadLetterTurn) : DeadLetterTurn :=
  fold_left
    (fun turn m =>
       if isQueueStopMessage m
       then mkDeadLetterTurn false (dead_letter_log turn ++ [LogDeadLetterStop])
       else mkDeadLetterTurn (continueMonitoring turn)
              (dead_letter_log turn ++ [LogDeadLetter m]))
    Messages turn.

Definition deadLetterQueueCollector_resume (DeadLetterQueueUrl : option string)
    (response : Res (option (list Message))) (w : World) :
    Res DeadLetterTurn * World :=
  match response with
  | Thrown e => (Thrown e, w)
  | Ok Messages =>
      let Messages := default [] Messages in
      let log :=
        if 0 <? length Messages then [LogDeadLetters (length Messages)] else [] in
      let w := deleteSQSMessages DeadLetterQueueUrl Messages w in
      let turn := deadLetterQueueCollector_forEach Messages (mkDeadLetterTurn true log) in
      (Ok turn,
       if continueMonitoring turn
       then emit (EvReq (SqsReceiveMessage DeadLetterQueueUrl 20 10 ["cloudify"])) w
       else w)
  end.

(** The messages a log reports as dead letters. *)
Definition dead_letters (log : list DeadLetterLog) : list Message :=
  flat_map (fun l => match l with LogDeadLetter m => [m] | _ => [] end) log.

(** A provider on which [setTopicAttributes] never succeeds and no
    function of the name exists. *)
Definition sample_env_no_feedback : Env :=
  fun _ r =>
    match r with
    | LambdaGetFunction _ => Failed (new_Error "ResourceNotFoundException")
    | SnsSetTopicAttributes _ _ _ => Failed (new_Error "InvalidParameter")
    | _ => Fulfilled sample_data
    end.

(** ** Vocabulary of the interleaved runs *)

(** What is known of the world when the task [t], resumed in the world
    [w], has settled, whatever the closure does in between: wherever the
    task awaits, the closure may have added events to the trace, and it
    changes nothing else. *)
Fixpoint wp {A} (env : Env) (t : Async.Task A) (Q : Res A -> World -> Prop)
    (w : World) : Prop :=
  match t with
  | Async.Done r => Q r w
  | Async.Issue r k => wp env (k (env (trace w) r)) Q (emit (EvReq r) w)
  | Async.Get k => wp env (k w) Q w
  | Async.Modify f k => wp env k Q (f w)
  | Async.Yield k => forall l, wp env k Q (add_trace l w)
  | Async.Fork _ k => forall l, wp env k Q (add_trace l w)
  | Async.Join k => forall l r, wp env (k r) Q (add_trace l w)
  end.

(** Properties that more events in the trace do not undo. *)
Definition stable {A} (Q : Res A -> World -> Prop) : Prop :=
  forall r w l, Q r w -> Q r (add_trace l w).

Definition grows (I : World -> Prop) : Prop :=
  forall w l, I w -> I (add_trace l w).

(** [Q] will hold when the main flow of the configuration has settled. *)
Definition awaits {A} (env : Env) (Q : Res A -> World -> Prop)
    (c : Async.Config A) : Prop :=
  forall l, wp env (Async.main c) Q (add_trace l (Async.world c)).

(** Every change that the task makes to the world keeps [I]. *)
Fixpoint maintains {A} (I : World -> Prop) (t : Async.Task A) : Prop :=
  match t with
  | Async.Done _ => True
  | Async.Issue _ k => forall o, maintains I (k o)
  | Async.Get k => forall w, maintains I (k w)
  | Async.Modify f k => (forall w, I w -> I (f w)) /\ maintains I k
  | Async.Yield k => maintains I k
  | Async.Fork _ k => maintains I k
  | Async.Join k => forall r, maintains I (k r)
  end.

(** The task awaits no closure: it can be resumed whenever it waits. *)
Fixpoint joinless {A} (t : Async.Task A) : Prop :=
  match t with
  | Async.Done _ => True
  | Async.Issue _ k => forall o, joinless (k o)
  | Async.Get k => forall w, joinless (k w)
  | Async.Modify _ k => joinless k
  | Async.Yield k => joinless k
  | Async.Fork _ k => joinless k
  | Async.Join _ => False
  end.

(** The task returns, and by then it has sent each of the requests
    [reqs]; it changes nothing but the trace. *)
Definition asks (env : Env) (t : Async.Task unit) (reqs : list Request) : Prop :=
  forall w (Q : Res unit -> World -> Prop),
    (forall l, (forall req, req ∈ reqs -> EvReq req ∈ l) -> Q (Ok tt) (add_trace l w)) ->
    wp env t Q w.

(** What the [try] block of [initialize] keeps: the manifest fields set
    first, no collector handle, and the trace it started from. *)
Definition trying (s : Settings) (tr0 : list Event) (w : World) : Prop :=
  base_of s w /\ resultCollectorPromise w = None /\
  exists l, trace w = tr0 ++ l.

(** The main flow only: [n] turns of it. *)
Definition main_only (n : nat) : list Async.Turn := replicate n Async.resume_main.

(** A provider that has no feedback role and refuses to create one, and
    that has no function of the name. *)
Definition sample_env_no_sns_role : Env :=
  fun _ r =>
    match r with
    | LambdaGetFunction _ => Failed (new_Error "ResourceNotFoundException")
    | IamGetRole "cloudify-cached-SNSFeedbackRole" =>
        Failed (new_Error "NoSuchEntity")
    | IamCreateRole "cloudify-cached-SNSFeedbackRole" _ _ _ =>
        Failed (new_Error "AccessDenied")
    | _ => Fulfilled sample_data
    end.

Definition is_create_function (ev : Event) : bool :=
  match ev with
  | EvReq (LambdaCreateFunction _) => true
  | _ => false
  end.

(* ================================================================== *)
(** * Part VI: properties                                              *)
(* ================================================================== *)

(** Propositional goals that do not mention the host's JSON functions
    are solved without them. *)
Ltac prop_solver :=
  try clear JSON_parse; try clear JSON_stringify_resources;
  try clear JSON_parse_resources; naive_solver.

(** ** The monad *)

Lemma add_trace_nil w : add_trace [] w = w.
Proof. destruct w; unfold add_trace; simpl. by rewrite app_nil_r. Qed.

Lemma add_trace_app l1 l2 w : add_trace l2 (add_trace l1 w) = add_trace (l1 ++ l2) w.
Proof. unfold add_trace; simpl. by rewrite app_assoc. Qed.

Lemma trace_add_trace l w : trace (add_trace l w) = trace w ++ l.
Proof. reflexivity. Qed.

Lemma send_run env w r :
  send r env w = (Ok (env (trace w) r), add_trace [EvReq r] w).
Proof. reflexivity. Qed.

Lemma quietly_run env w r :
  quietly r env w =
  (Ok (match env (trace w) r with Fulfilled d => Some d | Failed _ => None end),
   add_trace [EvReq r] w).
Proof. unfold quietly, bind. rewrite send_run. by destruct (env _ _). Qed.

Lemma carefully_run env w r :
  carefully r env w =
  (Ok (match env (trace w) r with Fulfilled d => Some d | Failed _ => None end),
   add_trace [EvReq r] w).
Proof. unfold carefully, bind. rewrite send_run. by destruct (env _ _). Qed.

Lemma promise_run env w r :
  promise r env w =
  (match env (trace w) r with Fulfilled d => Ok d | Failed e => Thrown e end,
   add_trace [EvReq r] w).
Proof. unfold promise, bind. rewrite send_run. by destruct (env _ _). Qed.

Lemma promise_then_ret env w r :
  (promise r;; ret tt) env w =
  (match env (trace w) r with Fulfilled _ => Ok tt | Failed e => Thrown e end,
   add_trace [EvReq r] w).
Proof. unfold bind at 1. rewrite promise_run. by destruct (env _ _). Qed.

Lemma sleep_run env w ms : sleep ms env w = (Ok tt, add_trace [EvSleep ms] w).
Proof. reflexivity. Qed.

(** ** Polling *)

Lemma failed_attempts_S fn k :
  failed_attempts fn (S k) = [EvReq (fn tt); EvSleep 1000] ++ failed_attempts fn k.
Proof. reflexivity. Qed.

Lemma pollAWSRequest_loop_S env fn n w :
  pollAWSRequest_loop (S n) fn env w =
  match env (trace w) (fn tt) with
  | Fulfilled d => (Ok (Some d), add_trace [EvReq (fn tt)] w)
  | Failed _ =>
      pollAWSRequest_loop n fn env (add_trace [EvReq (fn tt); EvSleep 1000] w)
  end.
Proof.
  simpl. unfold bind at 1. rewrite quietly_run.
  destruct (env (trace w) (fn tt)); [done|].
  unfold bind. by rewrite sleep_run, add_trace_app.
Qed.

Lemma pollAWSRequest_loop_run env fn n : forall w,
  exists k, k <= n /\
    (forall j, j < k ->
       exists e, env (trace w ++ failed_attempts fn j) (fn tt) = Failed e) /\
    ((exists d, k < n /\
        env (trace w ++ failed_attempts fn k) (fn tt) = Fulfilled d /\
        pollAWSRequest_loop n fn env w =
        (Ok (Some d), add_trace (failed_attempts fn k ++ [EvReq (fn tt)]) w)) \/
     (k = n /\
        pollAWSRequest_loop n fn env w =
        (Thrown (new_Error "Polling failed for ${description}"),
         add_trace (failed_attempts fn n) w))).
Proof.
  induction n as [|n IH]; intros w.
  - exists 0. split; [lia|]. split; [intros j Hj; lia|].
    right. split; [done|]. simpl. unfold throw. by rewrite add_trace_nil.
  - rewrite pollAWSRequest_loop_S.
    destruct (env (trace w) (fn tt)) as [d|e] eqn:Hreq.
    + exists 0. split; [lia|]. split; [intros j Hj; lia|].
      left. exists d. split; [lia|]. split; [|done].
      simpl. by rewrite app_nil_r.
    + destruct (IH (add_trace [EvReq (fn tt); EvSleep 1000] w))
        as (k & Hk & Hfail & Hend).
      exists (S k). split; [lia|]. split.
      * intros [|j] Hj.
        -- exists e. simpl. by rewrite app_nil_r.
        -- destruct (Hfail j ltac:(lia)) as [e' He']. exists e'.
           rewrite trace_add_trace in He'.
           by rewrite failed_attempts_S, app_assoc.
      * destruct Hend as [(d & Hlt & Hd & Hrun)|[-> Hrun]].
        -- left. exists d. split; [lia|]. split.
           ++ rewrite trace_add_trace in Hd.
              by rewrite failed_attempts_S, app_assoc.
           ++ rewrite Hrun, add_trace_app, failed_attempts_S.
              by rewrite <- !app_assoc.
        -- right. split; [done|].
           by rewrite Hrun, add_trace_app, failed_attempts_S.
Qed.

Lemma pollAWSRequest_run env n description fn w :
  exists k, k <= n /\
    (forall j, j < k ->
       exists e,
         env (trace w ++ EvSleep 2000 :: failed_attempts fn j) (fn tt) = Failed e) /\
    ((exists d, k < n /\
        env (trace w ++ EvSleep 2000 :: failed_attempts fn k) (fn tt) = Fulfilled d /\
        pollAWSRequest n description fn env w =
        (Ok (Some d),
         add_trace (EvSleep 2000 :: failed_attempts fn k ++ [EvReq (fn tt)]) w)) \/
     (k = n /\
        pollAWSRequest n description fn env w =
        (Thrown (new_Error "Polling failed for ${description}"),
         add_trace (EvSleep 2000 :: failed_attempts fn n) w))).
Proof.
  unfold pollAWSRequest, bind. rewrite sleep_run.
  destruct (pollAWSRequest_loop_run env fn n (add_trace [EvSleep 2000] w))
    as (k & Hk & Hfail & Hend).
  exists k. split; [done|]. split.
  - intros j Hj. destruct (Hfail j Hj) as [e He]. exists e.
    rewrite trace_add_trace, <- app_assoc in He. exact He.
  - destruct Hend as [(d & Hlt & Hd & Hrun)|[-> Hrun]].
    + left. exists d. split; [done|]. split.
      * rewrite trace_add_trace, <- app_assoc in Hd. exact Hd.
      * by rewrite Hrun, add_trace_app.
    + right. split; [done|]. by rewrite Hrun, add_trace_app.
Qed.

(** What [pollAWSRequest] returns passed [if (result)]. *)
Lemma pollAWSRequest_truthy env n description fn w :
  fst (pollAWSRequest n description fn env w) <> Ok None.
Proof.
  destruct (pollAWSRequest_run env n description fn w)
    as (k & _ & _ & [(d & _ & _ & ->)|[_ ->]]); simpl; congruence.
Qed.

(** ** Teardown *)

Lemma bind_ok {A B} (m : M A) (k : A -> M B) env w a w' :
  m env w = (Ok a, w') -> bind m k env w = k a env w'.
Proof. unfold bind. by intros ->. Qed.

Lemma bind_thrown {A B} (m : M A) (k : A -> M B) env w e w' :
  m env w = (Thrown e, w') -> bind m k env w = (Thrown e, w').
Proof. unfold bind. by intros ->. Qed.

Lemma when_set_quietly x (f : string -> Request) env w :
  when_set x (fun v => quietly (f v);; ret tt) env w =
  (Ok tt, add_trace (opt_req x f) w).
Proof.
  unfold when_set, opt_req. destruct x as [v|]; [|by rewrite add_trace_nil].
  destruct (truthy (Some v)); [|by rewrite add_trace_nil].
  erewrite bind_ok by apply quietly_run. reflexivity.
Qed.

Lemma when_set_carefully x (f : string -> Request) env w :
  when_set x (fun v => carefully (f v);; ret tt) env w =
  (Ok tt, add_trace (opt_req x f) w).
Proof.
  unfold when_set, opt_req. destruct x as [v|]; [|by rewrite add_trace_nil].
  destruct (truthy (Some v)); [|by rewrite add_trace_nil].
  erewrite bind_ok by apply carefully_run. reflexivity.
Qed.

Lemma for_each_carefully {A} (f : A -> Request) env (l : list A) : forall w,
  for_each l (fun x => carefully (f x);; ret tt) env w =
  (Ok tt, add_trace (map (fun x => EvReq (f x)) l) w).
Proof.
  induction l as [|x l IH]; intros w; simpl.
  - unfold ret. by rewrite add_trace_nil.
  - erewrite bind_ok; [|erewrite bind_ok by apply carefully_run; reflexivity].
    by rewrite IH, add_trace_app.
Qed.

Lemma deleteRole_run name env w :
  exists detached inline,
    deleteRole name env w = (Ok tt, add_trace (role_deletion name detached inline) w).
Proof.
  unfold deleteRole.
  erewrite bind_ok by apply carefully_run.
  match goal with |- context [for_each ?l _] => set (detached := l) end.
  erewrite bind_ok by apply (for_each_carefully (IamDetachRolePolicy name)).
  erewrite bind_ok by apply carefully_run.
  match goal with |- context [for_each ?l (fun PolicyName => _)] => set (inline := l) end.
  erewrite bind_ok by apply (for_each_carefully (IamDeleteRolePolicy name)).
  erewrite bind_ok by apply carefully_run.
  exists detached, inline. unfold ret, role_deletion.
  rewrite !add_trace_app. reflexivity.
Qed.

Lemma when_set_deleteRole r x env w :
  exists seg, role_segment r x seg /\
    when_set x
      (fun name =>
         if bool_decide (rolePolicy r = Some createTemporaryRole)
         then deleteRole name else ret tt) env w =
    (Ok tt, add_trace seg w).
Proof.
  unfold when_set, role_segment. destruct x as [name|].
  - destruct (truthy (Some name)); simpl.
    + case_bool_decide.
      * destruct (deleteRole_run name env w) as (detached & inline & ->). eauto.
      * exists []. by rewrite add_trace_nil.
    + exists []. by rewrite add_trace_nil.
  - exists []. by rewrite add_trace_nil.
Qed.

(** The stop messages are sent when [cancelWithoutCleanup] is called; the
    promise it returns waits for the collector, if one is awaited. *)
Lemma cancelWithoutCleanup_run env w :
  cancelWithoutCleanup env w =
  (Ok (match awaited_collector w with
       | Some handle => promise (AwaitResultCollector handle);; ret tt
       | None => ret tt
       end),
   add_trace
     (match awaited_collector w with
      | Some _ => opt_req (ResponseQueueUrl (resources w)) stop_message
      | None => []
      end
      ++ opt_req (DeadLetterQueueUrl (resources w)) stop_message) w).
Proof.
  unfold cancelWithoutCleanup, awaited_collector.
  erewrite bind_ok by reflexivity.
  destruct (ResponseQueueUrl (resources w)) as [url|] eqn:Hurl.
  - destruct (resultCollectorPromise w) as [h|] eqn:Hh.
    + destruct (truthy (Some url)) eqn:Htruthy.
      * erewrite bind_ok;
          [|erewrite bind_ok by apply carefully_run; reflexivity].
        erewrite bind_ok by apply (when_set_carefully _ stop_message).
        unfold ret, opt_req. rewrite Htruthy, add_trace_app. reflexivity.
      * erewrite bind_ok by reflexivity.
        erewrite bind_ok by apply (when_set_carefully _ stop_message).
        reflexivity.
    + erewrite bind_ok by reflexivity.
      erewrite bind_ok by apply (when_set_carefully _ stop_message).
      by destruct (truthy (Some url)).
  - erewrite bind_ok by reflexivity.
    erewrite bind_ok by apply (when_set_carefully _ stop_message).
    reflexivity.
Qed.

Lemma resources_add_trace l w : resources (add_trace l w) = resources w.
Proof. reflexivity. Qed.

Lemma awaited_collector_add_trace l w :
  awaited_collector (add_trace l w) = awaited_collector w.
Proof. reflexivity. Qed.

(** What [cleanup] does, for every environment and every state. *)
Lemma cleanup_run env w :
  exists roles feedback,
    role_segment (resources w) (RoleName (resources w)) roles /\
    role_segment (resources w) (SNSFeedbackRole (resources w)) feedback /\
    match awaited_collector w with
    | None =>
        cleanup env w =
        (Ok tt,
         add_trace (cleanup_head w roles feedback ++ cleanup_tail (resources w)) w)
    | Some handle =>
        match env (trace w ++ cleanup_head w roles feedback)
                (AwaitResultCollector handle) with
        | Fulfilled _ =>
            cleanup env w =
            (Ok tt,
             add_trace (cleanup_head w roles feedback
                        ++ EvReq (AwaitResultCollector handle)
                        :: cleanup_tail (resources w)) w)
        | Failed e =>
            cleanup env w =
            (Thrown e,
             add_trace (cleanup_head w roles feedback
                        ++ [EvReq (AwaitResultCollector handle)]) w)
        end
    end.
Proof.
  unfold cleanup.
  erewrite bind_ok by reflexivity.
  erewrite bind_ok by apply (when_set_quietly _ SnsUnsubscribe).
  erewrite bind_ok by apply cancelWithoutCleanup_run.
  erewrite bind_ok by apply (when_set_quietly _ LambdaDeleteFunction).
  erewrite bind_ok by apply (when_set_quietly _ LogsDeleteLogGroup).
  rewrite !awaited_collector_add_trace, !resources_add_trace, !add_trace_app.
  match goal with |- context [bind _ _ env (add_trace ?l w)] => set (pre := l) end.
  destruct (when_set_deleteRole (resources w) (RoleName (resources w)) env
              (add_trace pre w)) as (roles & Hroles & Hrun1).
  erewrite bind_ok by exact Hrun1. rewrite add_trace_app.
  destruct (when_set_deleteRole (resources w) (SNSFeedbackRole (resources w)) env
              (add_trace (pre ++ roles) w)) as (feedback & Hfeedback & Hrun2).
  erewrite bind_ok by exact Hrun2. rewrite add_trace_app.
  exists roles, feedback. split; [done|]. split; [done|].
  assert (Hhead : (pre ++ roles) ++ feedback = cleanup_head w roles feedback).
  { unfold cleanup_head, pre. by rewrite <- !app_assoc. }
  rewrite Hhead. clear Hrun1 Hrun2 Hhead. clearbody pre.
  destruct (awaited_collector w) as [handle|].
  - pose proof (promise_then_ret env (add_trace (cleanup_head w roles feedback) w)
                  (AwaitResultCollector handle)) as Hawait.
    rewrite trace_add_trace, add_trace_app in Hawait.
    destruct (env _ _) as [d|e].
    + erewrite bind_ok by exact Hawait.
      erewrite bind_ok by apply (when_set_quietly _ SnsDeleteTopic).
      erewrite bind_ok by apply (when_set_quietly _ SqsDeleteQueue).
      rewrite when_set_quietly. rewrite !add_trace_app.
      unfold cleanup_tail. by rewrite <- ?app_assoc.
    + by erewrite bind_thrown by exact Hawait.
  - erewrite bind_ok by reflexivity.
    erewrite bind_ok by apply (when_set_quietly _ SnsDeleteTopic).
    erewrite bind_ok by apply (when_set_quietly _ SqsDeleteQueue).
    rewrite when_set_quietly. rewrite !add_trace_app.
    unfold cleanup_tail. by rewrite <- ?app_assoc.
Qed.

(** ** What a teardown deletes *)

Lemma opt_req_recorded x f : opt_req x f = map EvReq (recorded x f).
Proof. unfold opt_req, recorded. destruct x; [|done]. by destruct (truthy _). Qed.

Lemma elem_of_opt_req x f req :
  EvReq req ∈ opt_req x f <-> req ∈ recorded x f.
Proof.
  rewrite opt_req_recorded, list_elem_of_fmap. split.
  - intros (y & [= ->] & Hy). done.
  - intros H. eauto.
Qed.

Lemma recorded_stop_message x req :
  req ∈ recorded x stop_message -> resource_deletion req = false.
Proof.
  unfold recorded. destruct x; [|by intros ?%elem_of_nil].
  destruct (truthy _); [|by intros ?%elem_of_nil].
  by intros ->%list_elem_of_singleton.
Qed.

Lemma role_deletion_deletes name detached inline req :
  EvReq req ∈ role_deletion name detached inline ->
  resource_deletion req = true -> req = IamDeleteRole name.
Proof.
  unfold role_deletion.
  rewrite elem_of_cons, elem_of_app, list_elem_of_fmap, elem_of_cons, elem_of_app,
    list_elem_of_fmap, list_elem_of_singleton.
  intros [[= ->]|[(p & [= ->] & _)|[[= ->]|[(p & [= ->] & _)|[= ->]]]]]; by simpl.
Qed.

Lemma role_segment_deletes r x seg req :
  role_segment r x seg -> EvReq req ∈ seg -> resource_deletion req = true ->
  rolePolicy r = Some createTemporaryRole /\ req ∈ recorded x IamDeleteRole.
Proof.
  unfold role_segment, recorded. destruct x as [name|].
  - destruct (truthy (Some name)); simpl.
    + case_bool_decide.
      * intros (detached & inline & ->) Hin Hdel.
        apply role_deletion_deletes in Hin as ->; [|done].
        split; [done|]. by apply list_elem_of_singleton.
      * by intros -> ?%elem_of_nil.
    + by intros -> ?%elem_of_nil.
  - by intros -> ?%elem_of_nil.
Qed.

Lemma role_segment_complete r x seg req :
  role_segment r x seg -> rolePolicy r = Some createTemporaryRole ->
  req ∈ recorded x IamDeleteRole -> EvReq req ∈ seg.
Proof.
  unfold role_segment, recorded. destruct x as [name|]; [|by intros _ _ ?%elem_of_nil].
  destruct (truthy (Some name)); simpl; [|by intros _ _ ?%elem_of_nil].
  intros Hseg Htemp ->%list_elem_of_singleton.
  rewrite bool_decide_eq_true_2 in Hseg by done.
  destruct Hseg as (detached & inline & ->). unfold role_deletion.
  rewrite elem_of_cons, elem_of_app, elem_of_cons, elem_of_app, list_elem_of_singleton.
  prop_solver.
Qed.

(** Every deletion among the requests of [cleanup] is one the manifest
    calls for. *)
Lemma cleanup_events_recorded w roles feedback req :
  role_segment (resources w) (RoleName (resources w)) roles ->
  role_segment (resources w) (SNSFeedbackRole (resources w)) feedback ->
  resource_deletion req = true ->
  EvReq req ∈ cleanup_head w roles feedback ++ cleanup_tail (resources w) ->
  req ∈ recorded_deletions (resources w).
Proof.
  intros Hroles Hfeedback Hdel. unfold cleanup_head, cleanup_tail, recorded_deletions.
  rewrite !elem_of_app, !elem_of_opt_req.
  intros [[H|[H|[H|[H|[H|[H|H]]]]]]|[H|[H|H]]]; try prop_solver.
  - destruct (awaited_collector w); [|by apply elem_of_nil in H].
    apply elem_of_opt_req, recorded_stop_message in H. congruence.
  - apply recorded_stop_message in H. congruence.
  - destruct (role_segment_deletes _ _ _ _ Hroles H Hdel) as [Htemp Hin].
    rewrite bool_decide_eq_true_2 by done. rewrite elem_of_app. prop_solver.
  - destruct (role_segment_deletes _ _ _ _ Hfeedback H Hdel) as [Htemp Hin].
    rewrite bool_decide_eq_true_2 by done. rewrite elem_of_app. prop_solver.
Qed.

(** Every deletion the manifest calls for is among the requests of a
    [cleanup] that runs to its end. *)
Lemma cleanup_events_complete w roles feedback req :
  role_segment (resources w) (RoleName (resources w)) roles ->
  role_segment (resources w) (SNSFeedbackRole (resources w)) feedback ->
  req ∈ recorded_deletions (resources w) ->
  EvReq req ∈ cleanup_head w roles feedback ++ cleanup_tail (resources w).
Proof.
  intros Hroles Hfeedback. unfold cleanup_head, cleanup_tail, recorded_deletions.
  rewrite !elem_of_app, !elem_of_opt_req.
  intros [H|[H|[H|[H|[H|[H|H]]]]]]; try prop_solver.
  case_bool_decide as Htemp; [|by apply elem_of_nil in H].
  apply elem_of_app in H as [H|H].
  - pose proof (role_segment_complete _ _ _ _ Hroles Htemp H). prop_solver.
  - pose proof (role_segment_complete _ _ _ _ Hfeedback Htemp H). prop_solver.
Qed.

(** Without a collector to await, [cleanup] cannot fail, and it asks for
    every deletion the manifest calls for. *)
Lemma cleanup_quiet_run env w :
  resultCollectorPromise w = None ->
  exists l,
    cleanup env w = (Ok tt, add_trace l w) /\
    forall req, req ∈ recorded_deletions (resources w) -> EvReq req ∈ l.
Proof.
  intros Hnone.
  destruct (cleanup_run env w) as (roles & feedback & Hroles & Hfeedback & Hrun).
  assert (Hac : awaited_collector w = None).
  { unfold awaited_collector. rewrite Hnone. by destruct (truthy _). }
  rewrite Hac in Hrun. eexists. split; [exact Hrun|].
  intros req Hreq. by apply cleanup_events_complete.
Qed.

(** ** Provisioning leaves the dispatch state alone *)

Lemma keeps_ret {A} (a : A) : keeps (ret a).
Proof. by intros env w. Qed.

Lemma keeps_throw {A} e : keeps (@throw A e).
Proof. by intros env w. Qed.

Lemma keeps_bind {A B} (m : M A) (k : A -> M B) :
  keeps m -> (forall a, keeps (k a)) -> keeps (bind m k).
Proof.
  intros Hm Hk env w Hq. unfold bind. specialize (Hm env w Hq).
  destruct (m env w) as [[a|e] w']; simpl in *; [by apply Hk|done].
Qed.

Lemma keeps_modify f : (forall w, quiet w -> quiet (f w)) -> keeps (modify f).
Proof. intros Hf env w Hq. by apply Hf. Qed.

Lemma keeps_get_world : keeps get_world.
Proof. by intros env w. Qed.

Lemma keeps_send r : keeps (send r).
Proof. by intros env w. Qed.

Lemma keeps_promise r : keeps (promise r).
Proof.
  apply keeps_bind; [apply keeps_send|].
  intros [d|e]; [apply keeps_ret|apply keeps_throw].
Qed.

Lemma keeps_quietly r : keeps (quietly r).
Proof. apply keeps_bind; [apply keeps_send|]. intros [d|e]; apply keeps_ret. Qed.

Lemma keeps_sleep ms : keeps (sleep ms).
Proof. by apply keeps_modify. Qed.

Lemma keeps_assign f : keeps (assign f).
Proof. by apply keeps_modify. Qed.

Lemma keeps_start {A} (m : M A) : keeps m -> keeps (start m).
Proof.
  intros Hm env w Hq. unfold start. specialize (Hm env w Hq).
  by destruct (m env w).
Qed.

Lemma keeps_await {A} (p : Res A) : keeps (await p).
Proof. destruct p; [apply keeps_ret|apply keeps_throw]. Qed.

Lemma keeps_startResultCollectorIfNeeded : keeps (modify startResultCollectorIfNeeded).
Proof.
  apply keeps_modify. intros w [Hmap Hhandle].
  unfold startResultCollectorIfNeeded. by rewrite Hmap.
Qed.

Lemma keeps_Role_of d : keeps (Role_of d).
Proof. unfold Role_of. destruct (Role d); [apply keeps_ret|apply keeps_throw]. Qed.

Create HintDb keeps.
#[local] Hint Resolve keeps_ret keeps_throw keeps_get_world keeps_send
  keeps_promise keeps_quietly keeps_sleep keeps_assign keeps_await
  keeps_Role_of keeps_startResultCollectorIfNeeded : keeps.

Ltac keeps_tac :=
  repeat first
    [ apply keeps_bind; [|intros ?]
    | apply keeps_start
    | solve [auto with keeps nocore]
    | match goal with
      | |- keeps (match ?x with _ => _ end) => destruct x
      end ].

Lemma keeps_pollAWSRequest n description fn : keeps (pollAWSRequest n description fn).
Proof.
  unfold pollAWSRequest. apply keeps_bind; [apply keeps_sleep|]. intros _.
  induction n as [|n IH]; simpl; keeps_tac.
Qed.
#[local] Hint Resolve keeps_pollAWSRequest : keeps.

Lemma keeps_createQueue name t dl : keeps (createQueue name t dl).
Proof. unfold createQueue. keeps_tac. Qed.
#[local] Hint Resolve keeps_createQueue : keeps.

Lemma keeps_createFunction fModule fname role policy t m uq rest opts dlq :
  keeps (createFunction fModule fname role policy t m uq rest opts dlq).
Proof.
  unfold createFunction, createLambdaRole, addNoCreateLogPolicyToRole.
  keeps_tac.
Qed.
#[local] Hint Resolve keeps_createFunction : keeps.

Lemma keeps_initialize_try fModule s : keeps (initialize_try fModule s).
Proof.
  unfold initialize_try, createLogGroup, createDLQ, deadLetterQueueCollector,
    createSNSFeedbackRole, createSNSNotifier, addSnsInvokePermissionsToFunction.
  keeps_tac.
Qed.

(** ** The pending-call map *)

Lemma Map_get_replace m k v k' :
  Map_get (Map_replace m k v) k' =
  if String.eqb k k' then (if Map_has m k then Some v else None) else Map_get m k'.
Proof.
  induction m as [|[k0 v0] m IH]; simpl.
  - by destruct (String.eqb k k').
  - destruct (String.eqb k0 k) eqn:H0; simpl.
    + apply String.eqb_eq in H0 as ->. by destruct (String.eqb k k').
    + rewrite IH. destruct (String.eqb k k') eqn:Hk; [|done].
      apply String.eqb_eq in Hk as <-. by rewrite H0.
Qed.

Lemma Map_get_app m k v k' :
  Map_get (m ++ [(k, v)]) k' =
  match Map_get m k' with
  | Some v' => Some v'
  | None => if String.eqb k k' then Some v else None
  end.
Proof.
  induction m as [|[k0 v0] m IH]; simpl; [done|].
  by destruct (String.eqb k0 k').
Qed.

Lemma Map_has_get m k : Map_has m k = false -> Map_get m k = None.
Proof.
  induction m as [|[k0 v0] m IH]; simpl; [done|].
  destruct (String.eqb k0 k); [done|]. exact IH.
Qed.

Lemma Map_get_set m k v k' :
  Map_get (Map_set m k v) k' = if String.eqb k k' then Some v else Map_get m k'.
Proof.
  unfold Map_set. destruct (Map_has m k) eqn:Hhas.
  - rewrite Map_get_replace. by rewrite Hhas.
  - rewrite Map_get_app. destruct (String.eqb k k') eqn:Hk.
    + apply String.eqb_eq in Hk as <-. by rewrite Map_has_get.
    + by destruct (Map_get m k').
Qed.

Lemma Map_set_nonempty m k v : Map_set m k v <> [].
Proof.
  unfold Map_set. destruct (Map_has m k) eqn:Hhas.
  - destruct m as [|[k0 v0] m]; [done|]. simpl. by destruct (String.eqb k0 k).
  - by destruct m.
Qed.

Lemma Map_get_delete m k k' :
  Map_get (Map_delete m k) k' = if String.eqb k k' then None else Map_get m k'.
Proof.
  induction m as [|[k0 v0] m IH]; simpl.
  - by destruct (String.eqb k k').
  - destruct (String.eqb k0 k) eqn:H0; simpl.
    + apply String.eqb_eq in H0 as ->. rewrite IH. by destruct (String.eqb k k').
    + rewrite IH. destruct (String.eqb k k') eqn:Hk; [|done].
      apply String.eqb_eq in Hk as <-. by rewrite H0.
Qed.

Lemma Map_delete_absent m k : Map_get m k = None -> Map_delete m k = m.
Proof.
  induction m as [|[k0 v0] m IH]; simpl; [done|].
  destruct (String.eqb k0 k); [done|]. intros H. by rewrite IH.
Qed.

Lemma Map_size_nonempty (m : list (string * nat)) :
  (0 <? length m) = true <-> m <> [].
Proof. destruct m; simpl; split; try done. Qed.

Lemma Map_size_empty (m : list (string * nat)) :
  (0 <? length m) = false <-> m = [].
Proof. destruct m; simpl; split; try done. Qed.

(** ** Frames of the collector's helpers *)

Lemma frame_refl w : frame w w.
Proof. by unfold frame. Qed.

Lemma frame_trans w1 w2 w3 : frame w1 w2 -> frame w2 w3 -> frame w1 w3.
Proof. unfold frame. intros (?&?&?&?&?&?&?) (?&?&?&?&?&?&?). repeat split; congruence. Qed.

Lemma frame_emit ev w : frame w (emit ev w).
Proof. by unfold frame. Qed.

Lemma frame_settle d st w : frame w (settle d st w).
Proof. unfold settle. destruct (deferreds w !! d) as [[]|]; by unfold frame. Qed.

Lemma frame_resolvePromises results : forall w, frame w (resolvePromises results w).
Proof.
  induction results as [|[CallId message deferred] results IH]; intros w; simpl.
  - apply frame_refl.
  - set (w1 := if truthy CallId then w else emit (EvLog (LogNoCallId message)) w).
    assert (Hw1 : frame w w1) by (unfold w1; destruct (truthy CallId); by unfold frame).
    destruct (negb (truthy (Body message))).
    + eapply frame_trans; [exact Hw1|apply IH].
    + destruct (JSON_parse _).
      * destruct deferred.
        -- eapply frame_trans; [exact Hw1|]. eapply frame_trans; [|apply IH].
           apply frame_settle.
        -- eapply frame_trans; [exact Hw1|]. eapply frame_trans; [|apply IH].
           apply frame_emit.
      * eapply frame_trans; [exact Hw1|apply frame_emit].
Qed.

Lemma frame_fold_reject e (m : list (string * nat)) : forall w,
  frame w (fold_left
             (fun w kv => reject (snd kv) e (emit (EvLog (LogRejectingCall (fst kv))) w))
             m w).
Proof.
  induction m as [|kv m IH]; intros w; simpl; [apply frame_refl|].
  eapply frame_trans; [|apply IH].
  eapply frame_trans; [|apply frame_settle].
  apply frame_emit.
Qed.

Lemma frame_rejectAll w : frame w (rejectAll w).
Proof.
  unfold rejectAll. eapply frame_trans; [|apply frame_fold_reject]. apply frame_emit.
Qed.

(** What the loop over the received messages leaves unchanged: only the
    map shrinks, and a stop sentinel clears the handle. *)
Lemma collect_spec Messages : forall callResults w,
  match collect Messages callResults w with
  | Stop w' =>
      collectors w' = collectors w /\ timers w' = timers w /\
      spawned w' = spawned w /\ resultCollectorPromise w' = None
  | Batch _ w' | Caught _ w' =>
      collectors w' = collectors w /\ timers w' = timers w /\
      spawned w' = spawned w /\
      resultCollectorPromise w' = resultCollectorPromise w /\
      deferreds w' = deferreds w /\ trace w' = trace w
  end.
Proof.
  induction Messages as [|m Messages IH]; intros callResults w; simpl; [done|].
  destruct (isQueueStopMessage m).
  - destruct (frame_rejectAll w) as (?&?&?&?&?&?&?). by simpl.
  - destruct (CallId_of m) as [CallId|err]; [|done].
    match goal with |- context [collect Messages ?a ?b] =>
      specialize (IH a b); destruct (collect Messages a b) end; simpl in IH; done.
Qed.

Lemma collect_calm Messages : forall callResults w,
  forallb (fun m => negb (isQueueStopMessage m)) Messages = true ->
  match collect Messages callResults w with
  | Stop _ => False
  | _ => True
  end.
Proof.
  induction Messages as [|m Messages IH]; intros callResults w; simpl; [done|].
  intros [Hm Hrest]%andb_true_iff. apply negb_true_iff in Hm. rewrite Hm.
  destruct (CallId_of m); [|done]. by apply IH.
Qed.

(** ** The first turn of a call *)

Lemma enqueueCallRequest_run CallId w :
  enqueueCallRequest CallId w =
  (length (deferreds w),
   startResultCollectorIfNeeded
     (set_callResultPromises
        (Map_set (callResultPromises w) CallId (length (deferreds w)))
        (emit (EvLog (LogEnqueuing CallId (length (deferreds w))))
           (set_deferreds (deferreds w ++ [Pending]) w)))).
Proof. reflexivity. Qed.

Lemma startResultCollectorIfNeeded_run w :
  callResultPromises w <> [] ->
  startResultCollectorIfNeeded w =
  match resultCollectorPromise w with
  | Some _ => w
  | None =>
      set_resultCollectorPromise (Some (spawned w))
        (set_collectors (spawned w :: collectors w)
           (emit (EvReq (SqsReceiveMessage (ResponseQueueUrl (resources w)) 20 10 ["All"]))
              (emit (EvLog (LogPolling (length (callResultPromises w))
                              (ResponseQueueUrl (resources w))))
                 (set_spawned (S (spawned w)) w))))
  end.
Proof.
  intros Hmap. unfold startResultCollectorIfNeeded, resultCollector, resultCollector_loop.
  destruct (callResultPromises w) as [|kv m] eqn:Hm; [done|].
  destruct (resultCollectorPromise w) as [h|].
  - by rewrite bool_decide_eq_true_2 by eauto.
  - rewrite bool_decide_eq_false_2 by (by intros [? ?]). simpl. by rewrite Hm.
Qed.

(** ** At most one collector *)

Lemma resultCollector_loop_spec c w :
  (callResultPromises w <> [] /\
   collectors (resultCollector_loop c w) = c :: collectors w /\
   resultCollectorPromise (resultCollector_loop c w) = resultCollectorPromise w /\
   timers (resultCollector_loop c w) = timers w) \/
  (callResultPromises w = [] /\
   collectors (resultCollector_loop c w) = collectors w /\
   resultCollectorPromise (resultCollector_loop c w) = None /\
   timers (resultCollector_loop c w) = timers w ++ [TStartResultCollectorIfNeeded]) .
Proof.
  unfold resultCollector_loop. destruct (callResultPromises w) eqn:Hmap; simpl.
  - by right.
  - by left.
Qed.

Lemma resultCollector_loop_frame c w :
  callResultPromises (resultCollector_loop c w) = callResultPromises w /\
  deferreds (resultCollector_loop c w) = deferreds w /\
  spawned (resultCollector_loop c w) = spawned w.
Proof. unfold resultCollector_loop. by destruct (0 <? _). Qed.

Lemma startResultCollectorIfNeeded_spec w :
  (callResultPromises w <> [] /\ resultCollectorPromise w = None /\
   collectors (startResultCollectorIfNeeded w) = spawned w :: collectors w /\
   resultCollectorPromise (startResultCollectorIfNeeded w) = Some (spawned w)) \/
  ((callResultPromises w = [] \/ is_Some (resultCollectorPromise w)) /\
   startResultCollectorIfNeeded w = w).
Proof.
  unfold startResultCollectorIfNeeded.
  destruct (callResultPromises w) as [|kv m] eqn:Hmap; simpl; [right; eauto|].
  destruct (resultCollectorPromise w) as [h|] eqn:Hh.
  - rewrite bool_decide_eq_true_2 by eauto. simpl. right. eauto.
  - rewrite bool_decide_eq_false_2 by (by intros [? ?]). simpl. left.
    unfold resultCollector, resultCollector_loop. simpl. by rewrite Hmap.
Qed.

Lemma startResultCollectorIfNeeded_frame w :
  callResultPromises (startResultCollectorIfNeeded w) = callResultPromises w /\
  deferreds (startResultCollectorIfNeeded w) = deferreds w /\
  timers (startResultCollectorIfNeeded w) = timers w /\
  resources (startResultCollectorIfNeeded w) = resources w /\
  useQueue (startResultCollectorIfNeeded w) = useQueue w.
Proof.
  unfold startResultCollectorIfNeeded.
  destruct (callResultPromises w) as [|kv m] eqn:Hmap; simpl; [by rewrite Hmap|].
  destruct (negb _); [|by rewrite Hmap].
  unfold resultCollector, resultCollector_loop. simpl. by rewrite Hmap.
Qed.

Lemma collector_inv_ext w w' :
  collectors w' = collectors w ->
  resultCollectorPromise w' = resultCollectorPromise w ->
  (callResultPromises w <> [] -> callResultPromises w' <> []) ->
  collector_inv w -> collector_inv w'.
Proof.
  intros Hc Hh Hm [H|(c & H1 & H2 & H3)]; [left|right; exists c]; rewrite ?Hc, ?Hh; auto.
Qed.

Lemma collector_exact_ext w w' :
  collectors w' = collectors w ->
  resultCollectorPromise w' = resultCollectorPromise w ->
  callResultPromises w' = callResultPromises w ->
  collector_exact w -> collector_exact w'.
Proof.
  intros Hc Hh Hm [H|(c & H1 & H2 & H3)]; [left|right; exists c];
    rewrite ?Hc, ?Hh, ?Hm; auto.
Qed.

Lemma collector_exact_inv w : collector_exact w -> collector_inv w.
Proof. intros [(H & _)|H]; [by left|by right]. Qed.

Lemma collector_inv_start w :
  collector_inv w -> collector_inv (startResultCollectorIfNeeded w).
Proof.
  intros Hinv.
  destruct (startResultCollectorIfNeeded_spec w) as [(Hmap & Hnone & Hc & Hh)|[_ ->]];
    [|done].
  destruct (startResultCollectorIfNeeded_frame w) as (Hm & _).
  right. exists (spawned w). rewrite Hc, Hh, Hm.
  destruct Hinv as [->|(c & _ & Hsome & _)]; [done|congruence].
Qed.

(** Once calls are pending, [startResultCollectorIfNeeded] leaves exactly
    one collector. *)
Lemma collector_exact_start w :
  callResultPromises w <> [] ->
  (collectors w = [] /\ resultCollectorPromise w = None) \/
  (exists c, collectors w = [c] /\ resultCollectorPromise w = Some c) ->
  collector_exact (startResultCollectorIfNeeded w).
Proof.
  intros Hmap Hcases.
  destruct (startResultCollectorIfNeeded_frame w) as (Hm & _).
  destruct (startResultCollectorIfNeeded_spec w)
    as [(_ & Hnone & Hc & Hh)|[[Hempty|Hsome] Heq]]; [| done |].
  - right. exists (spawned w). rewrite Hc, Hh, Hm.
    destruct Hcases as [[-> _]|(c & _ & Hsome)]; [done|congruence].
  - rewrite Heq. right.
    destruct Hcases as [[_ Hnone]|(c & Hc & Hh)].
    + rewrite Hnone in Hsome. by destruct Hsome.
    + by exists c.
Qed.

Lemma collector_inv_call fn_name args CallId w :
  collector_inv w -> collector_inv (snd (responsifedFunc fn_name args CallId w)).
Proof.
  intros Hinv. unfold responsifedFunc.
  destruct (bool_decide _); simpl.
  - eapply collector_inv_ext; [reflexivity|reflexivity|done|].
    apply collector_inv_start.
    eapply collector_inv_ext; [| |intros _|exact Hinv]; [done|done|].
    apply Map_set_nonempty.
  - by eapply collector_inv_ext; [| | |exact Hinv].
Qed.

Lemma collector_exact_call fn_name args CallId w :
  collector_exact w -> collector_exact (snd (responsifedFunc fn_name args CallId w)).
Proof.
  intros Hex. unfold responsifedFunc.
  destruct (bool_decide _); simpl.
  - eapply collector_exact_ext; [reflexivity|reflexivity|reflexivity|].
    apply collector_exact_start; simpl.
    + apply Map_set_nonempty.
    + destruct Hex as [(Hc & Hh & _)|(c & Hc & Hh & _)]; [by left|right; by exists c].
  - by eapply collector_exact_ext; [| | |exact Hex].
Qed.

Lemma collector_inv_timer t ts w :
  timers w = t :: ts -> collector_inv w -> collector_inv (run_timer t (set_timers ts w)).
Proof.
  intros _ Hinv.
  assert (Hinv' : collector_inv (set_timers ts w))
    by (by eapply collector_inv_ext; [| | |exact Hinv]).
  destruct t as [results|]; simpl.
  - destruct (frame_resolvePromises results (set_timers ts w)) as (_&_&Hm&Hh&Hc&_).
    eapply collector_inv_ext; [exact Hc|exact Hh|by rewrite Hm|exact Hinv'].
  - by apply collector_inv_start.
Qed.

Lemma collector_exact_timer t ts w :
  timers w = t :: ts -> collector_exact w ->
  collector_exact (run_timer t (set_timers ts w)).
Proof.
  intros _ Hex.
  assert (Hex' : collector_exact (set_timers ts w))
    by (by eapply collector_exact_ext; [| | |exact Hex]).
  destruct t as [results|]; simpl.
  - destruct (frame_resolvePromises results (set_timers ts w)) as (_&_&Hm&Hh&Hc&_).
    eapply collector_exact_ext; [exact Hc|exact Hh|exact Hm|exact Hex'].
  - destruct (startResultCollectorIfNeeded_spec (set_timers ts w))
      as [(Hmap & Hnone & _)|[_ ->]]; [|done].
    destruct Hex' as [(_ & _ & Hempty)|(c & _ & Hsome & _)]; congruence.
Qed.

(** The collector [c], alone and resumed with whatever its poll
    returned. *)
Lemma collector_inv_receive c response w :
  In c (collectors w) -> collector_inv w ->
  collector_inv (resultCollector_resume c response w).
Proof.
  intros Hin [Hnil|(c' & Hc & Hh & Hm)]; [by rewrite Hnil in Hin|].
  rewrite Hc in Hin. destruct Hin as [->|[]].
  unfold resultCollector_resume.
  set (w0 := set_collectors _ w).
  assert (Hc0 : collectors w0 = []).
  { unfold w0. simpl. rewrite Hc. simpl. by rewrite Nat.eqb_refl. }
  destruct response as [Messages|err]; [|by left].
  set (w1 := deleteSQSMessages _ _ _).
  assert (Hw1 : collectors w1 = [] /\ resultCollectorPromise w1 = Some c).
  { unfold w1, deleteSQSMessages. destruct (0 <? _); by simpl. }
  destruct Hw1 as [Hc1 Hh1].
  pose proof (collect_spec (default [] Messages) [] w1) as Hcollect.
  destruct (collect (default [] Messages) [] w1) as [w2|callResults w2|err w2].
  - left. destruct Hcollect as (-> & _). done.
  - destruct Hcollect as (Hc2 & _ & _ & Hh2 & _).
    set (w3 := setTimeout _ w2).
    destruct (resultCollector_loop_spec c w3) as [(Hmap & Hcl & Hhl & _)|(_ & Hcl & _)].
    + destruct (resultCollector_loop_frame c w3) as (Hml & _).
      right. exists c. rewrite Hcl, Hhl, Hml. simpl. rewrite Hc2, Hc1, Hh2, Hh1. done.
    + left. rewrite Hcl. simpl. by rewrite Hc2.
  - destruct Hcollect as (Hc2 & _ & _ & Hh2 & _).
    set (w3 := emit _ w2).
    destruct (resultCollector_loop_spec c w3) as [(Hmap & Hcl & Hhl & _)|(_ & Hcl & _)].
    + destruct (resultCollector_loop_frame c w3) as (Hml & _).
      right. exists c. rewrite Hcl, Hhl, Hml. simpl. rewrite Hc2, Hc1, Hh2, Hh1. done.
    + left. rewrite Hcl. simpl. by rewrite Hc2.
Qed.

Lemma collector_exact_receive c Messages w :
  In c (collectors w) ->
  forallb (fun m => negb (isQueueStopMessage m)) (default [] Messages) = true ->
  collector_exact w ->
  collector_exact (resultCollector_resume c (Ok Messages) w).
Proof.
  intros Hin Hcalm [(Hnil & _)|(c' & Hc & Hh & Hm)]; [by rewrite Hnil in Hin|].
  rewrite Hc in Hin. destruct Hin as [->|[]].
  unfold resultCollector_resume.
  set (w0 := set_collectors _ w).
  set (w1 := deleteSQSMessages _ _ _).
  assert (Hw1 : collectors w1 = [] /\ resultCollectorPromise w1 = Some c).
  { unfold w1, deleteSQSMessages, w0. destruct (0 <? _); simpl; rewrite Hc; simpl;
      by rewrite Nat.eqb_refl. }
  destruct Hw1 as [Hc1 Hh1].
  pose proof (collect_spec (default [] Messages) [] w1) as Hcollect.
  pose proof (collect_calm (default [] Messages) [] w1 Hcalm) as Hnostop.
  destruct (collect (default [] Messages) [] w1) as [w2|callResults w2|err w2];
    [done| |].
  - destruct Hcollect as (Hc2 & _ & _ & Hh2 & _).
    set (w3 := setTimeout _ w2).
    destruct (resultCollector_loop_frame c w3) as (Hml & _).
    destruct (resultCollector_loop_spec c w3)
      as [(Hmap & Hcl & Hhl & _)|(Hmap & Hcl & Hhl & _)].
    + right. exists c. rewrite Hcl, Hhl, Hml. simpl. rewrite Hc2, Hc1, Hh2, Hh1. done.
    + left. rewrite Hcl, Hhl, Hml. simpl. by rewrite Hc2.
  - destruct Hcollect as (Hc2 & _ & _ & Hh2 & _).
    set (w3 := emit _ w2).
    destruct (resultCollector_loop_frame c w3) as (Hml & _).
    destruct (resultCollector_loop_spec c w3)
      as [(Hmap & Hcl & Hhl & _)|(Hmap & Hcl & Hhl & _)].
    + right. exists c. rewrite Hcl, Hhl, Hml. simpl. rewrite Hc2, Hc1, Hh2, Hh1. done.
    + left. rewrite Hcl, Hhl, Hml. simpl. by rewrite Hc2.
Qed.

Lemma reachable_collector_inv w : reachable w -> collector_inv w.
Proof.
  induction 1 as [w (_ & _ & _ & Hc & _)|w w' _ IH Hstep]; [by left|].
  destruct Hstep.
  - by apply collector_inv_call.
  - by apply collector_inv_receive.
  - by eapply collector_inv_timer.
Qed.

Lemma calm_reachable_collector_exact w : calm_reachable w -> collector_exact w.
Proof.
  induction 1 as [w (Hm & Hh & _ & Hc & _)|w w' _ IH Hstep]; [by left|].
  destruct Hstep.
  - by apply collector_exact_call.
  - by apply collector_exact_receive.
  - by eapply collector_exact_timer.
Qed.

(** ** Correlation *)

Lemma enqueuings_app l1 l2 : enqueuings (l1 ++ l2) = enqueuings l1 ++ enqueuings l2.
Proof.
  induction l1 as [|ev l1 IH]; simpl; [done|].
  destruct ev as [| [] | | |]; simpl; by rewrite ?IH.
Qed.

Lemma same_calls_refl w : same_calls w w.
Proof. by unfold same_calls. Qed.

Lemma same_calls_trans w1 w2 w3 :
  same_calls w1 w2 -> same_calls w2 w3 -> same_calls w1 w3.
Proof. unfold same_calls. intros [? ?] [? ?]. split; congruence. Qed.

Lemma same_calls_emit ev w :
  enqueuings [ev] = [] -> same_calls w (emit ev w).
Proof.
  intros Hev. unfold same_calls. simpl. rewrite enqueuings_app, Hev.
  by rewrite app_nil_r.
Qed.

Lemma same_calls_settle d st w : same_calls w (settle d st w).
Proof.
  unfold settle, same_calls. destruct (deferreds w !! d) as [[]|]; simpl; try done.
  by rewrite length_insert.
Qed.

Lemma same_calls_resolvePromises results : forall w,
  same_calls w (resolvePromises results w).
Proof.
  induction results as [|[CallId message deferred] results IH]; intros w; simpl.
  - apply same_calls_refl.
  - set (w1 := if truthy CallId then w else emit (EvLog (LogNoCallId message)) w).
    assert (Hw1 : same_calls w w1).
    { unfold w1. destruct (truthy CallId); [apply same_calls_refl|].
      by apply same_calls_emit. }
    destruct (negb (truthy (Body message))).
    + eapply same_calls_trans; [exact Hw1|apply IH].
    + destruct (JSON_parse _).
      * destruct deferred.
        -- eapply same_calls_trans; [exact Hw1|]. eapply same_calls_trans; [|apply IH].
           apply same_calls_settle.
        -- eapply same_calls_trans; [exact Hw1|]. eapply same_calls_trans; [|apply IH].
           by apply same_calls_emit.
      * eapply same_calls_trans; [exact Hw1|by apply same_calls_emit].
Qed.

Lemma same_calls_fold_reject e (m : list (string * nat)) : forall w,
  same_calls w
    (fold_left
       (fun w kv => reject (snd kv) e (emit (EvLog (LogRejectingCall (fst kv))) w))
       m w).
Proof.
  induction m as [|kv m IH]; intros w; simpl; [apply same_calls_refl|].
  eapply same_calls_trans; [|apply IH].
  eapply same_calls_trans; [|apply same_calls_settle].
  by apply same_calls_emit.
Qed.

Lemma same_calls_rejectAll w : same_calls w (rejectAll w).
Proof.
  unfold rejectAll. eapply same_calls_trans; [|apply same_calls_fold_reject].
  by apply same_calls_emit.
Qed.

Lemma same_calls_loop c w : same_calls w (resultCollector_loop c w).
Proof.
  unfold resultCollector_loop, same_calls. destruct (0 <? _); simpl;
    rewrite !enqueuings_app; simpl; by rewrite ?app_nil_r.
Qed.

Lemma same_calls_start w : same_calls w (startResultCollectorIfNeeded w).
Proof.
  unfold startResultCollectorIfNeeded. destruct (_ && _); [|apply same_calls_refl].
  pose proof (same_calls_loop (spawned w) (set_spawned (S (spawned w)) w)) as [H1 H2].
  split; simpl; [exact H1|exact H2].
Qed.

(** *** The store of deferreds *)

Lemma settle_cases d st w d0 x :
  deferreds (settle d st w) !! d0 = Some x ->
  deferreds w !! d0 = Some x \/
  (d0 = d /\ x = st /\ deferreds w !! d = Some Pending).
Proof.
  unfold settle. destruct (deferreds w !! d) as [[]|] eqn:Hd; simpl; auto.
  destruct (decide (d0 = d)) as [->|Hne].
  - rewrite list_lookup_insert_eq by (by eapply lookup_lt_Some). intros [= <-]. auto.
  - rewrite list_lookup_insert_ne by done. auto.
Qed.

Lemma settle_other d st w d0 :
  d0 <> d -> deferreds (settle d st w) !! d0 = deferreds w !! d0.
Proof.
  intros Hne. unfold settle. destruct (deferreds w !! d) as [[]|]; simpl; try done.
  by rewrite list_lookup_insert_ne.
Qed.

Lemma settle_pending d st w :
  deferreds w !! d = Some Pending -> deferreds (settle d st w) !! d = Some st.
Proof.
  intros Hd. unfold settle. rewrite Hd. simpl.
  rewrite list_lookup_insert_eq; [done|by eapply lookup_lt_Some].
Qed.

(** A promise that is settled stays as it is. *)
Lemma settle_settled d st w d0 x :
  deferreds w !! d0 = Some x -> x <> Pending ->
  deferreds (settle d st w) !! d0 = Some x.
Proof.
  intros Hd0 Hx. destruct (decide (d0 = d)) as [->|Hne].
  - unfold settle. rewrite Hd0. by destruct x.
  - by rewrite settle_other.
Qed.

Lemma resolvePromises_settled results : forall w d0 x,
  deferreds w !! d0 = Some x -> x <> Pending ->
  deferreds (resolvePromises results w) !! d0 = Some x.
Proof.
  induction results as [|[CallId message deferred] results IH]; intros w d0 x Hd0 Hx;
    simpl; [done|].
  set (w1 := if truthy CallId then w else emit (EvLog (LogNoCallId message)) w).
  assert (Hw1 : deferreds w1 = deferreds w) by (unfold w1; by destruct (truthy CallId)).
  destruct (negb (truthy (Body message))).
  - apply IH; [by rewrite Hw1|done].
  - destruct (JSON_parse _); [|by simpl; rewrite Hw1].
    destruct deferred.
    + apply IH; [|done]. apply settle_settled; [by rewrite Hw1|done].
    + apply IH; [by simpl; rewrite Hw1|done].
Qed.

Lemma good_store_reject enq d e w :
  good_store enq (deferreds w) -> good_store enq (deferreds (reject d e w)).
Proof.
  intros Hgood d0 r Hd0. apply settle_cases in Hd0 as [Hd0|(_ & [=] & _)].
  by apply Hgood.
Qed.

Lemma good_store_fold_reject enq e (m : list (string * nat)) : forall w,
  good_store enq (deferreds w) ->
  good_store enq
    (deferreds
       (fold_left
          (fun w kv => reject (snd kv) e (emit (EvLog (LogRejectingCall (fst kv))) w))
          m w)).
Proof.
  induction m as [|kv m IH]; intros w Hgood; simpl; [done|].
  apply IH. by apply good_store_reject.
Qed.

Lemma good_store_rejectAll enq w :
  good_store enq (deferreds w) -> good_store enq (deferreds (rejectAll w)).
Proof. intros Hgood. unfold rejectAll. by apply good_store_fold_reject. Qed.

Lemma good_store_resolvePromises enq results : forall w,
  Forall (good_result enq) results ->
  good_store enq (deferreds w) ->
  good_store enq (deferreds (resolvePromises results w)).
Proof.
  induction results as [|[CallId message deferred] results IH]; intros w Hres Hgood;
    simpl; [done|].
  apply Forall_cons in Hres as [Hcr Hres].
  set (w1 := if truthy CallId then w else emit (EvLog (LogNoCallId message)) w).
  assert (Hw1 : deferreds w1 = deferreds w) by (unfold w1; by destruct (truthy CallId)).
  destruct (negb (truthy (Body message))).
  - apply IH; [done|by rewrite Hw1].
  - destruct (JSON_parse _) as [fr|] eqn:Hparse; [|by simpl; rewrite Hw1].
    destruct deferred as [d|].
    + apply IH; [done|].
      intros d0 r Hd0. apply settle_cases in Hd0 as [Hd0|(-> & [= ->] & _)].
      * apply Hgood. by rewrite <- Hw1.
      * destruct (Hcr d eq_refl) as (cid & _ & Hcid & Hin). simpl in Hcid.
        exists cid. split; [done|]. by split.
    + apply IH; [done|]. by simpl; rewrite Hw1.
Qed.

(** *** The invariant *)

Ltac split_correlated := unfold correlated; split; [|split; [|split]].

Lemma good_result_mono enq enq' cr :
  (forall x, x ∈ enq -> x ∈ enq') -> good_result enq cr -> good_result enq' cr.
Proof.
  intros Hsub Hcr d Hd. destruct (Hcr d Hd) as (cid & ? & ? & ?). exists cid. auto.
Qed.

Lemma correlated_ext w w' :
  callResultPromises w' = callResultPromises w -> timers w' = timers w ->
  deferreds w' = deferreds w -> enqueuings (trace w') = enqueuings (trace w) ->
  correlated w -> correlated w'.
Proof. unfold correlated. by intros -> -> -> ->. Qed.

Lemma correlated_emit ev w :
  enqueuings [ev] = [] -> correlated w -> correlated (emit ev w).
Proof.
  intros Hev. apply correlated_ext; try done.
  simpl. by rewrite enqueuings_app, Hev, app_nil_r.
Qed.

Lemma correlated_start w : correlated w -> correlated (startResultCollectorIfNeeded w).
Proof.
  destruct (startResultCollectorIfNeeded_frame w) as (Hm & Hd & Ht & _).
  destruct (same_calls_start w) as [He _]. by apply correlated_ext.
Qed.

Lemma correlated_loop c w : correlated w -> correlated (resultCollector_loop c w).
Proof.
  intros (Hmap & Htimers & Hstore & Henq).
  destruct (same_calls_loop c w) as [He Hl].
  destruct (resultCollector_loop_frame c w) as (Hm & Hd & _).
  unfold correlated. rewrite He, Hm, Hd. split_correlated; try done.
  intros results Hin.
  destruct (resultCollector_loop_spec c w) as [(_ & _ & _ & Ht)|(_ & _ & _ & Ht)];
    rewrite Ht in Hin; [by apply Htimers|].
  apply elem_of_app in Hin as [Hin|Hin]; [by apply Htimers|].
  by apply list_elem_of_singleton in Hin.
Qed.

Lemma correlated_rejectAll w : correlated w -> correlated (rejectAll w).
Proof.
  intros (Hmap & Htimers & Hstore & Henq).
  destruct (same_calls_rejectAll w) as [He Hl].
  destruct (frame_rejectAll w) as (_ & _ & Hm & _ & _ & _ & Ht).
  unfold correlated. rewrite He, Hm, Ht, Hl. split_correlated; try done.
  by apply good_store_rejectAll.
Qed.

Lemma good_map_delete enq m k :
  good_map enq m -> good_map enq (Map_delete_opt m k).
Proof.
  intros Hgood. destruct k as [k|]; [|done]. intros cid d. simpl.
  rewrite Map_get_delete. destruct (String.eqb k cid); [done|]. apply Hgood.
Qed.

Lemma collect_correlated Messages : forall callResults w,
  correlated w ->
  Forall (good_result (enqueuings (trace w))) callResults ->
  match collect Messages callResults w with
  | Stop w' => correlated w'
  | Batch callResults' w' =>
      correlated w' /\ Forall (good_result (enqueuings (trace w'))) callResults'
  | Caught _ w' => correlated w'
  end.
Proof.
  induction Messages as [|m Messages IH]; intros callResults w Hw Hacc; simpl; [done|].
  destruct (isQueueStopMessage m).
  - by eapply correlated_ext; [| | | |apply correlated_rejectAll].
  - destruct (CallId_of m) as [CallId|err] eqn:HCallId; [|done].
    apply IH.
    + destruct Hw as (Hmap & Htimers & Hstore & Henq).
      split_correlated; simpl; try done.
      by apply good_map_delete.
    + simpl. apply Forall_app. split; [done|]. apply Forall_singleton.
      intros d Hd. simpl in Hd.
      destruct CallId as [cid|]; [|done]. exists cid. simpl.
      destruct Hw as (Hmap & _). auto.
Qed.

Lemma correlated_enqueue CallId w :
  correlated w -> correlated (snd (enqueueCallRequest CallId w)).
Proof.
  intros (Hmap & Htimers & Hstore & Hlt & Huniq).
  unfold enqueueCallRequest, createDeferred. simpl.
  apply correlated_start. unfold correlated. simpl.
  rewrite enqueuings_app. simpl.
  set (enq := enqueuings (trace w)) in *.
  split_correlated.
  - intros cid d0. rewrite Map_get_set, elem_of_app, list_elem_of_singleton.
    destruct (String.eqb CallId cid) eqn:Hcid.
    + apply String.eqb_eq in Hcid as <-. intros [= <-]. by right.
    + intros H. left. by apply Hmap.
  - intros results Hin. eapply Forall_impl; [by apply Htimers|].
    intros cr. apply good_result_mono. intros x Hx. apply elem_of_app. by left.
  - intros d0 r Hd0. apply lookup_app_Some in Hd0 as [Hd0|[_ Hd0]].
    + destruct (Hstore d0 r Hd0) as (cid & Hin & Hans).
      exists cid. split; [|done]. apply elem_of_app. by left.
    + by destruct (d0 - length (deferreds w)) as [|[|]].
  - split.
    + intros cid d0. rewrite elem_of_app, list_elem_of_singleton, length_app. simpl.
      intros [Hin|Heq].
      * pose proof (Hlt _ _ Hin). lia.
      * injection Heq as -> ->. lia.
    + intros cid cid' d0. rewrite !elem_of_app, !list_elem_of_singleton.
      intros [Hin|Heq] [Hin'|Heq'].
      * by eapply Huniq.
      * injection Heq' as -> ->. pose proof (Hlt _ _ Hin). lia.
      * injection Heq as -> ->. pose proof (Hlt _ _ Hin'). lia.
      * congruence.
Qed.

Lemma correlated_call fn_name args CallId w :
  correlated w -> correlated (snd (responsifedFunc fn_name args CallId w)).
Proof.
  intros Hw. unfold responsifedFunc.
  set (w0 := emit _ w).
  assert (Hw0 : correlated w0) by (by apply correlated_emit).
  destruct (bool_decide _).
  - pose proof (correlated_enqueue CallId w0 Hw0) as Henq.
    destruct (enqueueCallRequest CallId w0) as [d w1]. simpl in *.
    by apply correlated_emit.
  - simpl. by apply correlated_emit.
Qed.

Lemma correlated_receive c response w :
  correlated w -> correlated (resultCollector_resume c response w).
Proof.
  intros Hw. unfold resultCollector_resume.
  set (w0 := set_collectors _ w).
  assert (Hw0 : correlated w0) by (by eapply correlated_ext; [| | | |exact Hw]).
  destruct response as [Messages|err]; [|done].
  set (w1 := deleteSQSMessages _ _ _).
  assert (Hw1 : correlated w1).
  { unfold w1, deleteSQSMessages. destruct (0 <? _).
    - apply correlated_emit; [done|]. by apply correlated_emit.
    - by apply correlated_emit. }
  pose proof (collect_correlated (default [] Messages) [] w1 Hw1 (Forall_nil_2 _))
    as Hcollect.
  destruct (collect (default [] Messages) [] w1) as [w2|callResults w2|err w2].
  - done.
  - destruct Hcollect as [(Hmap & Htimers & Hstore & Henq) Hres].
    apply correlated_loop. unfold correlated, setTimeout. simpl.
    rewrite enqueuings_app. simpl. rewrite app_nil_r.
    split_correlated; try done.
    intros results Hin. apply elem_of_app in Hin as [Hin|Hin]; [by apply Htimers|].
    apply list_elem_of_singleton in Hin. by injection Hin as ->.
  - apply correlated_loop. by apply correlated_emit.
Qed.

Lemma correlated_timer t ts w :
  timers w = t :: ts -> correlated w -> correlated (run_timer t (set_timers ts w)).
Proof.
  intros Ht (Hmap & Htimers & Hstore & Henq).
  assert (Hw' : correlated (set_timers ts w)).
  { split_correlated; simpl; try done.
    intros results Hin. apply Htimers. rewrite Ht. apply elem_of_cons. by right. }
  destruct t as [results|]; simpl; [|by apply correlated_start].
  set (w' := set_timers ts w) in *.
  destruct (same_calls_resolvePromises results w') as [He Hl].
  destruct (frame_resolvePromises results w') as (_ & _ & Hm & _ & _ & _ & Htm).
  unfold correlated. rewrite He, Hm, Htm, Hl.
  destruct Hw' as (Hmap' & Htimers' & Hstore' & Henq').
  split_correlated; try done.
  apply good_store_resolvePromises; [|done].
  apply Htimers. rewrite Ht. apply elem_of_cons. by left.
Qed.

Lemma reachable_correlated w : reachable w -> correlated w.
Proof.
  induction 1 as [w (Hm & _ & Hd & _ & Ht & He)|w w' _ IH Hstep].
  - unfold correlated. rewrite Hm, Hd, Ht, He. repeat split.
    + by intros cid d.
    + by intros results ?%elem_of_nil.
    + by intros d r.
    + by intros cid d ?%elem_of_nil.
    + by intros cid cid' d ?%elem_of_nil.
  - destruct Hstep.
    + by apply correlated_call.
    + by apply correlated_receive.
    + by eapply correlated_timer.
Qed.

(** *** Delivery of a batch of replies *)

Lemma resolvePromises_reply m CallId fr deferred results w :
  is_reply m CallId fr ->
  resolvePromises (mkCallResults (Some CallId) m deferred :: results) w =
  resolvePromises results
    (let w := if truthy (Some CallId) then w else emit (EvLog (LogNoCallId m)) w in
     match deferred with
     | Some d => resolve d (mkQueued fr m) w
     | None => emit (EvLog (LogDeferredNotFound (Some CallId))) w
     end).
Proof.
  intros (_ & _ & Hbody & Hparse). cbn [resolvePromises].
  rewrite Hbody, Hparse. cbn [negb]. by destruct deferred.
Qed.

Lemma collect_reply m CallId fr Messages callResults w :
  is_reply m CallId fr ->
  collect (m :: Messages) callResults w =
  collect Messages
    (callResults ++
       [mkCallResults (Some CallId) m (Map_get (callResultPromises w) CallId)])
    (set_callResultPromises (Map_delete (callResultPromises w) CallId) w).
Proof. intros (Hstop & HCallId & _). cbn [collect]. by rewrite Hstop, HCallId. Qed.

Lemma collect_replies Messages : forall callResults w,
  (forall m, m ∈ Messages -> exists CallId fr, is_reply m CallId fr) ->
  exists callResults' w',
    collect Messages callResults w = Batch (callResults ++ callResults') w' /\
    deferreds w' = deferreds w.
Proof.
  induction Messages as [|m Messages IH]; intros callResults w Hall.
  - exists [], w. simpl. by rewrite app_nil_r.
  - destruct (Hall m) as (cid & fr & Hm); [apply elem_of_cons; by left|].
    rewrite (collect_reply _ _ _ _ _ _ Hm).
    edestruct IH as (crs & w' & -> & Hd).
    { intros m' Hm'. apply Hall. apply elem_of_cons. by right. }
    eexists (_ :: crs), w'. split; [by rewrite <- app_assoc|exact Hd].
Qed.

Lemma collect_delivers before : forall m after CallId fr d callResults w,
  (forall m', m' ∈ before ++ m :: after -> exists c f, is_reply m' c f) ->
  is_reply m CallId fr ->
  (forall m', m' ∈ before -> CallId_of m' <> Ok (Some CallId)) ->
  Map_get (callResultPromises w) CallId = Some d ->
  (forall CallId', Map_get (callResultPromises w) CallId' = Some d -> CallId' = CallId) ->
  exists callResults' w',
    collect (before ++ m :: after) callResults w = Batch (callResults ++ callResults') w' /\
    deferreds w' = deferreds w /\
    forall ws, deferreds ws !! d = Some Pending ->
      deferreds (resolvePromises callResults' ws) !! d = Some (Resolved (mkQueued fr m)).
Proof.
  induction before as [|m0 before IH];
    intros m after CallId fr d callResults w Hall Hm Hfirst Hget Hinj.
  - cbn [app]. rewrite (collect_reply _ _ _ _ _ _ Hm), Hget.
    edestruct (collect_replies after) as (crs & w' & -> & Hd).
    { intros m' Hm'. apply Hall. simpl. apply elem_of_cons. by right. }
    eexists (_ :: crs), w'. split; [by rewrite <- app_assoc|]. split; [exact Hd|].
    intros ws Hpending. rewrite (resolvePromises_reply _ _ _ _ _ _ Hm).
    apply resolvePromises_settled; [|done].
    apply settle_pending. by destruct (truthy (Some CallId)).
  - destruct (Hall m0) as (cid0 & fr0 & Hm0); [apply elem_of_cons; by left|].
    assert (Hne : cid0 <> CallId).
    { intros ->. apply (Hfirst m0); [apply elem_of_cons; by left|]. by destruct Hm0 as (_ & ? & _). }
    cbn [app]. rewrite (collect_reply _ _ _ _ _ _ Hm0).
    edestruct (IH m after CallId fr d) as (crs & w' & -> & Hd & Hres).
    + intros m' Hm'. apply Hall. simpl. apply elem_of_cons. by right.
    + exact Hm.
    + intros m' Hm'. apply Hfirst. apply elem_of_cons. by right.
    + simpl. rewrite Map_get_delete.
      destruct (String.eqb cid0 CallId) eqn:Heq; [|exact Hget].
      by apply String.eqb_eq in Heq.
    + simpl. intros cid'. rewrite Map_get_delete.
      destruct (String.eqb cid0 cid'); [done|]. apply Hinj.
    + eexists (_ :: crs), w'. split; [by rewrite <- app_assoc|]. split; [exact Hd|].
      intros ws Hpending. rewrite (resolvePromises_reply _ _ _ _ _ _ Hm0).
      apply Hres. cbv zeta. unfold resolve.
      destruct (Map_get (callResultPromises w) cid0) as [d0|] eqn:Hget0.
      * rewrite settle_other; [by destruct (truthy (Some cid0))|].
        intros <-. by apply Hne, Hinj.
      * by destruct (truthy (Some cid0)).
Qed.

(** A reply for a call that is not in the map leaves the map as it is. *)
Lemma collect_unknown m CallId fr Messages callResults w :
  is_reply m CallId fr ->
  Map_get (callResultPromises w) CallId = None ->
  collect (m :: Messages) callResults w =
  collect Messages (callResults ++ [mkCallResults (Some CallId) m None]) w.
Proof.
  intros Hm Hget. rewrite (collect_reply _ _ _ _ _ _ Hm), Hget.
  rewrite Map_delete_absent by done. by destruct w.
Qed.

(** ** Deferreds out of reach *)

Lemma Map_get_elem m k v : Map_get m k = Some v -> (k, v) ∈ m.
Proof.
  induction m as [|[k0 v0] m IH]; simpl; [done|].
  destruct (String.eqb k0 k) eqn:Hk.
  - apply String.eqb_eq in Hk as ->. intros [= ->]. apply elem_of_cons. by left.
  - intros H. apply elem_of_cons. right. by apply IH.
Qed.

Lemma Map_delete_elem m k x : x ∈ Map_delete m k -> x ∈ m.
Proof.
  induction m as [|[k0 v0] m IH]; simpl; [done|].
  destruct (String.eqb k0 k).
  - intros H. apply elem_of_cons. right. by apply IH.
  - rewrite !elem_of_cons. intros [->|H]; [by left|right; by apply IH].
Qed.

Lemma Map_replace_elem m k v x : x ∈ Map_replace m k v -> x ∈ m \/ x = (k, v).
Proof.
  induction m as [|[k0 v0] m IH]; simpl; [by left|].
  destruct (String.eqb k0 k) eqn:Hk.
  - apply String.eqb_eq in Hk as ->. rewrite !elem_of_cons. intros [->|H]; auto.
  - rewrite !elem_of_cons. intros [->|H]; [by left; left|].
    destruct (IH H); auto.
Qed.

Lemma Map_set_elem m k v x : x ∈ Map_set m k v -> x ∈ m \/ x = (k, v).
Proof.
  unfold Map_set. destruct (Map_has m k); [apply Map_replace_elem|].
  rewrite elem_of_app, list_elem_of_singleton. auto.
Qed.

Lemma fold_reject_other e d (m : list (string * nat)) : forall w,
  (forall k v, (k, v) ∈ m -> v <> d) ->
  deferreds
    (fold_left
       (fun w kv => reject (snd kv) e (emit (EvLog (LogRejectingCall (fst kv))) w))
       m w) !! d = deferreds w !! d.
Proof.
  induction m as [|[k v] m IH]; intros w Hm; simpl; [done|].
  rewrite IH.
  - unfold reject. rewrite settle_other; [done|].
    intros <-. eapply Hm; [|done]. apply elem_of_cons. by left.
  - intros k' v' Hin. eapply Hm. apply elem_of_cons. by right.
Qed.

Lemma resolvePromises_other d results : forall w,
  (forall cr, cr ∈ results -> cr_deferred cr <> Some d) ->
  deferreds (resolvePromises results w) !! d = deferreds w !! d.
Proof.
  induction results as [|[CallId message deferred] results IH]; intros w Hres;
    simpl; [done|].
  assert (Hrest : forall cr, cr ∈ results -> cr_deferred cr <> Some d).
  { intros cr Hcr. apply Hres. apply elem_of_cons. by right. }
  set (w1 := if truthy CallId then w else emit (EvLog (LogNoCallId message)) w).
  assert (Hw1 : deferreds w1 = deferreds w) by (unfold w1; by destruct (truthy CallId)).
  destruct (negb (truthy (Body message))).
  - by rewrite IH, Hw1.
  - destruct (JSON_parse _); [|by simpl; rewrite Hw1].
    destruct deferred as [d0|].
    + rewrite IH by done. unfold resolve. rewrite settle_other; [by rewrite Hw1|].
      intros <-. eapply Hres; [apply elem_of_cons; by left|done].
    + rewrite IH by done. by simpl; rewrite Hw1.
Qed.

Lemma collect_stranded d Messages : forall callResults w,
  (forall k v, (k, v) ∈ callResultPromises w -> v <> d) ->
  (forall cr, cr ∈ callResults -> cr_deferred cr <> Some d) ->
  match collect Messages callResults w with
  | Stop w' =>
      deferreds w' !! d = deferreds w !! d /\
      (forall k v, (k, v) ∈ callResultPromises w' -> v <> d)
  | Batch callResults' w' =>
      (forall cr, cr ∈ callResults' -> cr_deferred cr <> Some d) /\
      (forall k v, (k, v) ∈ callResultPromises w' -> v <> d)
  | Caught _ w' => forall k v, (k, v) ∈ callResultPromises w' -> v <> d
  end.
Proof.
  induction Messages as [|m Messages IH]; intros callResults w Hmap Hacc; simpl; [done|].
  destruct (isQueueStopMessage m).
  - destruct (frame_rejectAll w) as (_ & _ & Hm & _). simpl. rewrite Hm.
    split; [|done]. unfold rejectAll. by rewrite fold_reject_other.
  - destruct (CallId_of m) as [CallId|err]; [|done].
    match goal with |- context [collect Messages ?a ?b] => specialize (IH a b) end.
    apply IH; simpl.
    + intros k v Hin. eapply Hmap. destruct CallId; [|done].
      by eapply Map_delete_elem.
    + intros cr. rewrite elem_of_app, list_elem_of_singleton. intros [Hcr| ->]; [auto|].
      simpl. destruct CallId as [cid|]; [|done]. simpl.
      intros Hget. apply Map_get_elem in Hget. by eapply Hmap.
Qed.

Lemma stranded_step d w w' : step w w' -> stranded d w -> stranded d w'.
Proof.
  intros Hstep (Hpending & Hmap & Htimers). destruct Hstep.
  - unfold responsifedFunc. destruct (bool_decide _); [|done].
    rewrite enqueueCallRequest_run. cbn [fst snd].
    match goal with |- context [startResultCollectorIfNeeded ?x] => set (w1 := x) end.
    destruct (startResultCollectorIfNeeded_frame w1) as (Hm & Hd & Ht & _).
    unfold stranded. simpl. rewrite Hm, Hd, Ht. unfold w1. simpl.
    split; [|split].
    + by apply lookup_app_l_Some.
    + intros k v [Hin| [= -> ->]]%Map_set_elem; [by eapply Hmap|].
      apply lookup_lt_Some in Hpending. lia.
    + done.
  - unfold resultCollector_resume.
    destruct response as [Messages|err]; [|done].
    set (w1 := deleteSQSMessages _ _ _).
    assert (Hw1 : deferreds w1 = deferreds w /\ timers w1 = timers w /\
                  callResultPromises w1 = callResultPromises w).
    { unfold w1, deleteSQSMessages. by destruct (0 <? _). }
    destruct Hw1 as (Hd1 & Ht1 & Hm1).
    pose proof (collect_spec (default [] Messages) [] w1) as Hspec.
    pose proof (collect_stranded d (default [] Messages) [] w1) as Hcollect.
    rewrite Hm1 in Hcollect. specialize (Hcollect Hmap).
    destruct (collect (default [] Messages) [] w1) as [w2|callResults w2|err w2].
    + destruct Hcollect as [Hd2 Hm2]; [by intros cr ?%elem_of_nil|].
      destruct Hspec as (_ & Ht2 & _).
      unfold stranded. rewrite Hd2, Hd1, Ht2, Ht1. done.
    + destruct Hcollect as [Hcr Hm2]; [by intros cr ?%elem_of_nil|].
      destruct Hspec as (_ & Ht2 & _ & _ & Hd2 & _).
      set (w3 := setTimeout _ w2).
      destruct (resultCollector_loop_frame c w3) as (Hml & Hdl & _).
      unfold stranded. rewrite Hml, Hdl. simpl. rewrite Hd2, Hd1.
      split; [done|]. split; [done|].
      intros results cr Hin Hcrin.
      assert (Hin' : TResolvePromises results ∈ timers w \/ results = callResults).
      { destruct (resultCollector_loop_spec c w3) as [(_&_&_&Htl)|(_&_&_&Htl)];
          rewrite Htl in Hin; simpl in Hin; rewrite Ht2, Ht1 in Hin;
          rewrite ?elem_of_app, ?list_elem_of_singleton in Hin;
          destruct_or?; simplify_eq; auto. }
      destruct Hin' as [Hin'| ->]; [by eapply Htimers|by apply Hcr].
    + destruct Hspec as (_ & Ht2 & _ & _ & Hd2 & _).
      assert (Hm2 : forall k v, (k, v) ∈ callResultPromises w2 -> v <> d).
      { apply Hcollect. by intros cr ?%elem_of_nil. }
      set (w3 := emit _ w2).
      destruct (resultCollector_loop_frame c w3) as (Hml & Hdl & _).
      unfold stranded. rewrite Hml, Hdl. simpl. rewrite Hd2, Hd1.
      split; [done|]. split; [done|].
      intros results cr Hin Hcrin.
      assert (Hin' : TResolvePromises results ∈ timers w).
      { destruct (resultCollector_loop_spec c w3) as [(_&_&_&Htl)|(_&_&_&Htl)];
          rewrite Htl in Hin; simpl in Hin; rewrite Ht2, Ht1 in Hin;
          rewrite ?elem_of_app, ?list_elem_of_singleton in Hin;
          destruct_or?; simplify_eq; auto. }
      by eapply Htimers.
  - assert (Hts : forall results cr, TResolvePromises results ∈ ts ->
                    cr ∈ results -> cr_deferred cr <> Some d).
    { intros results cr Hin. apply Htimers. rewrite H. apply elem_of_cons. by right. }
    destruct t as [results|]; simpl.
    + destruct (frame_resolvePromises results (set_timers ts w))
        as (_ & _ & Hm & _ & _ & _ & Ht).
      unfold stranded. rewrite Hm, Ht, resolvePromises_other; [done|].
      intros cr. apply Htimers. rewrite H. apply elem_of_cons. by left.
    + destruct (startResultCollectorIfNeeded_frame (set_timers ts w))
        as (Hm & Hd & Ht & _).
      unfold stranded. by rewrite Hm, Hd, Ht.
Qed.

Lemma stranded_steps d w w' : steps w w' -> stranded d w -> stranded d w'.
Proof.
  induction 1 as [|w w' w'' _ IH Hstep]; [done|].
  intros Hw. eapply stranded_step; [exact Hstep|by apply IH].
Qed.

(** ** The handle and the collector *)

Lemma handle_live_ext w w' :
  collectors w' = collectors w ->
  resultCollectorPromise w' = resultCollectorPromise w ->
  handle_live w -> handle_live w'.
Proof. unfold handle_live. by intros -> ->. Qed.

Lemma handle_live_start w :
  handle_live w -> handle_live (startResultCollectorIfNeeded w).
Proof.
  intros Hlive.
  destruct (startResultCollectorIfNeeded_spec w) as [(_ & Hnone & Hc & Hh)|[_ ->]];
    [|done].
  right. exists (spawned w). rewrite Hc, Hh.
  destruct Hlive as [[-> _]|(c & _ & Hsome)]; [done|congruence].
Qed.

Lemma handle_live_call fn_name args CallId w :
  handle_live w -> handle_live (snd (responsifedFunc fn_name args CallId w)).
Proof.
  intros Hlive. unfold responsifedFunc.
  destruct (bool_decide _); simpl.
  - eapply handle_live_ext; [reflexivity|reflexivity|].
    apply handle_live_start. by eapply handle_live_ext; [| |exact Hlive].
  - by eapply handle_live_ext; [| |exact Hlive].
Qed.

Lemma handle_live_receive c Messages w :
  In c (collectors w) -> handle_live w ->
  handle_live (resultCollector_resume c (Ok Messages) w).
Proof.
  intros Hin [[Hnil _]|(c' & Hc & Hh)]; [rewrite Hnil in Hin; by destruct Hin|].
  rewrite Hc in Hin. destruct Hin as [->|[]].
  unfold resultCollector_resume.
  set (w0 := set_collectors _ w).
  assert (Hw0 : collectors w0 = [] /\ resultCollectorPromise w0 = Some c).
  { unfold w0. simpl. rewrite Hc. simpl. by rewrite Nat.eqb_refl. }
  set (w1 := deleteSQSMessages _ _ _).
  assert (Hw1 : collectors w1 = [] /\ resultCollectorPromise w1 = Some c).
  { unfold w1, deleteSQSMessages. by destruct (0 <? _). }
  destruct Hw1 as [Hc1 Hh1].
  pose proof (collect_spec (default [] Messages) [] w1) as Hspec.
  destruct (collect (default [] Messages) [] w1) as [w2|callResults w2|err w2].
  - destruct Hspec as (Hc2 & _ & _ & Hh2). left. by rewrite Hc2, Hc1.
  - destruct Hspec as (Hc2 & _ & _ & Hh2 & _).
    match goal with |- handle_live (resultCollector_loop c ?x) =>
      destruct (resultCollector_loop_spec c x) as [(_ & Hc3 & Hh3 & _)|(_ & Hc3 & Hh3 & _)]
    end.
    + right. exists c. rewrite Hc3, Hh3. simpl. by rewrite Hc2, Hc1, Hh2, Hh1.
    + left. rewrite Hc3, Hh3. simpl. by rewrite Hc2, Hc1.
  - destruct Hspec as (Hc2 & _ & _ & Hh2 & _).
    match goal with |- handle_live (resultCollector_loop c ?x) =>
      destruct (resultCollector_loop_spec c x) as [(_ & Hc3 & Hh3 & _)|(_ & Hc3 & Hh3 & _)]
    end.
    + right. exists c. rewrite Hc3, Hh3. simpl. by rewrite Hc2, Hc1, Hh2, Hh1.
    + left. rewrite Hc3, Hh3. simpl. by rewrite Hc2, Hc1.
Qed.

Lemma handle_live_timer t ts w :
  handle_live w -> handle_live (run_timer t (set_timers ts w)).
Proof.
  intros Hlive.
  assert (Hlive' : handle_live (set_timers ts w))
    by (by eapply handle_live_ext; [| |exact Hlive]).
  destruct t as [results|]; cbn [run_timer]; [|by apply handle_live_start].
  destruct (frame_resolvePromises results (set_timers ts w))
    as (_ & _ & _ & Hh & Hc & _).
  by eapply handle_live_ext; [| |exact Hlive'].
Qed.

(** As long as no poll has failed, the handle is set exactly while a
    collector runs. *)
Lemma polled_reachable_handle_live w : polled_reachable w -> handle_live w.
Proof.
  induction 1 as [w (_ & Hh & _ & Hc & _)|w w' _ IH Hstep]; [by left|].
  destruct Hstep.
  - by apply handle_live_call.
  - by apply handle_live_receive.
  - by apply handle_live_timer.
Qed.

Lemma polled_reachable_reachable w : polled_reachable w -> reachable w.
Proof.
  induction 1 as [w Hidle|w w' _ IH Hstep]; [by apply reachable_idle|].
  eapply reachable_step; [exact IH|].
  destruct Hstep; [apply step_call|by apply step_receive|by apply step_timer].
Qed.

(** ** Interleaved runs *)

Lemma emit_add_trace ev w : emit ev w = add_trace [ev] w.
Proof. reflexivity. Qed.

Lemma advance_script_grows {A} env (s : Async.Script A) : forall w,
  exists l, snd (Async.advance_script env s w) = add_trace l w.
Proof.
  induction s as [r|r k IH|ev k IH|k IH]; intros w; simpl.
  - exists []. by rewrite add_trace_nil.
  - destruct (IH (env (trace w) r) (emit (EvReq r) w)) as [l Hl].
    exists (EvReq r :: l). by rewrite Hl, emit_add_trace, add_trace_app.
  - destruct (IH (emit ev w)) as [l Hl].
    exists (ev :: l). by rewrite Hl, emit_add_trace, add_trace_app.
  - exists []. by rewrite add_trace_nil.
Qed.

Lemma wp_mono {A} env (t : Async.Task A) (Q Q' : Res A -> World -> Prop) :
  (forall r w, Q r w -> Q' r w) -> forall w, wp env t Q w -> wp env t Q' w.
Proof.
  intros HQ. induction t as [r|r k IH|k IH|f k IH|k IH|body k IH|k IH];
    intros w Hwp; simpl in *; eauto.
Qed.

Lemma wp_bind {A B} env (t : Async.Task A) (k : A -> Async.Task B) Q : forall w,
  wp env t (fun r w' => match r with
                        | Ok a => wp env (k a) Q w'
                        | Thrown e => Q (Thrown e) w'
                        end) w ->
  wp env (t ≫= k) Q w.
Proof.
  unfold mbind, Async.Task_bind.
  induction t as [r|r f IH|f IH|f t IH|t IH|body t IH|f IH];
    intros w Hwp; simpl in *; eauto.
  by destruct r.
Qed.

Lemma wp_try_catch {A} env (t : Async.Task A) h Q : forall w,
  wp env t (fun r w' => match r with
                        | Ok a => Q (Ok a) w'
                        | Thrown e => wp env (h e) Q w'
                        end) w ->
  wp env (Async.try_catch t h) Q w.
Proof.
  induction t as [r|r f IH|f IH|f t IH|t IH|body t IH|f IH];
    intros w Hwp; simpl in *; eauto.
  by destruct r.
Qed.

Lemma wp_lift_bind {A B} env (s : Async.Script A) (k : A -> Async.Script B) Q :
  forall w,
  wp env (Async.lift s)
    (fun r w' => match r with
                 | Ok a => wp env (Async.lift (k a)) Q w'
                 | Thrown e => Q (Thrown e) w'
                 end) w ->
  wp env (Async.lift (s ≫= k)) Q w.
Proof.
  unfold mbind, Async.Script_bind.
  induction s as [r|r f IH|ev s IH|s IH]; intros w Hwp; simpl in *; eauto.
  by destruct r.
Qed.

(** A script changes nothing but the trace. *)
Lemma wp_lift {A} env (s : Async.Script A) (Q : Res A -> World -> Prop) : forall w,
  (forall r l, Q r (add_trace l w)) -> wp env (Async.lift s) Q w.
Proof.
  induction s as [r|r f IH|ev s IH|s IH]; intros w HQ; simpl.
  - rewrite <- (add_trace_nil w). apply HQ.
  - apply IH. intros r' l. rewrite emit_add_trace, add_trace_app. apply HQ.
  - apply IH. intros r' l. rewrite emit_add_trace, add_trace_app. apply HQ.
  - intros l. apply IH. intros r' l'. rewrite add_trace_app. apply HQ.
Qed.

Lemma wp_quietly env r (Q : Res (option Data) -> World -> Prop) w :
  (forall l o, Q (Ok o) (add_trace (EvReq r :: l) w)) ->
  wp env (Async.lift (Async.quietly r)) Q w.
Proof. intros HQ. simpl. intros l. rewrite emit_add_trace, add_trace_app. apply HQ. Qed.

Lemma wp_carefully env r (Q : Res (option Data) -> World -> Prop) w :
  (forall l o, Q (Ok o) (add_trace (EvReq r :: l) w)) ->
  wp env (Async.lift (Async.carefully r)) Q w.
Proof. intros HQ. simpl. intros l. rewrite emit_add_trace, add_trace_app. apply HQ. Qed.

Lemma wp_all_carefully env rs (Q : Res unit -> World -> Prop) : forall w,
  (forall l, Q (Ok tt) (add_trace l w)) ->
  wp env (Async.lift (Async.all_carefully rs)) Q w.
Proof.
  induction rs as [|r rs IH]; intros w HQ; simpl.
  - done.
  - apply IH. intros l. rewrite emit_add_trace, add_trace_app. apply HQ.
Qed.

Lemma wp_advance {A} env (t : Async.Task A) Q :
  stable Q -> forall c w, wp env t Q w -> awaits env Q (Async.advance env t c w).
Proof.
  intros HQ. induction t as [r|r k IH|k IH|f k IH|k IH|body k IH|k IH];
    intros c w Hwp; simpl in *; eauto.
  - intros l. simpl. by apply HQ.
  - intros l l'. simpl. rewrite add_trace_app. apply Hwp.
  - destruct (advance_script_grows env body w) as [l Hl].
    destruct (Async.advance_script env body w) as [s w']. simpl in Hl. subst w'.
    apply IH, Hwp.
  - intros l l' r. simpl. rewrite add_trace_app. apply Hwp.
Qed.

Lemma awaits_step {A} env (Q : Res A -> World -> Prop) turn c :
  stable Q -> awaits env Q c -> awaits env Q (Async.step env turn c).
Proof.
  intros HQ Hc. pose proof (Hc []) as Hnow. rewrite add_trace_nil in Hnow.
  destruct turn; unfold Async.step.
  - destruct (Async.main c) as [r|r k|k|f k|k|body k|k] eqn:Hmain; try done.
    + apply wp_advance; [done|]. simpl in Hnow. specialize (Hnow []).
      by rewrite add_trace_nil in Hnow.
    + destruct (Async.closure c) as [[r| | |]|]; try done.
      apply wp_advance; [done|]. simpl in Hnow. specialize (Hnow [] r).
      by rewrite add_trace_nil in Hnow.
  - destruct (Async.closure c) as [[r|r k|ev k|k]|]; try done.
    destruct (advance_script_grows env k (Async.world c)) as [l Hl].
    destruct (Async.advance_script env k (Async.world c)) as [s w']. simpl in Hl.
    subst w'. intros l'. simpl. rewrite add_trace_app. apply Hc.
Qed.

Lemma awaits_run {A} env (Q : Res A -> World -> Prop) schedule : forall c,
  stable Q -> awaits env Q c -> awaits env Q (Async.run env schedule c).
Proof.
  induction schedule as [|turn schedule IH]; intros c HQ Hc; [done|].
  simpl. apply IH; [done|]. by apply awaits_step.
Qed.

Lemma awaits_done {A} env (Q : Res A -> World -> Prop) c r :
  awaits env Q c -> Async.main c = Async.Done r -> Q r (Async.world c).
Proof.
  intros Hc Hmain. specialize (Hc []). by rewrite add_trace_nil, Hmain in Hc.
Qed.

(** What [wp] promises holds in every schedule. *)
Lemma wp_sound {A} env (t : Async.Task A) Q c0 w schedule r :
  stable Q -> wp env t Q w ->
  Async.main (Async.run env schedule (Async.advance env t c0 w)) = Async.Done r ->
  Q r (Async.world (Async.run env schedule (Async.advance env t c0 w))).
Proof.
  intros HQ Hwp. apply (awaits_done env). apply awaits_run; [done|].
  by apply wp_advance.
Qed.

Lemma run_app {A} env l1 l2 (c : Async.Config A) :
  Async.run env (l1 ++ l2) c = Async.run env l2 (Async.run env l1 c).
Proof. unfold Async.run. by rewrite fold_left_app. Qed.

(** ** A task that has settled stays as it is *)

Lemma finished_step {A} env turn (c : Async.Config A) :
  Async.finished (Async.main c) = true ->
  Async.main (Async.step env turn c) = Async.main c.
Proof.
  intros Hdone. destruct turn; unfold Async.step.
  - destruct (Async.main c) eqn:Hmain; done.
  - destruct (Async.closure c) as [[r|r k|ev k|k]|]; try done.
    by destruct (Async.advance_script env k (Async.world c)).
Qed.

Lemma finished_run {A} env schedule : forall c : Async.Config A,
  Async.finished (Async.main c) = true ->
  Async.main (Async.run env schedule c) = Async.main c.
Proof.
  induction schedule as [|turn schedule IH]; intros c Hdone; [done|].
  simpl. rewrite IH; [by apply finished_step|].
  by rewrite finished_step.
Qed.

Lemma unfinished_before {A} env schedule (c : Async.Config A) :
  Async.finished (Async.main (Async.run env schedule c)) = false ->
  Async.finished (Async.main c) = false.
Proof.
  intros Hrun. destruct (Async.finished (Async.main c)) eqn:Hdone; [|done].
  by rewrite finished_run, Hdone in Hrun.
Qed.

(** ** The [catch] block takes over where the [try] block threw *)

Lemma advance_try_catch {A} env (t : Async.Task A) h : forall c w,
  Async.advance env (Async.try_catch t h) c w =
  let c' := Async.advance env t c w in
  match Async.main c' with
  | Async.Done (Thrown e) => Async.advance env (h e) (Async.closure c') (Async.world c')
  | _ => Async.caught h c'
  end.
Proof.
  induction t as [r|r k IH|k IH|f k IH|k IH|body k IH|k IH]; intros c w; simpl; eauto.
  - by destruct r.
  - destruct (Async.advance_script env body w) as [s w']. apply IH.
Qed.

Lemma step_caught {A} env turn h (c : Async.Config A) :
  Async.finished (Async.main c) = false ->
  Async.step env turn (Async.caught h c) =
  let c' := Async.step env turn c in
  match Async.main c' with
  | Async.Done (Thrown e) => Async.advance env (h e) (Async.closure c') (Async.world c')
  | _ => Async.caught h c'
  end.
Proof.
  intros Hrunning. destruct turn; unfold Async.step; simpl.
  - destruct (Async.main c) as [r|r k|k|f k|k|body k|k] eqn:Hmain; try done; simpl.
    + by rewrite Hmain.
    + by rewrite Hmain.
    + by rewrite Hmain.
    + apply advance_try_catch.
    + by rewrite Hmain.
    + destruct (Async.closure c) as [[r| | |]|] eqn:Hclosure; simpl;
        rewrite ?Hmain; try done.
      apply advance_try_catch.
  - destruct (Async.closure c) as [[r|r k|ev k|k]|] eqn:Hclosure; simpl.
    1-3, 5: by destruct (Async.main c).
    destruct (Async.advance_script env k (Async.world c)) as [s w']. simpl.
    by destruct (Async.main c).
Qed.

Lemma run_cons {A} env turn schedule (c : Async.Config A) :
  Async.run env (turn :: schedule) c = Async.run env schedule (Async.step env turn c).
Proof. reflexivity. Qed.

Lemma run_snoc {A} env schedule turn (c : Async.Config A) :
  Async.run env (schedule ++ [turn]) c = Async.step env turn (Async.run env schedule c).
Proof. by rewrite run_app. Qed.

(** As long as the [try] block has not settled, the run of the whole is
    the run of the block. *)
Lemma run_caught {A} env h schedule : forall c : Async.Config A,
  Async.finished (Async.main (Async.run env schedule c)) = false ->
  Async.run env schedule (Async.caught h c) = Async.caught h (Async.run env schedule c).
Proof.
  induction schedule as [|turn schedule IH] using rev_ind; intros c Hrunning; [done|].
  rewrite run_snoc in Hrunning. rewrite !run_snoc.
  assert (Hbefore : Async.finished (Async.main (Async.run env schedule c)) = false).
  { destruct (Async.finished (Async.main (Async.run env schedule c))) eqn:Hdone; [|done].
    by rewrite finished_step, Hdone in Hrunning. }
  rewrite IH, step_caught by done. simpl.
  by destruct (Async.main (Async.step env turn (Async.run env schedule c)))
    as [[a|e]| | | | | |].
Qed.

(** When the [try] block throws in a turn, the handler starts in that
    turn, in the world and beside the closure that the block left. *)
Lemma run_try_catch {A} env (t : Async.Task A) h w schedule e rest :
  let before := Async.run env schedule (Async.begin env t w) in
  let failed := Async.step env Async.resume_main before in
  Async.finished (Async.main before) = false ->
  Async.main failed = Async.Done (Thrown e) ->
  Async.run env (schedule ++ Async.resume_main :: rest)
    (Async.begin env (Async.try_catch t h) w) =
  Async.run env rest
    (Async.advance env (h e) (Async.closure failed) (Async.world failed)).
Proof.
  intros before failed Hrunning Hfailed.
  assert (Hstart : Async.finished (Async.main (Async.begin env t w)) = false)
    by (by eapply unfinished_before).
  assert (Hbegin : Async.begin env (Async.try_catch t h) w =
                   Async.caught h (Async.begin env t w)).
  { unfold Async.begin. rewrite advance_try_catch. simpl.
    unfold Async.begin in Hstart.
    by destruct (Async.main (Async.advance env t None w)) as [[a|e']| | | | | |]. }
  rewrite run_app, Hbegin, run_caught, run_cons, step_caught by done.
  cbv zeta. fold before. fold failed. by rewrite Hfailed.
Qed.

(** ** Tasks that can always be resumed *)

Lemma joinless_bind {A B} (t : Async.Task A) (k : A -> Async.Task B) :
  joinless t -> (forall a, joinless (k a)) -> joinless (t ≫= k).
Proof.
  unfold mbind, Async.Task_bind. intros Ht Hk.
  induction t as [r|r f IH|f IH|f t IH|t IH|body t IH|f IH]; simpl in *; eauto.
  by destruct r.
Qed.

Lemma joinless_lift {A} (s : Async.Script A) : joinless (Async.lift s).
Proof. induction s; simpl; eauto. Qed.

Lemma joinless_when_set x f :
  (forall v, joinless (f v)) -> joinless (Async.when_set x f).
Proof. intros Hf. unfold Async.when_set. destruct x; [destruct (truthy _)|]; done. Qed.

Lemma joinless_cancelWithoutCleanup : joinless Async.cancelWithoutCleanup.
Proof.
  intros w. apply joinless_bind; [|intros collector; apply joinless_bind; [|done]].
  - destruct (ResponseQueueUrl (resources w)), (resultCollectorPromise w); try done.
    destruct (truthy _); [|done]. apply joinless_bind; [apply joinless_lift|done].
  - apply joinless_when_set. intros url.
    apply joinless_bind; [apply joinless_lift|done].
Qed.

Lemma joinless_cleanup : joinless Async.cleanup.
Proof.
  intros w.
  repeat first
    [ apply joinless_cancelWithoutCleanup
    | apply joinless_lift
    | apply joinless_bind; [|intros ?]
    | apply joinless_when_set; intros ?
    | progress unfold Async.await_cancel
    | match goal with |- joinless (if ?b then _ else _) => destruct b end
    | match goal with |- joinless (match ?c with Some _ => _ | None => _ end) =>
        destruct c
      end
    | done ].
Qed.

Lemma joinless_initialize_catch e : joinless (Async.initialize_catch e).
Proof. apply joinless_bind; [apply joinless_cleanup|done]. Qed.

(** A task that awaits no closure settles when it is given its turns. *)
Lemma joinless_settles {A} env (t : Async.Task A) :
  joinless t -> forall c w, exists n,
    Async.finished
      (Async.main (Async.run env (main_only n) (Async.advance env t c w))) = true.
Proof.
  induction t as [r|r k IH|k IH|f k IH|k IH|body k IH|k IH];
    intros Ht c w; simpl in *.
  - by exists 0.
  - by apply IH.
  - by apply IH.
  - by apply IH.
  - destruct (IH Ht c w) as [n Hn]. by exists (S n).
  - destruct (Async.advance_script env body w) as [s w']. by apply IH.
  - done.
Qed.

(** ** What a task keeps *)

Lemma maintains_bind {A B} I (t : Async.Task A) (k : A -> Async.Task B) :
  maintains I t -> (forall a, maintains I (k a)) -> maintains I (t ≫= k).
Proof.
  unfold mbind, Async.Task_bind. intros Ht Hk.
  induction t as [r|r f IH|f IH|f t IH|t IH|body t IH|f IH]; simpl in *; eauto.
  - by destruct r.
  - destruct Ht. split; eauto.
Qed.

Lemma maintains_lift {A} I (s : Async.Script A) :
  grows I -> maintains I (Async.lift s).
Proof.
  intros HI. induction s as [r|r k IH|ev k IH|k IH]; simpl; [done|done| |done].
  split; [|done]. intros w Hw. rewrite emit_add_trace. by apply HI.
Qed.

Lemma wp_maintains {A} env I (t : Async.Task A) :
  grows I -> maintains I t -> forall w, I w -> wp env t (fun _ w' => I w') w.
Proof.
  intros HI. induction t as [r|r k IH|k IH|f k IH|k IH|body k IH|k IH];
    intros Ht w Hw; simpl in *.
  - done.
  - apply IH; [done|]. rewrite emit_add_trace. by apply HI.
  - by apply IH.
  - destruct Ht. eauto.
  - intros l. apply IH; [done|]. by apply HI.
  - intros l. apply IH; [done|]. by apply HI.
  - intros l r. apply IH; [done|]. by apply HI.
Qed.

(** A step that keeps [I], then the rest. *)
Lemma wp_maintains_bind {A B} env I (t : Async.Task A) (k : A -> Async.Task B)
    (Q : Res B -> World -> Prop) w :
  grows I -> maintains I t -> I w ->
  (forall e w', I w' -> Q (Thrown e) w') ->
  (forall a w', I w' -> wp env (k a) Q w') ->
  wp env (t ≫= k) Q w.
Proof.
  intros HI Ht Hw Hthrown Hk. apply wp_bind.
  eapply wp_mono; [|by apply (wp_maintains env I t)].
  intros [a|e] w' Hw'; simpl; eauto.
Qed.

Lemma grows_trying s tr0 : grows (trying s tr0).
Proof.
  intros w l (Hbase & Hnone & l0 & Hl0). split; [done|]. split; [done|].
  exists (l0 ++ l). simpl. by rewrite Hl0, app_assoc.
Qed.

Lemma trying_assign s tr0 f :
  (forall r, FunctionName (f r) = FunctionName r /\ RoleName (f r) = RoleName r /\
             rolePolicy (f r) = rolePolicy r /\ logGroupName (f r) = logGroupName r /\
             region (f r) = region r) ->
  maintains (trying s tr0) (Async.assign f).
Proof.
  intros Hf. split; [|done]. intros w ((H1 & H2 & H3 & H4 & H5 & H6) & Hnone & Htr).
  destruct (Hf (resources w)) as (E1 & E2 & E3 & E4 & E5).
  split; [|done]. unfold base_of. simpl. by rewrite E1, E2, E3, E4, E5.
Qed.

(** Whenever the [try] block of [initialize] throws, the manifest has
    the fields set first, and the state has no collector handle. *)
Lemma wp_initialize_try env fModule s w :
  trying s (trace w) w ->
  wp env (Async.initialize_try fModule s)
    (fun r w' => match r with
                 | Ok _ => True
                 | Thrown _ => trying s (trace w) w'
                 end) w.
Proof.
  intros Hw. pose proof (grows_trying s (trace w)) as HI.
  unfold Async.initialize_try.
  apply (wp_maintains_bind env (trying s (trace w)));
    [done|by apply maintains_lift|done|done|].
  intros _ w1 Hw1.
  apply (wp_maintains_bind env (trying s (trace w))); [done| |done|done|].
  { unfold Async.createDLQ.
    apply maintains_bind; [by apply maintains_lift|]. intros url.
    apply maintains_bind; [by apply trying_assign|]. intros _.
    apply maintains_bind; [by apply maintains_lift|]. intros response.
    by destruct (Attributes response). }
  intros DeadLetterQueueArn w2 Hw2.
  apply (wp_maintains_bind env (trying s (trace w))); [done|done|done|done|].
  intros _ w3 Hw3.
  apply (wp_maintains_bind env (trying s (trace w))); [done|done|done|done|].
  intros _ w4 Hw4.
  apply (wp_maintains_bind env (trying s (trace w))); [done| |done|done|].
  { destruct (s_useQueue s); [|done].
    apply maintains_bind; [by apply maintains_lift|]. intros snsRole.
    apply maintains_bind; [by apply maintains_lift|]. intros role.
    apply maintains_bind; [by apply trying_assign|]. intros _.
    apply maintains_bind; [by apply maintains_lift|]. intros topic.
    apply maintains_bind; [by apply trying_assign|]. intros _.
    apply maintains_bind; [by apply maintains_lift|]. intros queue.
    by apply trying_assign. }
  intros _ w5 Hw5.
  apply (wp_maintains_bind env (trying s (trace w))); [done|done|done|done|].
  intros FunctionArn w6 Hw6.
  destruct (s_useQueue s); [|done].
  apply (wp_maintains_bind env (trying s (trace w)));
    [done|intros w'; by apply maintains_lift|done|done|].
  intros _ w7 Hw7.
  apply (wp_maintains_bind env (trying s (trace w)));
    [done|intros w'; by apply maintains_lift|done|done|].
  intros snsRepsonse w8 Hw8.
  apply (wp_maintains_bind env (trying s (trace w)));
    [done|by apply trying_assign|done|done|].
  intros _ w9 Hw9. done.
Qed.

(** The [try] block of [initialize] does not throw before its first
    [await]. *)
Lemma initialize_try_begins env fModule s w :
  Async.finished
    (Async.main (Async.begin env (Async.initialize_try fModule s) w)) = false.
Proof. reflexivity. Qed.

Lemma trying_new_State s w :
  trying s (trace w) (new_State (initial_resources s) (Some (s_useQueue s)) w).
Proof. split; [done|]. split; [done|]. exists []. simpl. by rewrite app_nil_r. Qed.

(** ** What [cleanup] asks for *)

Lemma asks_ret env : asks env (mret tt) [].
Proof.
  intros w Q HQ. simpl. rewrite <- (add_trace_nil w). apply HQ.
  by intros req ?%elem_of_nil.
Qed.

Lemma asks_bind env t1 t2 reqs1 reqs2 :
  asks env t1 reqs1 -> asks env t2 reqs2 ->
  asks env (t1 ≫= fun _ => t2) (reqs1 ++ reqs2).
Proof.
  intros H1 H2 w Q HQ. apply wp_bind. apply H1. intros l1 Hl1. simpl.
  apply H2. intros l2 Hl2. rewrite add_trace_app. apply HQ.
  intros req [Hin|Hin]%elem_of_app; apply elem_of_app; eauto.
Qed.

Lemma asks_quietly env r :
  asks env (Async.lift (Async.quietly r) ≫= fun _ => mret tt) [r].
Proof.
  intros w Q HQ. apply wp_bind. apply wp_quietly. intros l o. simpl.
  apply HQ. intros req ->%list_elem_of_singleton. by left.
Qed.

Lemma asks_when_set env x f g :
  (forall v, asks env (f v) [g v]) -> asks env (Async.when_set x f) (recorded x g).
Proof.
  intros Hf. unfold Async.when_set, recorded.
  destruct x as [v|]; [destruct (truthy _)|]; auto using asks_ret.
Qed.

Lemma asks_deleteRole env name :
  asks env (Async.lift (Async.deleteRole name)) [IamDeleteRole name].
Proof.
  intros w Q HQ. unfold Async.deleteRole.
  apply wp_lift_bind, wp_carefully. intros l1 policies. cbv beta iota zeta.
  apply wp_lift_bind, wp_all_carefully. intros l2. cbv beta iota zeta.
  apply wp_lift_bind, wp_carefully. intros l3 response. cbv beta iota zeta.
  apply wp_lift_bind, wp_all_carefully. intros l4. cbv beta iota zeta.
  apply wp_lift_bind, wp_carefully. intros l5 deleted. cbv beta iota zeta.
  cbn [wp Async.lift mret Async.Script_ret].
  rewrite !add_trace_app. apply HQ.
  intros req ->%list_elem_of_singleton.
  rewrite !elem_of_app, !elem_of_cons. eauto 10.
Qed.

Lemma asks_when_temporary env (temporary : bool) x :
  asks env
    (Async.when_set x
       (fun name => if temporary then Async.lift (Async.deleteRole name) else mret tt))
    (if temporary then recorded x IamDeleteRole else []).
Proof.
  destruct temporary.
  - apply asks_when_set. intros name. apply asks_deleteRole.
  - unfold Async.when_set. destruct x; [destruct (truthy _)|]; apply asks_ret.
Qed.

Lemma asks_await_nothing env : asks env (Async.await_cancel None) [].
Proof. intros w Q HQ. simpl. intros l. apply HQ. by intros req ?%elem_of_nil. Qed.

(** Without a collector handle, [cancelWithoutCleanup] has no collector
    to wait for. *)
Lemma wp_cancelWithoutCleanup env (Q : Res (option nat) -> World -> Prop) w :
  resultCollectorPromise w = None ->
  (forall l, Q (Ok None) (add_trace l w)) ->
  wp env Async.cancelWithoutCleanup Q w.
Proof.
  intros Hnone HQ. unfold Async.cancelWithoutCleanup. cbn [wp]. rewrite Hnone.
  apply wp_bind.
  assert (Hfirst : forall (P : Res (option nat) -> World -> Prop),
            P (Ok None) w ->
            wp env
              match ResponseQueueUrl (resources w) with
              | Some _ | _ => mret None
              end P w).
  { intros P HP. by destruct (ResponseQueueUrl (resources w)). }
  apply Hfirst. simpl. apply wp_bind.
  unfold Async.when_set.
  destruct (DeadLetterQueueUrl (resources w)) as [url|]; [destruct (truthy _)|];
    simpl.
  - rewrite emit_add_trace. apply HQ.
  - rewrite <- (add_trace_nil w). apply HQ.
  - rewrite <- (add_trace_nil w). apply HQ.
Qed.

(** Without a collector handle, [cleanup] returns, and it has asked for
    the deletion of every resource that the manifest records. *)
Lemma wp_cleanup env (Q : Res unit -> World -> Prop) w :
  resultCollectorPromise w = None ->
  (forall l,
     (forall req, req ∈ recorded_deletions (resources w) -> EvReq req ∈ l) ->
     Q (Ok tt) (add_trace l w)) ->
  wp env Async.cleanup Q w.
Proof.
  intros Hnone HQ. unfold Async.cleanup. cbn [wp].
  set (r := resources w).
  apply wp_bind.
  apply (asks_when_set env _ _ SnsUnsubscribe); [intros arn; apply asks_quietly|].
  intros l1 Hl1. cbv beta iota.
  apply wp_bind. apply wp_cancelWithoutCleanup; [done|]. intros l2. cbv beta iota.
  match goal with |- wp env ?t _ _ =>
    assert (Hrest : asks env t
              (recorded (FunctionName r) LambdaDeleteFunction
               ++ recorded (logGroupName r) LogsDeleteLogGroup
               ++ (if bool_decide (rolePolicy r = Some createTemporaryRole)
                   then recorded (RoleName r) IamDeleteRole else [])
               ++ (if bool_decide (rolePolicy r = Some createTemporaryRole)
                   then recorded (SNSFeedbackRole r) IamDeleteRole else [])
               ++ []
               ++ recorded (RequestTopicArn r) SnsDeleteTopic
               ++ recorded (ResponseQueueUrl r) SqsDeleteQueue
               ++ recorded (DeadLetterQueueUrl r) SqsDeleteQueue))
  end.
  { apply asks_bind; [apply asks_when_set; intros ?; apply asks_quietly|].
    apply asks_bind; [apply asks_when_set; intros ?; apply asks_quietly|].
    apply asks_bind; [apply asks_when_temporary|].
    apply asks_bind; [apply asks_when_temporary|].
    apply asks_bind; [apply asks_await_nothing|].
    apply asks_bind; [apply asks_when_set; intros ?; apply asks_quietly|].
    apply asks_bind; [apply asks_when_set; intros ?; apply asks_quietly|].
    apply asks_when_set; intros ?; apply asks_quietly. }
  apply Hrest. intros l3 Hl3. rewrite !add_trace_app. apply HQ.
  intros req Hreq. unfold recorded_deletions in Hreq. fold r in Hreq.
  rewrite !elem_of_app. rewrite elem_of_app in Hreq.
  destruct Hreq as [Hreq|Hreq]; [by auto|].
  assert (Hin : EvReq req ∈ l3); [|by auto].
  apply Hl3. revert Hreq. rewrite !elem_of_app.
  destruct (bool_decide (rolePolicy r = Some createTemporaryRole));
    rewrite ?elem_of_app; intros Hreq; destruct_or?; eauto 10.
Qed.

(** After the [try] block threw [e]: whatever the closure does, the
    [catch] block throws [e], and by then it has asked for the deletion
    of every resource that the manifest records. *)
Lemma wp_initialize_catch env e w :
  resultCollectorPromise w = None ->
  wp env (Async.initialize_catch e)
    (fun r w' =>
       r = Thrown e /\
       exists l, w' = add_trace l w /\
         forall req, req ∈ recorded_deletions (resources w) -> EvReq req ∈ l) w.
Proof.
  intros Hnone. unfold Async.initialize_catch. apply wp_bind.
  apply wp_cleanup; [done|]. intros l Hl. simpl. split; [done|]. by exists l.
Qed.

Lemma stable_torn_down e w :
  stable (fun (r : Res unit) w' =>
            r = Thrown e /\
            exists l, w' = add_trace l w /\
              forall req, req ∈ recorded_deletions (resources w) -> EvReq req ∈ l).
Proof.
  intros r w' l' (Hr & l & -> & Hl). split; [done|]. exists (l ++ l').
  rewrite add_trace_app. split; [done|]. intros req Hreq.
  apply elem_of_app. left. by apply Hl.
Qed.

Lemma stable_trying s tr0 :
  stable (fun (r : Res unit) w' =>
            match r with Ok _ => True | Thrown _ => trying s tr0 w' end).
Proof. intros [[]|e] w l; [done|]. apply grows_trying. Qed.

(* ================================================================== *)
(** * Part VII: the specification's properties                         *)
(* ================================================================== *)

(** C1. Correlation. In every state the event loop can reach, a deferred
    that is resolved holds the response taken from a message that carries
    the [CallId] under which this deferred was enqueued, with the parse of
    that message's body as its return, and the deferred was enqueued under
    no other [CallId]. When a batch of replies is received, the deferred
    pending under a [CallId] is resolved, once the batch's timer fires,
    with the first reply of the batch that carries this [CallId]. A reply
    whose [CallId] is not in the map leaves the map and the other results
    of the batch as they are, and resolving it only adds the log line
    "Deferred promise not found". *)
Theorem correlation w :
  reachable w ->
  (forall d r, deferreds w !! d = Some (Resolved r) ->
     exists CallId,
       (CallId, d) ∈ enqueuings (trace w) /\ answers CallId r /\
       forall CallId', (CallId', d) ∈ enqueuings (trace w) -> CallId' = CallId) /\
  (forall before m after CallId fr d,
     (forall m', m' ∈ before ++ m :: after -> exists c f, is_reply m' c f) ->
     is_reply m CallId fr ->
     (forall m', m' ∈ before -> CallId_of m' <> Ok (Some CallId)) ->
     Map_get (callResultPromises w) CallId = Some d ->
     deferreds w !! d = Some Pending ->
     exists callResults w',
       collect (before ++ m :: after) [] w = Batch callResults w' /\
       deferreds (resolvePromises callResults w') !! d =
       Some (Resolved (mkQueued fr m))) /\
  (forall m CallId fr Messages callResults results w',
     is_reply m CallId fr ->
     Map_get (callResultPromises w) CallId = None ->
     collect (m :: Messages) callResults w =
     collect Messages (callResults ++ [mkCallResults (Some CallId) m None]) w /\
     exists w'',
       resolvePromises (mkCallResults (Some CallId) m None :: results) w' =
       resolvePromises results w'' /\
       frame w' w'' /\ deferreds w'' = deferreds w' /\
       EvLog (LogDeferredNotFound (Some CallId)) ∈ trace w'').
Proof.
  intros Hreach.
  destruct (reachable_correlated w Hreach) as (Hmap & _ & Hstore & _ & Huniq).
  split; [|split].
  - intros d r Hd. destruct (Hstore d r Hd) as (cid & Hin & Hans).
    exists cid. split; [done|]. split; [done|].
    intros cid' Hin'. by eapply Huniq.
  - intros before m after cid fr d Hall Hm Hfirst Hget Hpending.
    destruct (collect_delivers before m after cid fr d [] w Hall Hm Hfirst Hget)
      as (crs & w' & Hcollect & Hd & Hres).
    { intros cid' Hget'. eapply Huniq; by apply Hmap. }
    exists crs, w'. split; [exact Hcollect|]. apply Hres. by rewrite Hd.
  - intros m cid fr Messages callResults results w' Hm Hget.
    split; [by eapply collect_unknown|].
    rewrite (resolvePromises_reply _ _ _ _ _ _ Hm).
    eexists. split; [reflexivity|]. cbv zeta.
    destruct (truthy (Some cid)); simpl.
    + split; [by unfold frame|]. split; [done|].
      apply elem_of_app. right. by apply list_elem_of_singleton.
    + split; [by unfold frame|]. split; [done|].
      apply elem_of_app. right. by apply list_elem_of_singleton.
Qed.

(** C2, as amended. Registration before publish. In queue mode the
    returned function runs, in its first turn and in this order: the
    deferred is created and logged, it is put into the map under the
    [CallId], the collector is started when the state holds no collector
    handle (its first poll is issued), and then the call is published to
    the request topic; the function's first suspension is the [await] of
    that publish. When the publish is issued the map holds the deferred,
    still pending, and the state holds a collector handle. As long as no
    poll of a collector has failed, a handle is held exactly while a
    collector runs: the collector is then started if and only if none is
    running, and one is running when the publish is issued. *)
Theorem registration_before_publish fn_name args CallId w :
  useQueue w = Some true ->
  let call := mkFunctionCall fn_name args CallId (ResponseQueueUrl (resources w)) in
  let d := length (deferreds w) in
  exists started w',
    responsifedFunc fn_name args CallId w = (AwaitPublish d, w') /\
    trace w' =
      trace w ++ [EvLog (LogCalling call); EvLog (LogEnqueuing CallId d)] ++ started
      ++ [EvReq (SnsPublish (RequestTopicArn (resources w)) call)] /\
    Map_get (callResultPromises w') CallId = Some d /\
    deferreds w' !! d = Some Pending /\
    match resultCollectorPromise w with
    | None =>
        started =
          [EvLog (LogPolling (length (callResultPromises w')) (ResponseQueueUrl (resources w)));
           EvReq (SqsReceiveMessage (ResponseQueueUrl (resources w)) 20 10 ["All"])] /\
        collectors w' = spawned w :: collectors w /\
        resultCollectorPromise w' = Some (spawned w)
    | Some handle =>
        started = [] /\ collectors w' = collectors w /\
        resultCollectorPromise w' = Some handle
    end /\
    (polled_reachable w ->
     (resultCollectorPromise w = None <-> collectors w = []) /\
     exists c, collectors w' = [c] /\ resultCollectorPromise w' = Some c).
Proof.
  intros Hqueue call d.
  assert (Hlive : polled_reachable w ->
            (resultCollectorPromise w = None <-> collectors w = []) /\
            exists c,
              collectors (snd (responsifedFunc fn_name args CallId w)) = [c] /\
              resultCollectorPromise (snd (responsifedFunc fn_name args CallId w)) =
                Some c).
  { intros Hw. pose proof (polled_reachable_handle_live w Hw) as Hlive. split.
    - destruct Hlive as [[Hc Hh]|(c & Hc & Hh)]; rewrite Hc, Hh; by split.
    - pose proof (handle_live_call fn_name args CallId w Hlive) as Hlive'.
      destruct Hlive' as [[_ Hnone]|Hsome]; [|exact Hsome].
      exfalso. revert Hnone. unfold responsifedFunc.
      rewrite bool_decide_eq_true_2 by done. rewrite enqueueCallRequest_run.
      cbn [fst snd emit resultCollectorPromise].
      match goal with |- context [startResultCollectorIfNeeded ?x] =>
        destruct (startResultCollectorIfNeeded_spec x)
          as [(_ & _ & _ & ->)|[[Hempty|[h Hh]] ->]]
      end; [done| |].
      + by apply Map_set_nonempty in Hempty.
      + simpl in Hh. simpl. congruence. }
  unfold responsifedFunc in *.
  rewrite bool_decide_eq_true_2 in Hlive |- * by done.
  rewrite enqueueCallRequest_run in Hlive |- *.
  match goal with |- context [startResultCollectorIfNeeded ?x] => set (w1 := x) in * end.
  assert (Hget1 : Map_get (callResultPromises w1) CallId = Some d).
  { unfold w1. simpl. by rewrite Map_get_set, String.eqb_refl. }
  assert (Hd1 : deferreds w1 !! d = Some Pending).
  { unfold w1, d. simpl. rewrite lookup_app_r by lia. by rewrite Nat.sub_diag. }
  assert (Hmap1 : callResultPromises w1 <> []) by apply Map_set_nonempty.
  rewrite (startResultCollectorIfNeeded_run w1 Hmap1) in Hlive |- *.
  change (resultCollectorPromise w1) with (resultCollectorPromise w) in Hlive |- *.
  destruct (resultCollectorPromise w) as [handle|] eqn:Hhandle.
  - exists [], (emit (EvReq (SnsPublish (RequestTopicArn (resources w)) call)) w1).
    split; [done|]. split; [|done].
    unfold w1. simpl. by rewrite <- !app_assoc.
  - eexists
      [EvLog (LogPolling (length (callResultPromises w1))
                (ResponseQueueUrl (resources w)));
       EvReq (SqsReceiveMessage (ResponseQueueUrl (resources w)) 20 10 ["All"])],
      _.
    split; [reflexivity|]. split.
    + unfold w1. simpl. by rewrite <- !app_assoc.
    + split; [exact Hget1|]. split; [exact Hd1|]. split; [done|exact Hlive].
Qed.

(** C3, as amended. At most one collector. In every state the event loop
    can reach there is at most one collector task; a collector task is the
    one the handle names, and there is none while the map is empty. As
    long as no poll has failed and no stop sentinel has been received,
    there is a collector task exactly when the map is not empty. A caller
    that finds no handle starts a collector, and a collector that finds
    the map empty clears the handle and schedules the restart check. *)
Theorem at_most_one_collector w :
  reachable w ->
  length (collectors w) <= 1 /\
  (forall c, c ∈ collectors w -> resultCollectorPromise w = Some c) /\
  (callResultPromises w = [] -> collectors w = []) /\
  (calm_reachable w -> (collectors w = [] <-> callResultPromises w = [])) /\
  (forall CallId,
     resultCollectorPromise w = None ->
     collectors (snd (enqueueCallRequest CallId w)) = [spawned w] /\
     resultCollectorPromise (snd (enqueueCallRequest CallId w)) = Some (spawned w)) /\
  (forall c w0,
     callResultPromises w0 = [] ->
     resultCollectorPromise (resultCollector_loop c w0) = None /\
     timers (resultCollector_loop c w0) =
       timers w0 ++ [TStartResultCollectorIfNeeded] /\
     collectors (resultCollector_loop c w0) = collectors w0).
Proof.
  intros Hreach. pose proof (reachable_collector_inv w Hreach) as Hinv.
  split; [|split; [|split; [|split; [|split]]]].
  - destruct Hinv as [->|(c & -> & _)]; simpl; lia.
  - intros c Hc. destruct Hinv as [Hnil|(c' & Hcs & Hh & _)].
    + rewrite Hnil in Hc. by apply elem_of_nil in Hc.
    + rewrite Hcs in Hc. by apply list_elem_of_singleton in Hc as ->.
  - intros Hmap. by destruct Hinv as [?|(c & _ & _ & ?)].
  - intros Hcalm.
    destruct (calm_reachable_collector_exact w Hcalm)
      as [(Hc & _ & Hm)|(c & Hc & _ & Hm)]; [done|].
    rewrite Hc. split; [done|]. intros Hmap. by rewrite Hmap in Hm.
  - intros CallId Hnone. rewrite enqueueCallRequest_run. cbn [snd].
    rewrite startResultCollectorIfNeeded_run by apply Map_set_nonempty.
    simpl. rewrite Hnone. simpl.
    destruct Hinv as [->|(c & _ & Hsome & _)]; [done|congruence].
  - intros c w0 Hmap.
    destruct (resultCollector_loop_spec c w0) as [(Hne & _)|(_ & Hc & Hh & Ht)]; done.
Qed.

(** C4. The stop sentinel after a reply in one batch. Two calls are
    pending; the collector receives the reply to the first and, behind it
    in the same batch, the stop sentinel. The second call is rejected and
    the collector ends; the first call has left the map, its result was
    collected and is dropped by the [return], no timer is scheduled: its
    deferred is pending, and stays pending whatever the event loop does
    afterwards. *)
Theorem stop_sentinel_strands_collected_reply :
  let w := resultCollector_resume 0
             (Ok (Some [sample_reply "c1" "2"; sample_stop])) sample_two_calls in
  callResultPromises sample_two_calls = [("c1", 0); ("c2", 1)] /\
  deferreds sample_two_calls = [Pending; Pending] /\
  collectors sample_two_calls = [0] /\
  deferreds w =
    [Pending; Rejected (new_Error "Call to cloud function cancelled in cleanup")] /\
  callResultPromises w = [("c2", 1)] /\
  timers w = [] /\ collectors w = [] /\ resultCollectorPromise w = None /\
  forall w', steps w w' -> deferreds w' !! 0 = Some Pending.
Proof.
  intros w.
  assert (Hd : deferreds w =
    [Pending; Rejected (new_Error "Call to cloud function cancelled in cleanup")])
    by (by vm_compute).
  assert (Hm : callResultPromises w = [("c2", 1)]) by (by vm_compute).
  assert (Ht : timers w = []) by (by vm_compute).
  split; [by vm_compute|]. split; [by vm_compute|]. split; [by vm_compute|].
  split; [exact Hd|]. split; [exact Hm|]. split; [exact Ht|].
  split; [by vm_compute|]. split; [by vm_compute|].
  intros w' Hsteps.
  eapply stranded_steps in Hsteps as [Hpending _]; [exact Hpending|].
  unfold stranded. rewrite Hd, Hm, Ht. split; [done|]. split.
  - intros k v [= _ ->]%list_elem_of_singleton. lia.
  - by intros results cr ?%elem_of_nil.
Qed.

(** C5. Result mapping. Whatever [FunctionReturn] the call brings back,
    in queue mode and in direct mode, the returned function returns a
    response and does not throw: a return of type error gives the [error]
    field, an [Error] with the name, message and stack of the return; a
    return of type value gives the [value] field; [rawResponse] is the
    message received in queue mode and the response of [lambda.invoke] in
    direct mode. In direct mode a response with [FunctionError] set gives
    the [error] field too, an [Error] with the payload as its message. *)
Theorem invoke_result_mapping (fr : FunctionReturn) :
  let value :=
    match fr with FRValue v => VJson v | FRError _ => VFalse end in
  let error :=
    match fr with
    | FRValue _ => None
    | FRError e => Some (mkError (ev_name e) (ev_message e) (ev_stack e))
    end in
  (forall snsResponse m,
     responsifedFunc_queue (Fulfilled snsResponse) (Resolved (mkQueued fr m)) =
     Some (Ok (mkResponse value error (RawMessage m)))) /\
  (forall raw payload,
     truthy (FunctionError raw) = false ->
     Payload raw = Some payload -> payload <> "" ->
     JSON_parse payload = Some fr ->
     responsifedFunc_direct (Ok raw) =
     Ok (mkResponse value error (RawInvocation raw))) /\
  (forall raw,
     truthy (FunctionError raw) = true ->
     responsifedFunc_direct (Ok raw) =
     Ok (mkResponse VFalse (Some (new_Error (default "" (Payload raw))))
           (RawInvocation raw))).
Proof.
  split; [|split].
  - intros snsResponse m. by destruct fr.
  - intros raw payload Hok Hpayload Hne Hparse. unfold responsifedFunc_direct.
    rewrite Hok, Hpayload.
    destruct (String.eqb payload "") eqn:Heq; [by apply String.eqb_eq in Heq|].
    rewrite Hparse. by destruct fr.
  - intros raw Herr. unfold responsifedFunc_direct. by rewrite Herr.
Qed.

(** C6. Partial-failure teardown, in every schedule of the main flow
    and the closure. When a turn of the main flow makes the [try] block
    of [initialize] throw [e] (a step of the main flow failed, or the
    promise of the closure that it awaited was rejected, as it is after
    the name-collision probe), then within that turn [initialize] calls
    [cleanup] on the state as the block left it, beside the closure if
    that is still in flight. However the turns go on from there,
    [initialize] settles only after [cleanup] has asked for the deletion
    of every resource that the manifest recorded at the failure (the
    roles when they are temporary), and what it then does is throw [e].
    It does settle, once the main flow has had enough turns. The block
    never throws before its first [await], so every failure of it is the
    failure of a turn. What the closure does after the teardown is not
    part of this statement. *)
Theorem initialize_partial_failure_teardown fModule options nonce env w schedule e :
  let s := settings options nonce in
  let w0 := new_State (initial_resources s) (Some (s_useQueue s)) w in
  let before :=
    Async.run env schedule (Async.begin env (Async.initialize_try fModule s) w0) in
  let failed := Async.step env Async.resume_main before in
  Async.finished (Async.main before) = false ->
  Async.main failed = Async.Done (Thrown e) ->
  (forall rest,
     let c := Async.run env (schedule ++ Async.resume_main :: rest)
                (Async.begin env (Async.initialize fModule options nonce) w) in
     c = Async.run env rest
           (Async.advance env (Async.cleanup ≫= fun _ => mthrow e)
              (Async.closure failed) (Async.world failed)) /\
     forall r, Async.main c = Async.Done r ->
       r = Thrown e /\
       exists l,
         Async.world c = add_trace l (Async.world failed) /\
         forall req, req ∈ recorded_deletions (resources (Async.world failed)) ->
           EvReq req ∈ l) /\
  exists n,
    Async.main
      (Async.run env (schedule ++ Async.resume_main :: main_only n)
         (Async.begin env (Async.initialize fModule options nonce) w)) =
    Async.Done (Thrown e).
Proof.
  intros s w0 before failed Hrunning Hfailed.
  assert (Hcatch : forall rest,
            Async.run env (schedule ++ Async.resume_main :: rest)
              (Async.begin env (Async.initialize fModule options nonce) w) =
            Async.run env rest
              (Async.advance env (Async.initialize_catch e)
                 (Async.closure failed) (Async.world failed))).
  { intros rest.
    change (Async.begin env (Async.initialize fModule options nonce) w)
      with (Async.begin env
              (Async.try_catch (Async.initialize_try fModule s) Async.initialize_catch)
              w0).
    by apply run_try_catch. }
  assert (Htrying : trying s (trace w0) (Async.world failed)).
  { unfold failed, before in Hfailed |- *. rewrite <- run_snoc in Hfailed |- *.
    apply (wp_sound env (Async.initialize_try fModule s)
             (fun r w' => match r with
                          | Ok _ => True
                          | Thrown _ => trying s (trace w0) w'
                          end) None w0 _ (Thrown e));
      [apply stable_trying|apply wp_initialize_try, trying_new_State|exact Hfailed]. }
  destruct Htrying as (_ & Hnone & _).
  assert (Hsound : forall rest r,
            Async.main
              (Async.run env rest
                 (Async.advance env (Async.initialize_catch e)
                    (Async.closure failed) (Async.world failed))) = Async.Done r ->
            r = Thrown e /\
            exists l,
              Async.world
                (Async.run env rest
                   (Async.advance env (Async.initialize_catch e)
                      (Async.closure failed) (Async.world failed))) =
              add_trace l (Async.world failed) /\
              forall req, req ∈ recorded_deletions (resources (Async.world failed)) ->
                EvReq req ∈ l).
  { intros rest r Hr.
    by apply (wp_sound env (Async.initialize_catch e) _ _ _ rest r
                (stable_torn_down e (Async.world failed))
                (wp_initialize_catch env e (Async.world failed) Hnone)). }
  split.
  - intros rest c. subst c. rewrite Hcatch. split; [done|]. apply Hsound.
  - destruct (joinless_settles env _ (joinless_initialize_catch e)
                (Async.closure failed) (Async.world failed)) as [n Hn].
    exists n. rewrite Hcatch.
    destruct (Async.main _) as [r| | | | | |] eqn:Hmain in Hn |- *; try done.
    by destruct (Hsound _ _ Hmain) as [-> _].
Qed.


(** C8. Bounded poll-until-success. [pollAWSRequest n] first sleeps 2000
    ms, then makes at most [n] attempts: an attempt that the provider fails
    (with whatever error) is followed by a sleep of 1000 ms and the next
    attempt; the result of the first attempt that succeeds is returned;
    when all [n] attempts failed, the error "Polling failed" is thrown. It
    returns or throws for every environment. Both callers pass 100. *)
Theorem pollAWSRequest_bounded env n description fn w :
  exists k, k <= n /\
    (forall j, j < k ->
       exists e,
         env (trace w ++ EvSleep 2000 :: failed_attempts fn j) (fn tt) = Failed e) /\
    ((exists d, k < n /\
        env (trace w ++ EvSleep 2000 :: failed_attempts fn k) (fn tt) = Fulfilled d /\
        pollAWSRequest n description fn env w =
        (Ok (Some d),
         add_trace (EvSleep 2000 :: failed_attempts fn k ++ [EvReq (fn tt)]) w)) \/
     (k = n /\
        pollAWSRequest n description fn env w =
        (Thrown (new_Error "Polling failed for ${description}"),
         add_trace (EvSleep 2000 :: failed_attempts fn n) w))).
Proof. apply pollAWSRequest_run. Qed.

(** C9, as amended. [cleanupResources]. Take the manifest string that
    [getResourceList] gives for a state, parsed back to that state's
    manifest. When the region is missing or the empty string,
    [cleanupResources] throws "Resources missing 'region'" before anything
    is sent. Otherwise it is [cleanup] on a fresh state that holds the
    parsed manifest, no pending call and no collector handle: this
    [cleanup] runs to its end, asks for every deletion the manifest calls
    for, and every resource deletion that [cleanup] on the live state asks
    for, in whatever environment, is among its requests. *)
Theorem cleanupResources_contract live env env' w :
  JSON_parse_resources (getResourceList live) = Some (resources live) ->
  if truthy (region (resources live)) then
    cleanupResources (getResourceList live) env w =
      cleanup env (new_State (resources live) None w) /\
    exists l,
      cleanupResources (getResourceList live) env w =
        (Ok tt, add_trace l (new_State (resources live) None w)) /\
      (forall req, req ∈ recorded_deletions (resources live) -> EvReq req ∈ l) /\
      (forall l' req,
         snd (cleanup env' live) = add_trace l' live ->
         resource_deletion req = true -> EvReq req ∈ l' -> EvReq req ∈ l)
  else
    cleanupResources (getResourceList live) env w =
      (Thrown (new_Error "Resources missing 'region'"), w).
Proof.
  intros Hparse. unfold cleanupResources. rewrite Hparse.
  destruct (truthy (region (resources live))) eqn:Hregion; cbn [negb]; [|done].
  erewrite bind_ok by reflexivity. split; [done|].
  set (w0 := new_State (resources live) None w).
  destruct (cleanup_quiet_run env w0 eq_refl) as (l & Hrun & Hall).
  exists l. split; [exact Hrun|]. split; [exact Hall|].
  intros l' req Hl' Hdel Hin. apply Hall. change (resources w0) with (resources live).
  destruct (cleanup_run env' live) as (roles & feedback & Hroles & Hfeedback & Hlive).
  assert (Hsub : forall ev, ev ∈ l' ->
            ev ∈ cleanup_head live roles feedback ++ cleanup_tail (resources live) \/
            exists h, ev = EvReq (AwaitResultCollector h)).
  { destruct (awaited_collector live) as [h|].
    - destruct (env' _ _); rewrite Hlive in Hl'; simpl in Hl';
        apply (f_equal trace) in Hl'; simpl in Hl'; apply app_inv_head in Hl';
        subst l'; intros ev; rewrite !elem_of_app, ?elem_of_cons, ?elem_of_nil;
        intros Hev; destruct_or?; eauto 10.
    - rewrite Hlive in Hl'. simpl in Hl'.
      apply (f_equal trace) in Hl'. simpl in Hl'. apply app_inv_head in Hl'.
      subst l'. intros ev Hev. by left. }
  destruct (Hsub _ Hin) as [Hev|[h [= ->]]]; [|done].
  by eapply cleanup_events_recorded.
Qed.

(** C10. The check after the poll in [createSNSNotifier] never fails.
    What [pollAWSRequest] returns is never falsy, so the branch of
    [createSNSNotifier] that throws "Could not initialize lambda execution
    role" is not taken: [createSNSNotifier] returns the ARN of the topic
    it created, or throws the error of [createTopic], or throws the error
    of the exhausted poll. *)
Theorem createSNSNotifier_check_never_fails env Name RoleArn w :
  (forall n description fn w0,
     fst (pollAWSRequest n description fn env w0) <> Ok None) /\
  match env (trace w) (SnsCreateTopic Name) with
  | Failed e =>
      createSNSNotifier Name RoleArn env w =
      (Thrown e, add_trace [EvReq (SnsCreateTopic Name)] w)
  | Fulfilled topic =>
      exists w',
        createSNSNotifier Name RoleArn env w = (Ok (TopicArn topic), w') \/
        createSNSNotifier Name RoleArn env w =
        (Thrown (new_Error "Polling failed for ${description}"), w')
  end.
Proof.
  split; [intros; apply pollAWSRequest_truthy|].
  unfold createSNSNotifier.
  pose proof (promise_run env w (SnsCreateTopic Name)) as Hcreate.
  destruct (env (trace w) (SnsCreateTopic Name)) as [topic|e].
  - erewrite bind_ok by exact Hcreate.
    match goal with |- context [pollAWSRequest ?n ?d ?f] =>
      destruct (pollAWSRequest_run env n d f (add_trace [EvReq (SnsCreateTopic Name)] w))
        as (k & _ & _ & [(data & _ & _ & Hrun)|[_ Hrun]])
    end.
    + eexists. left. by erewrite bind_ok by exact Hrun.
    + eexists. right. by erewrite bind_thrown by exact Hrun.
  - by erewrite bind_thrown by exact Hcreate.
Qed.

(* ================================================================== *)
(** * Part VII, continued: further properties of the code              *)
(* ================================================================== *)

(** ** The stop sentinel *)

(** X1. The stop message round trip. [sendQueueStopMessage] sends one
    message and never throws, whether the send fails or not; a message
    that arrives with the body and the attributes of what it sent is a
    stop message for [isQueueStopMessage]; a message without attributes,
    or whose attributes hold only the [CallId] of a reply, is not. *)
Theorem stop_sentinel_round_trip QueueUrl env w :
  exists body attributes sent,
    sendQueueStopMessage QueueUrl env w =
      (Ok sent, add_trace [EvReq (SqsSendMessage QueueUrl body attributes)] w) /\
    (forall id receipt,
       isQueueStopMessage (mkMessage id receipt (Some body) (Some attributes)) = true) /\
    (forall id receipt b,
       isQueueStopMessage (mkMessage id receipt b None) = false) /\
    (forall id receipt b CallId,
       isQueueStopMessage
         (mkMessage id receipt b (Some [("CallId", mkAttr "String" CallId)])) = false).
Proof.
  eexists _, _, _. split; [unfold sendQueueStopMessage; apply carefully_run|].
  split; [done|]. split; done.
Qed.

Lemma settle_absent d st w d0 :
  deferreds w !! d0 = None -> deferreds (settle d st w) !! d0 = None.
Proof.
  intros Hnone. destruct (deferreds (settle d st w) !! d0) as [x|] eqn:Hx; [|done].
  apply settle_cases in Hx as [Hx|(-> & _ & Hx)]; congruence.
Qed.

Lemma fold_reject_spec e d (m : list (string * nat)) : forall w,
  deferreds
    (fold_left
       (fun w kv => reject (snd kv) e (emit (EvLog (LogRejectingCall (fst kv))) w))
       m w) !! d =
  match deferreds w !! d with
  | Some Pending => if held d m then Some (Rejected e) else Some Pending
  | settled => settled
  end.
Proof.
  induction m as [|[k v] m IH]; intros w; simpl.
  - by destruct (deferreds w !! d) as [[]|].
  - rewrite IH. unfold reject. destruct (decide (v = d)) as [->|Hne].
    + rewrite Nat.eqb_refl. simpl.
      destruct (deferreds w !! d) as [[]|] eqn:Hd.
      * by rewrite settle_pending.
      * by erewrite settle_settled by done.
      * by erewrite settle_settled by done.
      * by rewrite settle_absent.
    + rewrite settle_other by done. simpl.
      by apply Nat.eqb_neq in Hne as ->.
Qed.

(** X2. [rejectAll]. Every deferred that is pending and held by an entry
    of the map is rejected with the cancellation error; a deferred that
    is settled already, or that no entry holds, stays as it is; the
    entries themselves stay in the map. *)
Theorem rejectAll_rejects_what_the_map_holds w d :
  deferreds (rejectAll w) !! d = after_rejectAll w d /\
  callResultPromises (rejectAll w) = callResultPromises w /\
  length (deferreds (rejectAll w)) = length (deferreds w).
Proof.
  split; [|split].
  - unfold rejectAll, after_rejectAll, cancelled. by rewrite fold_reject_spec.
  - by destruct (frame_rejectAll w) as (_ & _ & ? & _).
  - by destruct (same_calls_rejectAll w).
Qed.

(** X3. The stop sentinel first in its batch. The collector rejects
    every pending deferred the map holds, clears the handle and ends; it
    schedules nothing, and the messages behind the sentinel are not
    looked at. *)
Theorem stop_sentinel_first_cancels_everything c m Messages w :
  isQueueStopMessage m = true ->
  let w' := resultCollector_resume c (Ok (Some (m :: Messages))) w in
  (forall d, deferreds w' !! d = after_rejectAll w d) /\
  callResultPromises w' = callResultPromises w /\
  resultCollectorPromise w' = None /\
  collectors w' = List.filter (fun c' => negb (c' =? c)) (collectors w) /\
  timers w' = timers w.
Proof.
  intros Hstop w'. unfold w', resultCollector_resume.
  cbv zeta. cbn [from_option id collect]. rewrite Hstop.
  match goal with |- context [rejectAll ?x] => set (w1 := x) end.
  destruct (frame_rejectAll w1) as (_ & _ & Hm & _ & Hc & _ & Ht).
  split; [|by split].
  intros d. cbn [collector_cleanup set_resultCollectorPromise deferreds].
  unfold rejectAll, after_rejectAll, cancelled. by rewrite fold_reject_spec.
Qed.

(** ** What [resolvePromises] does not deliver *)

(** What [resolvePromises] does to the deferreds depends on the
    deferreds only. *)
Lemma resolvePromises_deferreds_ext results : forall w w1,
  deferreds w1 = deferreds w ->
  deferreds (resolvePromises results w1) = deferreds (resolvePromises results w).
Proof.
  induction results as [|[c0 m0 d0] results IH]; intros w w1 Hsame; [done|].
  cbn [resolvePromises].
  destruct (negb (truthy (Body m0))).
  - destruct (truthy c0); by apply IH.
  - destruct (JSON_parse _).
    + destruct d0 as [d0|].
      * destruct (truthy c0); apply IH; unfold resolve, settle; simpl;
          rewrite Hsame; by destruct (deferreds w !! d0) as [[]|].
      * destruct (truthy c0); by apply IH.
    + by destruct (truthy c0).
Qed.

(** X4. A result whose message has no body, or an empty one, is passed
    over: its deferred is not settled by it. A result whose body does not
    parse makes the callback throw: neither its deferred nor the deferred
    of any result behind it in the batch is settled, and the exception is
    uncaught. *)
Theorem resolvePromises_undelivered CallId message deferred results w :
  (truthy (Body message) = false ->
   deferreds (resolvePromises (mkCallResults CallId message deferred :: results) w) =
   deferreds (resolvePromises results w)) /\
  (truthy (Body message) = true ->
   JSON_parse (default "" (Body message)) = None ->
   deferreds (resolvePromises (mkCallResults CallId message deferred :: results) w) =
   deferreds w /\
   exists e l,
     trace (resolvePromises (mkCallResults CallId message deferred :: results) w) =
     trace w ++ l ++ [EvUncaught e]).
Proof.
  split.
  - intros Hbody. cbn [resolvePromises]. rewrite Hbody. cbn [negb].
    destruct (truthy CallId); [done|]. by apply resolvePromises_deferreds_ext.
  - intros Hbody Hparse. cbn [resolvePromises]. rewrite Hbody, Hparse. cbn [negb].
    destruct (truthy CallId).
    + split; [done|]. by exists (SyntaxError "Unexpected token in JSON"), [].
    + split; [done|].
      exists (SyntaxError "Unexpected token in JSON"), [EvLog (LogNoCallId message)].
      simpl. by rewrite <- app_assoc.
Qed.

(** ** Direct mode *)

(** X5. A direct-mode instance never uses the queue machinery. From a
    state without pending calls, deferreds, collector and timers, and
    with [useQueue] not true, whatever the callers and the event loop do,
    no deferred is created, the map stays empty, no collector is started
    and no timer is scheduled. *)
Theorem direct_mode_never_queues w0 w :
  unused w0 -> useQueue w0 <> Some true -> steps w0 w ->
  unused w /\ useQueue w = useQueue w0.
Proof.
  intros Hunused Hdirect Hsteps.
  induction Hsteps as [|w0 w w' _ IH Hstep]; [done|].
  destruct (IH Hunused Hdirect) as [(Hm & Hh & Hd & Hc & Ht) Hq].
  destruct Hstep.
  - unfold responsifedFunc.
    rewrite bool_decide_eq_false_2 by (simpl; congruence). by simpl.
  - rewrite Hc in H. by destruct H.
  - congruence.
Qed.

(** ** The restart check *)

(** X6. As long as no poll has failed and no stop sentinel was received,
    the restart check that an ending collector schedules finds nothing to
    start when it fires: the state it leaves is the state it found. *)
Theorem restart_check_is_idle w ts :
  calm_reachable w ->
  timers w = TStartResultCollectorIfNeeded :: ts ->
  run_timer TStartResultCollectorIfNeeded (set_timers ts w) = set_timers ts w.
Proof.
  intros Hcalm _. cbn [run_timer].
  destruct (startResultCollectorIfNeeded_spec (set_timers ts w))
    as [(Hmap & Hnone & _)|[_ Heq]]; [|done].
  destruct (calm_reachable_collector_exact w Hcalm)
    as [(_ & _ & Hm)|(c & _ & Hh & _)]; simpl in *; congruence.
Qed.

(** ** When the returned function throws *)

(** X7. The returned function throws what its awaited calls throw. In
    direct mode it throws the error of [lambda.invoke], and it throws
    when the response has no [FunctionError] and a payload that is not
    empty and that [JSON.parse] refuses. In queue mode it throws the
    error of the publish, whatever has become of the deferred, and after
    a publish that succeeded it throws the error its deferred was
    rejected with. *)
Theorem invoke_throws_when :
  (forall e, responsifedFunc_direct (Thrown e) = Thrown e) /\
  (forall raw payload,
     truthy (FunctionError raw) = false ->
     Payload raw = Some payload -> payload <> "" -> JSON_parse payload = None ->
     exists e, responsifedFunc_direct (Ok raw) = Thrown e) /\
  (forall settled e, responsifedFunc_queue (Failed e) settled = Some (Thrown e)) /\
  (forall d e, responsifedFunc_queue (Fulfilled d) (Rejected e) = Some (Thrown e)).
Proof.
  split; [done|]. split; [|by split].
  intros raw payload Hok Hpayload Hne Hparse. unfold responsifedFunc_direct.
  rewrite Hok, Hpayload.
  destruct (String.eqb payload "") eqn:Heq; [by apply String.eqb_eq in Heq|].
  rewrite Hparse. by eexists.
Qed.

(** ** Deletion of the received messages *)

Lemma adds_refl P w : adds P w w.
Proof. exists []. by rewrite app_nil_r. Qed.

Lemma adds_trans P w1 w2 w3 : adds P w1 w2 -> adds P w2 w3 -> adds P w1 w3.
Proof.
  intros (l1 & H1 & HP1) (l2 & H2 & HP2). exists (l1 ++ l2).
  rewrite H2, H1, <- app_assoc. split; [done|].
  rewrite forallb_app. by rewrite HP1, HP2.
Qed.

Lemma adds_emit (P : Event -> bool) ev w : P ev = true -> adds P w (emit ev w).
Proof. intros HP. exists [ev]. split; [done|]. simpl. by rewrite HP. Qed.

Lemma adds_setTimeout (P : Event -> bool) t w :
  P (EvSetTimeout t) = true -> adds P w (setTimeout t w).
Proof. intros HP. exists [EvSetTimeout t]. split; [done|]. simpl. by rewrite HP. Qed.

Lemma adds_settle P d st w : adds P w (settle d st w).
Proof.
  unfold settle. destruct (deferreds w !! d) as [[]|]; try apply adds_refl.
  exists []. by rewrite app_nil_r.
Qed.

Lemma adds_rejectAll w : adds collector_event w (rejectAll w).
Proof.
  unfold rejectAll.
  eapply adds_trans;
    [apply (adds_emit _ (EvLog (LogRejecting (length (callResultPromises w))))); done|].
  generalize (emit (EvLog (LogRejecting (length (callResultPromises w)))) w).
  induction (callResultPromises w) as [|kv m IH]; intros w1; simpl; [apply adds_refl|].
  eapply adds_trans; [|apply IH].
  eapply adds_trans; [|apply adds_settle]. by apply adds_emit.
Qed.

Lemma adds_loop c w : adds collector_event w (resultCollector_loop c w).
Proof.
  unfold resultCollector_loop. destruct (0 <? _).
  - exists [EvLog (LogPolling (length (callResultPromises w))
                     (ResponseQueueUrl (resources w)));
            EvReq (SqsReceiveMessage (ResponseQueueUrl (resources w)) 20 10 ["All"])].
    split; [|done]. simpl. by rewrite <- app_assoc.
  - by exists [EvSetTimeout TStartResultCollectorIfNeeded].
Qed.

Lemma adds_collect Messages : forall callResults w,
  match collect Messages callResults w with
  | Stop w' | Batch _ w' | Caught _ w' => adds collector_event w w'
  end.
Proof.
  induction Messages as [|m Messages IH]; intros callResults w; simpl;
    [apply adds_refl|].
  destruct (isQueueStopMessage m).
  - destruct (adds_rejectAll w) as (l & Hl & HP). by exists l.
  - destruct (CallId_of m) as [CallId|err]; [|apply adds_refl].
    match goal with |- context [collect Messages ?a ?b] =>
      specialize (IH a b); destruct (collect Messages a b) end;
      destruct IH as (l & Hl & HP); by exists l.
Qed.

(** X8. Received messages are deleted from the queue before they are
    looked at. Whatever a poll returns, the collector first logs what it
    received and, when the batch is not empty, sends one batch deletion
    with an entry for every message received, in their order; everything
    it does afterwards, whether the batch is delivered, cut short by a
    stop sentinel or abandoned because of a malformed message, is log
    lines, timers and the next poll. After an empty poll nothing is
    deleted. *)
Theorem received_messages_are_deleted c Messages w :
  let batch := default [] Messages in
  exists l,
    trace (resultCollector_resume c (Ok Messages) w) =
      trace w
      ++ EvLog (LogReceived (length batch))
      :: (if 0 <? length batch
          then [delete_batch (ResponseQueueUrl (resources w)) batch] else [])
      ++ l /\
    forallb collector_event l = true.
Proof.
  intros batch. unfold resultCollector_resume. fold batch.
  set (w1 := deleteSQSMessages _ _ _).
  assert (Hw1 : trace w1 =
            trace w ++ EvLog (LogReceived (length batch))
            :: (if 0 <? length batch
                then [delete_batch (ResponseQueueUrl (resources w)) batch] else [])).
  { unfold w1, deleteSQSMessages. cbn [length].
    destruct (0 <? length batch); simpl; by rewrite <- ?app_assoc. }
  assert (Hrest : adds collector_event w1
            match collect batch [] w1 with
            | Stop w2 => w2
            | Batch callResults w2 =>
                resultCollector_loop c (setTimeout (TResolvePromises callResults) w2)
            | Caught err w2 => resultCollector_loop c (emit (EvLog (LogError err)) w2)
            end).
  { pose proof (adds_collect batch [] w1) as Hcollect.
    destruct (collect batch [] w1) as [w2|callResults w2|err w2]; [done| |].
    - eapply adds_trans; [exact Hcollect|].
      eapply adds_trans; [|apply adds_loop]. by apply adds_setTimeout.
    - eapply adds_trans; [exact Hcollect|].
      eapply adds_trans; [|apply adds_loop]. by apply adds_emit. }
  destruct Hrest as (l & Hl & HP). exists l. split; [|done].
  rewrite Hl, Hw1. by rewrite <- app_assoc.
Qed.

(** ** One place for every deferred *)

Lemma Map_replace_keys m k v : map fst (Map_replace m k v) = map fst m.
Proof.
  induction m as [|[k0 v0] m IH]; simpl; [done|].
  destruct (String.eqb k0 k); simpl; [done|]. by rewrite IH.
Qed.

Lemma Map_has_keys m k : Map_has m k = false -> k ∉ map fst m.
Proof.
  induction m as [|[k0 v0] m IH]; simpl; [by intros _ ?%elem_of_nil|].
  destruct (String.eqb k0 k) eqn:Hk; [done|].
  apply String.eqb_neq in Hk. intros Hhas [->|Hin]%elem_of_cons; [done|].
  by apply IH.
Qed.

Lemma Map_set_NoDup m k v :
  NoDup (map fst m) -> NoDup (map fst (Map_set m k v)).
Proof.
  intros Hm. unfold Map_set. destruct (Map_has m k) eqn:Hhas.
  - by rewrite Map_replace_keys.
  - rewrite map_app. simpl. apply NoDup_app. split; [done|]. split.
    + intros x Hx ->%list_elem_of_singleton. by apply (Map_has_keys m k).
    + apply NoDup_singleton.
Qed.

Lemma Map_delete_keys m k x : x ∈ map fst (Map_delete m k) -> x ∈ map fst m /\ x <> k.
Proof.
  induction m as [|[k0 v0] m IH]; simpl; [by intros ?%elem_of_nil|].
  destruct (String.eqb k0 k) eqn:Hk.
  - intros [H1 H2]%IH. split; [|done]. apply elem_of_cons. by right.
  - apply String.eqb_neq in Hk. intros [->|[H1 H2]%IH]%elem_of_cons.
    + split; [|done]. apply elem_of_cons. by left.
    + split; [|done]. apply elem_of_cons. by right.
Qed.

Lemma Map_delete_NoDup m k :
  NoDup (map fst m) -> NoDup (map fst (Map_delete m k)).
Proof.
  induction m as [|[k0 v0] m IH]; simpl; [done|].
  intros [Hk0 Hm]%NoDup_cons. destruct (String.eqb k0 k); [by apply IH|].
  simpl. apply NoDup_cons. split; [|by apply IH].
  intros [Hin _]%Map_delete_keys. by apply Hk0.
Qed.

Lemma Map_delete_key m k k' v : (k', v) ∈ Map_delete m k -> k' <> k.
Proof.
  intros Hin. apply (Map_delete_keys m k k').
  apply (list_elem_of_fmap_2 fst) in Hin. exact Hin.
Qed.

Lemma Map_elem_get m k v :
  NoDup (map fst m) -> (k, v) ∈ m -> Map_get m k = Some v.
Proof.
  induction m as [|[k0 v0] m IH]; simpl; [by intros _ ?%elem_of_nil|].
  intros [Hk0 Hm]%NoDup_cons [[= -> ->]|Hin]%elem_of_cons.
  - by rewrite String.eqb_refl.
  - destruct (String.eqb k0 k) eqn:Hk; [|by apply IH].
    apply String.eqb_eq in Hk as ->. destruct Hk0.
    apply (list_elem_of_fmap_2 fst) in Hin. exact Hin.
Qed.

Lemma held_elem k d (m : list (string * nat)) : (k, d) ∈ m -> held d m = true.
Proof.
  intros Hin. unfold held. apply existsb_exists. exists (k, d). split.
  - by apply list_elem_of_In.
  - simpl. apply Nat.eqb_refl.
Qed.

Lemma tidy_ext w w' :
  callResultPromises w' = callResultPromises w -> timers w' = timers w ->
  deferreds w' = deferreds w -> tidy w -> tidy w'.
Proof. unfold tidy. by intros -> -> ->. Qed.

Lemma tidy_start w : tidy w -> tidy (startResultCollectorIfNeeded w).
Proof.
  destruct (startResultCollectorIfNeeded_frame w) as (Hm & Hd & Ht & _).
  by apply tidy_ext.
Qed.

Lemma tidy_loop c w : tidy w -> tidy (resultCollector_loop c w).
Proof.
  intros (Hkeys & Htimers & Hmap).
  destruct (resultCollector_loop_frame c w) as (Hm & Hd & _).
  unfold tidy. rewrite Hm, Hd. split; [done|]. split; [|done].
  intros results cr d k Hin. apply (Htimers results cr d k).
  destruct (resultCollector_loop_spec c w) as [(_ & _ & _ & Ht)|(_ & _ & _ & Ht)];
    rewrite Ht in Hin; [done|].
  apply elem_of_app in Hin as [Hin|Hin]; [done|].
  by apply list_elem_of_singleton in Hin.
Qed.

Lemma tidy_call fn_name args CallId w :
  correlated w -> tidy w -> tidy (snd (responsifedFunc fn_name args CallId w)).
Proof.
  intros (_ & Hres & _ & Hlt & _) (Hkeys & Htimers & Hmap).
  unfold responsifedFunc. destruct (bool_decide _); [|done].
  rewrite enqueueCallRequest_run. cbn [fst snd].
  match goal with |- tidy (emit _ (startResultCollectorIfNeeded ?x)) =>
    apply (tidy_ext (startResultCollectorIfNeeded x)); try done;
    apply tidy_start end.
  unfold tidy. simpl. split; [by apply Map_set_NoDup|]. split.
  - intros results cr d k Hin Hcr Hd [Hold|[= -> ->]]%Map_set_elem.
    + by apply (Htimers results cr d k).
    + specialize (Hres results Hin). rewrite Forall_forall in Hres.
      destruct (Hres cr Hcr _ Hd) as (cid & _ & _ & Henq).
      apply Hlt in Henq. lia.
  - intros k d [Hold|[= -> ->]]%Map_set_elem.
    + destruct (Hmap k d Hold) as [H|H]; [left|right]; by apply lookup_app_l_Some.
    + left. rewrite lookup_app_r by done. by rewrite Nat.sub_diag.
Qed.

Lemma collect_tidy enq Messages : forall callResults w,
  (forall CallId CallId' d, (CallId, d) ∈ enq -> (CallId', d) ∈ enq -> CallId = CallId') ->
  good_map enq (callResultPromises w) ->
  NoDup (map fst (callResultPromises w)) ->
  (forall cr d k, cr ∈ callResults -> cr_deferred cr = Some d ->
     (k, d) ∉ callResultPromises w) ->
  match collect Messages callResults w with
  | Stop w' =>
      (forall x, x ∈ callResultPromises w' -> x ∈ callResultPromises w) /\
      NoDup (map fst (callResultPromises w')) /\
      (forall k d, (k, d) ∈ callResultPromises w' ->
         deferreds w' !! d =
         match deferreds w !! d with
         | Some Pending => Some (Rejected cancelled)
         | settled => settled
         end)
  | Batch callResults' w' =>
      (forall x, x ∈ callResultPromises w' -> x ∈ callResultPromises w) /\
      NoDup (map fst (callResultPromises w')) /\
      (forall cr d k, cr ∈ callResults' -> cr_deferred cr = Some d ->
         (k, d) ∉ callResultPromises w')
  | Caught _ w' =>
      (forall x, x ∈ callResultPromises w' -> x ∈ callResultPromises w) /\
      NoDup (map fst (callResultPromises w'))
  end.
Proof.
  induction Messages as [|m Messages IH]; intros callResults w Huniq Hgood Hkeys Hacc;
    cbn [collect]; [done|].
  destruct (isQueueStopMessage m).
  - destruct (frame_rejectAll w) as (_ & _ & Hm & _).
    pose proof (fun d => fold_reject_spec cancelled d (callResultPromises w)
                  (emit (EvLog (LogRejecting (length (callResultPromises w)))) w))
      as Hrej.
    change (fold_left _ _ _) with (rejectAll w) in Hrej.
    set (w' := rejectAll w) in *. simpl. rewrite Hm.
    split; [done|]. split; [done|].
    intros k d Hin. rewrite Hrej. simpl. by rewrite (held_elem k d).
  - destruct (CallId_of m) as [CallId|err]; [|done].
    match goal with |- context [collect Messages ?a ?b] =>
      specialize (IH a b Huniq) end.
    simpl in IH.
    assert (Hsub : forall x, x ∈ Map_delete_opt (callResultPromises w) CallId ->
                     x ∈ callResultPromises w).
    { destruct CallId as [k|]; [|done]. intros x. apply Map_delete_elem. }
    match type of IH with _ -> _ -> ?P -> _ => assert (Hacc' : P) end.
    { intros cr d k [Hcr|Hcr]%elem_of_app Hd Hin.
      - by apply (Hacc cr d k Hcr Hd), Hsub.
      - apply list_elem_of_singleton in Hcr as ->. simpl in Hd.
        destruct CallId as [k0|]; [|done]. simpl in Hd, Hin.
        pose proof (Map_delete_key _ _ _ _ Hin) as Hne.
        apply Map_delete_elem in Hin. apply (Map_elem_get _ _ _ Hkeys) in Hin.
        apply Hne. eapply Huniq; by apply Hgood. }
    assert (Hkeys' : NoDup (map fst (Map_delete_opt (callResultPromises w) CallId))).
    { destruct CallId as [k|]; [|done]. by apply Map_delete_NoDup. }
    specialize (IH (good_map_delete _ _ _ Hgood) Hkeys' Hacc').
    match goal with |- context [collect Messages ?a ?b] => destruct (collect Messages a b) end.
    + destruct IH as (Hs & Hk & Ha). split; [|done]. intros x Hx. by apply Hsub, Hs.
    + destruct IH as (Hs & Hk & Ha). split; [|done]. intros x Hx. by apply Hsub, Hs.
    + destruct IH as (Hs & Hk). split; [|done]. intros x Hx. by apply Hsub, Hs.
Qed.

Lemma tidy_receive c response w :
  correlated w -> tidy w -> tidy (resultCollector_resume c response w).
Proof.
  intros (Hgood & _ & _ & _ & Huniq) (Hkeys & Htimers & Hmap).
  unfold resultCollector_resume.
  destruct response as [Messages|err]; [|done].
  set (w1 := deleteSQSMessages _ _ _).
  assert (Hw1 : callResultPromises w1 = callResultPromises w /\
                timers w1 = timers w /\ deferreds w1 = deferreds w).
  { unfold w1, deleteSQSMessages. by destruct (0 <? _). }
  destruct Hw1 as (Hm1 & Ht1 & Hd1).
  pose proof (collect_tidy (enqueuings (trace w)) (default [] Messages) [] w1 Huniq)
    as Hcollect.
  rewrite Hm1, Hd1 in Hcollect. specialize (Hcollect Hgood Hkeys).
  pose proof (collect_spec (default [] Messages) [] w1) as Hspec.
  destruct (collect (default [] Messages) [] w1) as [w2|callResults w2|e w2].
  - destruct Hcollect as (Hsub & Hkeys2 & Hrej); [by intros cr d k ?%elem_of_nil|].
    destruct Hspec as (_ & Ht2 & _).
    unfold tidy. rewrite Ht2, Ht1. split; [done|]. split.
    + intros results cr d k Hin Hcr Hd Hk. by apply (Htimers results cr d k), Hsub.
    + intros k d Hin. rewrite (Hrej k d Hin).
      destruct (Hmap k d (Hsub _ Hin)) as [->| ->]; by right.
  - destruct Hcollect as (Hsub & Hkeys2 & Hacc); [by intros cr d k ?%elem_of_nil|].
    destruct Hspec as (_ & Ht2 & _ & _ & Hd2 & _).
    apply tidy_loop. unfold tidy, setTimeout. simpl. rewrite Ht2, Ht1, Hd2, Hd1.
    split; [done|]. split.
    + intros results cr d k [Hin|Hin]%elem_of_app Hcr Hd Hk.
      * by apply (Htimers results cr d k), Hsub.
      * apply list_elem_of_singleton in Hin. injection Hin as ->.
        by apply (Hacc cr d k).
    + intros k d Hin. by apply (Hmap k), Hsub.
  - destruct Hcollect as (Hsub & Hkeys2); [by intros cr d k ?%elem_of_nil|].
    destruct Hspec as (_ & Ht2 & _ & _ & Hd2 & _).
    apply tidy_loop. unfold tidy. simpl. rewrite Ht2, Ht1, Hd2, Hd1.
    split; [done|]. split.
    + intros results cr d k Hin Hcr Hd Hk. by apply (Htimers results cr d k), Hsub.
    + intros k d Hin. by apply (Hmap k), Hsub.
Qed.

Lemma tidy_timer t ts w :
  timers w = t :: ts -> tidy w -> tidy (run_timer t (set_timers ts w)).
Proof.
  intros Ht (Hkeys & Htimers & Hmap).
  assert (Hw' : tidy (set_timers ts w)).
  { unfold tidy. simpl. split; [done|]. split; [|done].
    intros results cr d k Hin. apply (Htimers results cr d k).
    rewrite Ht. apply elem_of_cons. by right. }
  destruct t as [results|]; [|by apply tidy_start].
  cbn [run_timer].
  destruct (frame_resolvePromises results (set_timers ts w))
    as (_ & _ & Hm & _ & _ & _ & Ht').
  unfold tidy. rewrite Hm, Ht'. destruct Hw' as (Hk' & Ht'' & _).
  split; [done|]. split; [done|].
  intros k d Hin. rewrite resolvePromises_other; [by apply (Hmap k)|].
  intros cr Hcr Hd. apply (Htimers results cr d k); [|done|done|done].
  rewrite Ht. apply elem_of_cons. by left.
Qed.

Lemma reachable_tidy_inv w : reachable w -> tidy w.
Proof.
  induction 1 as [w (Hm & _ & _ & _ & Ht & _)|w w' Hw IH Hstep].
  - unfold tidy. rewrite Hm, Ht. split; [apply NoDup_nil_2|]. split.
    + by intros results cr d k ?%elem_of_nil.
    + by intros k d ?%elem_of_nil.
  - pose proof (reachable_correlated w Hw) as Hcorr. destruct Hstep.
    + by apply tidy_call.
    + by apply tidy_receive.
    + by eapply tidy_timer.
Qed.

(** X9. One place for every deferred. In every state the event loop can
    reach, the keys of the map are distinct, a deferred that a scheduled
    batch is about to deliver to is no longer in the map, and a deferred
    that is still in the map has not been resolved: it is pending, or was
    rejected as cancelled by a stop sentinel. *)
Theorem reachable_tidy w :
  reachable w ->
  NoDup (map fst (callResultPromises w)) /\
  (forall results cr d k,
     TResolvePromises results ∈ timers w -> cr ∈ results ->
     cr_deferred cr = Some d -> Map_get (callResultPromises w) k <> Some d) /\
  (forall k d, Map_get (callResultPromises w) k = Some d ->
     deferreds w !! d = Some Pending \/ deferreds w !! d = Some (Rejected cancelled)).
Proof.
  intros Hw. destruct (reachable_tidy_inv w Hw) as (Hkeys & Htimers & Hmap).
  split; [done|]. split.
  - intros results cr d k Hin Hcr Hd Hget.
    by apply (Htimers results cr d k), Map_get_elem.
  - intros k d Hget. by apply (Hmap k), Map_get_elem.
Qed.

(** ** A malformed message *)

Lemma collect_malformed before m after err : forall callResults w,
  Forall readable before ->
  isQueueStopMessage m = false -> CallId_of m = Thrown err ->
  exists w',
    collect (before ++ m :: after) callResults w = Caught err w' /\
    forall k v, (k, v) ∈ callResultPromises w' ->
      (k, v) ∈ callResultPromises w /\
      forall m', m' ∈ before -> CallId_of m' <> Ok (Some k).
Proof.
  induction before as [|m0 before IH]; intros callResults w Hbefore Hstop Herr.
  - exists w. cbn [app collect]. rewrite Hstop, Herr. split; [done|].
    intros k v Hin. split; [done|]. by intros m' ?%elem_of_nil.
  - apply Forall_cons in Hbefore as [[Hstop0 [k0 Hk0]] Hbefore].
    cbn [app collect]. rewrite Hstop0, Hk0.
    match goal with |- context [collect _ ?a ?b] =>
      destruct (IH a b Hbefore Hstop Herr) as (w' & Hc & Hent) end.
    exists w'. split; [done|]. intros k v Hin.
    destruct (Hent k v Hin) as [Hin0 Hrest]. simpl in Hin0. split.
    + destruct k0 as [k0|]; [|done]. by apply Map_delete_elem in Hin0.
    + intros m' [->|Hm']%elem_of_cons; [|by apply Hrest].
      rewrite Hk0. intros [= ->]. simpl in Hin0.
      by apply Map_delete_key in Hin0.
Qed.

(** X10. A malformed message loses the replies received with it. When a
    batch holds a message without a [CallId] attribute, reading it throws
    inside the collector's [try]: the replies in front of it have left
    the map, their messages are deleted from the queue, and the batch
    collected so far is dropped without being scheduled. The deferred of
    such a reply is then pending for good: whatever the event loop does
    afterwards, it is never settled. *)
Theorem malformed_message_strands_batch c before m after err CallId d w :
  reachable w ->
  Forall readable before ->
  isQueueStopMessage m = false -> CallId_of m = Thrown err ->
  (exists m', m' ∈ before /\ CallId_of m' = Ok (Some CallId)) ->
  Map_get (callResultPromises w) CallId = Some d ->
  deferreds w !! d = Some Pending ->
  let w' := resultCollector_resume c (Ok (Some (before ++ m :: after))) w in
  Map_get (callResultPromises w') CallId = None /\
  (forall results, TResolvePromises results ∈ timers w' ->
     TResolvePromises results ∈ timers w) /\
  forall w'', steps w' w'' -> deferreds w'' !! d = Some Pending.
Proof.
  intros Hw Hbefore Hstop Herr (m' & Hm' & Hcid) Hget Hpending w'.
  destruct (reachable_tidy_inv w Hw) as (Hkeys & Htimers & _).
  destruct (reachable_correlated w Hw) as (Hgood & _ & _ & _ & Huniq).
  unfold w', resultCollector_resume. cbn [default from_option id].
  set (w1 := deleteSQSMessages _ _ _).
  assert (Hw1 : callResultPromises w1 = callResultPromises w /\
                timers w1 = timers w /\ deferreds w1 = deferreds w).
  { unfold w1, deleteSQSMessages. by destruct (0 <? _). }
  destruct Hw1 as (Hm1 & Ht1 & Hd1).
  destruct (collect_malformed before m after err [] w1 Hbefore Hstop Herr)
    as (w2 & Hc & Hent).
  pose proof (collect_spec (before ++ m :: after) [] w1) as Hspec.
  rewrite Hc in *. destruct Hspec as (_ & Ht2 & _ & _ & Hd2 & _).
  set (w3 := emit (EvLog (LogError err)) w2).
  destruct (resultCollector_loop_frame c w3) as (Hm3 & Hd3 & _).
  assert (Htimers3 : forall results,
            TResolvePromises results ∈ timers (resultCollector_loop c w3) ->
            TResolvePromises results ∈ timers w).
  { intros results Hin.
    destruct (resultCollector_loop_spec c w3) as [(_ & _ & _ & Ht)|(_ & _ & _ & Ht)];
      rewrite Ht in Hin; simpl in Hin; rewrite Ht2, Ht1 in Hin; [done|].
    apply elem_of_app in Hin as [Hin|Hin]; [done|].
    by apply list_elem_of_singleton in Hin. }
  assert (Hgone : forall k, (k, d) ∉ callResultPromises (resultCollector_loop c w3)).
  { intros k Hin. rewrite Hm3 in Hin. simpl in Hin.
    destruct (Hent k d Hin) as [Hin1 Hno]. rewrite Hm1 in Hin1.
    apply (Map_elem_get _ _ _ Hkeys) in Hin1.
    assert (k = CallId) as -> by (eapply Huniq; by apply Hgood).
    by apply (Hno m'). }
  split; [|split; [done|]].
  - destruct (Map_get (callResultPromises (resultCollector_loop c w3)) CallId)
      as [v|] eqn:Hv; [|done].
    apply Map_get_elem in Hv. rewrite Hm3 in Hv. simpl in Hv.
    destruct (Hent CallId v Hv) as [_ Hno]. by destruct (Hno m').
  - intros w'' Hsteps.
    assert (Hstranded : stranded d (resultCollector_loop c w3)).
    { split; [|split].
      - rewrite Hd3. simpl. by rewrite Hd2, Hd1.
      - intros k v Hin ->. by apply (Hgone k).
      - intros results cr Hin Hcr Hd.
        apply (Htimers results cr d CallId); [by apply Htimers3|done|done|].
        by apply Map_get_elem. }
    by destruct (stranded_steps d _ _ Hsteps Hstranded).
Qed.

(** ** A failed poll *)

Lemma dead_start w : dead w -> startResultCollectorIfNeeded w = w.
Proof.
  intros [_ Hh].
  destruct (startResultCollectorIfNeeded_spec w) as [(_ & Hnone & _)|[_ Heq]]; [|done].
  rewrite Hnone in Hh. by destruct Hh.
Qed.

Lemma dead_step w w' : step w w' -> dead w -> dead w'.
Proof.
  intros Hstep Hdead. destruct Hstep.
  - unfold responsifedFunc. destruct (bool_decide _); [|done].
    rewrite enqueueCallRequest_run. cbn [fst snd].
    rewrite dead_start; [done|]. exact Hdead.
  - destruct Hdead as [Hc _]. rewrite Hc in H. by destruct H.
  - destruct t as [results|]; cbn [run_timer].
    + destruct (frame_resolvePromises results (set_timers ts w))
        as (_ & _ & _ & Hh & Hc & _).
      unfold dead. by rewrite Hh, Hc.
    + rewrite dead_start; [done|]. exact Hdead.
Qed.

Lemma dead_pending_step d w w' :
  step w w' -> dead w ->
  deferreds w !! d = Some Pending ->
  (forall results cr, TResolvePromises results ∈ timers w -> cr ∈ results ->
     cr_deferred cr <> Some d) ->
  deferreds w' !! d = Some Pending /\
  (forall results cr, TResolvePromises results ∈ timers w' -> cr ∈ results ->
     cr_deferred cr <> Some d).
Proof.
  intros Hstep Hdead Hpending Htimers. destruct Hstep.
  - unfold responsifedFunc. destruct (bool_decide _); [|done].
    rewrite enqueueCallRequest_run. cbn [fst snd].
    rewrite dead_start; [|exact Hdead]. simpl. split; [|done].
    by apply lookup_app_l_Some.
  - destruct Hdead as [Hc _]. rewrite Hc in H. by destruct H.
  - assert (Hts : forall results cr, TResolvePromises results ∈ ts -> cr ∈ results ->
                    cr_deferred cr <> Some d).
    { intros results cr Hin. apply Htimers. rewrite H. apply elem_of_cons. by right. }
    destruct t as [results|]; cbn [run_timer].
    + destruct (frame_resolvePromises results (set_timers ts w))
        as (_ & _ & _ & _ & _ & _ & Ht).
      rewrite Ht. split; [|done]. rewrite resolvePromises_other; [done|].
      intros cr. apply Htimers. rewrite H. apply elem_of_cons. by left.
    + rewrite dead_start; [done|]. exact Hdead.
Qed.

Lemma reachable_steps w w' : reachable w -> steps w w' -> reachable w'.
Proof.
  intros Hw. induction 1 as [|w w' w'' _ IH Hstep]; [done|].
  eapply reachable_step; [by apply IH|done].
Qed.

Lemma dead_steps w w' : steps w w' -> dead w -> dead w'.
Proof.
  induction 1 as [|w w' w'' _ IH Hstep]; [done|].
  intros Hw. eapply dead_step; [exact Hstep|by apply IH].
Qed.

Lemma dead_pending_steps d w w' :
  steps w w' -> dead w ->
  deferreds w !! d = Some Pending ->
  (forall results cr, TResolvePromises results ∈ timers w -> cr ∈ results ->
     cr_deferred cr <> Some d) ->
  deferreds w' !! d = Some Pending /\
  (forall results cr, TResolvePromises results ∈ timers w' -> cr ∈ results ->
     cr_deferred cr <> Some d).
Proof.
  induction 1 as [|w w' w'' Hsteps IH Hstep]; [done|].
  intros Hdead Hpending Hfree.
  destruct (IH Hdead Hpending Hfree) as [Hp' Hf'].
  eapply dead_pending_step; [exact Hstep| |done|done].
  by eapply dead_steps.
Qed.

(** X11. A failed poll ends response collection for good. When the long
    poll of the collector rejects, the collector's promise rejects and
    the handle keeps pointing at it. From then on no collector runs and
    none is ever started again: a call made in queue mode at any later
    time still registers its deferred and publishes, but that deferred
    stays pending whatever happens afterwards. *)
Theorem failed_poll_ends_collection c err w w2 fn_name args CallId :
  reachable w -> In c (collectors w) ->
  steps (resultCollector_resume c (Thrown err) w) w2 ->
  useQueue w2 = Some true ->
  exists d w3,
    responsifedFunc fn_name args CallId w2 = (AwaitPublish d, w3) /\
    Map_get (callResultPromises w3) CallId = Some d /\
    forall w4, steps w3 w4 ->
      deferreds w4 !! d = Some Pending /\ collectors w4 = [].
Proof.
  intros Hw Hc Hsteps Hqueue.
  assert (Hdead1 : dead (resultCollector_resume c (Thrown err) w)).
  { destruct (reachable_collector_inv w Hw) as [Hnil|(c' & Hcs & Hh & _)].
    - rewrite Hnil in Hc. by destruct Hc.
    - rewrite Hcs in Hc. destruct Hc as [->|[]].
      unfold dead, resultCollector_resume. simpl. rewrite Hcs, Hh. simpl.
      rewrite Nat.eqb_refl. by simpl. }
  assert (Hw2 : reachable w2).
  { eapply reachable_steps; [|exact Hsteps].
    eapply reachable_step; [exact Hw|]. by apply step_receive. }
  pose proof (dead_steps _ _ Hsteps Hdead1) as Hdead2.
  destruct (reachable_correlated w2 Hw2) as (_ & Hres & _ & Hlt & _).
  exists (length (deferreds w2)), (snd (responsifedFunc fn_name args CallId w2)).
  assert (Hrun : responsifedFunc fn_name args CallId w2 =
                 (AwaitPublish (length (deferreds w2)),
                  snd (responsifedFunc fn_name args CallId w2)) /\
                 dead (snd (responsifedFunc fn_name args CallId w2)) /\
                 Map_get (callResultPromises (snd (responsifedFunc fn_name args CallId w2)))
                   CallId = Some (length (deferreds w2)) /\
                 deferreds (snd (responsifedFunc fn_name args CallId w2))
                   !! length (deferreds w2) = Some Pending /\
                 timers (snd (responsifedFunc fn_name args CallId w2)) = timers w2).
  { unfold responsifedFunc. cbn [useQueue emit].
    rewrite bool_decide_eq_true_2 by done.
    rewrite enqueueCallRequest_run. cbn [fst snd].
    rewrite dead_start; [|exact Hdead2]. simpl.
    split; [done|]. split; [exact Hdead2|]. split.
    - by rewrite Map_get_set, String.eqb_refl.
    - split; [|done]. rewrite lookup_app_r by done. by rewrite Nat.sub_diag. }
  destruct Hrun as (Hrun & Hdead3 & Hget & Hpending & Ht3).
  split; [done|]. split; [done|].
  assert (Hfree : forall results cr,
            TResolvePromises results ∈ timers (snd (responsifedFunc fn_name args CallId w2)) ->
            cr ∈ results -> cr_deferred cr <> Some (length (deferreds w2))).
  { intros results cr Hin Hcr Hd. rewrite Ht3 in Hin.
    specialize (Hres results Hin). rewrite Forall_forall in Hres.
    destruct (Hres cr Hcr _ Hd) as (cid & _ & _ & Henq).
    apply Hlt in Henq. lia. }
  intros w4 Hsteps4. split.
  - by destruct (dead_pending_steps _ _ _ Hsteps4 Hdead3 Hpending Hfree).
  - by destruct (dead_steps _ _ Hsteps4 Hdead3).
Qed.

(** ** What a computation sends, and what it keeps *)

Lemma sends_ret {A} env P (a : A) : sends env P (ret a).
Proof. intros w. exists []. split; [by rewrite app_nil_r|]. by intros r ?%elem_of_nil. Qed.

Lemma sends_throw {A} env P e : sends env P (@throw A e).
Proof. intros w. exists []. split; [by rewrite app_nil_r|]. by intros r ?%elem_of_nil. Qed.

Lemma sends_get_world env P : sends env P get_world.
Proof. intros w. exists []. split; [by rewrite app_nil_r|]. by intros r ?%elem_of_nil. Qed.

Lemma sends_bind {A B} env P (m : M A) (k : A -> M B) :
  sends env P m -> (forall a, sends env P (k a)) -> sends env P (bind m k).
Proof.
  intros Hm Hk w. unfold bind. destruct (Hm w) as (l1 & H1 & HP1).
  destruct (m env w) as [[a|e] w1]; simpl in *.
  - destruct (Hk a w1) as (l2 & H2 & HP2). exists (l1 ++ l2).
    rewrite H2, H1, app_assoc. split; [done|].
    intros r [?|?]%elem_of_app; auto.
  - by exists l1.
Qed.

Lemma sends_modify env P f :
  (forall w, trace (f w) = trace w) -> sends env P (modify f).
Proof.
  intros Hf w. exists []. simpl. rewrite Hf, app_nil_r. split; [done|].
  by intros r ?%elem_of_nil.
Qed.

Lemma sends_send env (P : Request -> bool) r : P r = true -> sends env P (send r).
Proof.
  intros HP w. exists [EvReq r]. split; [done|].
  by intros r' [= ->]%list_elem_of_singleton.
Qed.

Lemma sends_promise env (P : Request -> bool) r : P r = true -> sends env P (promise r).
Proof.
  intros HP. apply sends_bind; [by apply sends_send|].
  intros [d|e]; [apply sends_ret|apply sends_throw].
Qed.

Lemma sends_quietly env (P : Request -> bool) r : P r = true -> sends env P (quietly r).
Proof.
  intros HP. apply sends_bind; [by apply sends_send|].
  intros [d|e]; apply sends_ret.
Qed.

Lemma sends_sleep env P ms : sends env P (sleep ms).
Proof.
  intros w. exists [EvSleep ms]. split; [done|].
  by intros r [=]%list_elem_of_singleton.
Qed.

Lemma sends_assign env P f : sends env P (assign f).
Proof. by apply sends_modify. Qed.

Lemma sends_start {A} env P (m : M A) : sends env P m -> sends env P (start m).
Proof.
  intros Hm w. unfold start. destruct (Hm w) as (l & Hl & HP).
  destruct (m env w). by exists l.
Qed.

Lemma sends_await {A} env P (p : Res A) : sends env P (await p).
Proof. destruct p; [apply sends_ret|apply sends_throw]. Qed.

Lemma sends_Role_of env P d : sends env P (Role_of d).
Proof. unfold Role_of. destruct (Role d); [apply sends_ret|apply sends_throw]. Qed.

Lemma sends_pollAWSRequest env (P : Request -> bool) n description fn :
  P (fn tt) = true -> sends env P (pollAWSRequest n description fn).
Proof.
  intros HP. unfold pollAWSRequest. apply sends_bind; [apply sends_sleep|]. intros _.
  induction n as [|n IH]; simpl; [apply sends_throw|].
  apply sends_bind; [by apply sends_quietly|].
  intros [d|]; [apply sends_ret|].
  apply sends_bind; [apply sends_sleep|]. by intros _.
Qed.

Lemma sends_startResultCollectorIfNeeded env (P : Request -> bool) :
  (forall q a b c, P (SqsReceiveMessage q a b c) = true) ->
  sends env P (modify startResultCollectorIfNeeded).
Proof.
  intros HP w. simpl.
  destruct (startResultCollectorIfNeeded_spec w) as [(Hmap & Hnone & _)|[_ ->]].
  - rewrite startResultCollectorIfNeeded_run by done. rewrite Hnone. simpl.
    eexists [_; _]. rewrite <- app_assoc. split; [done|].
    intros r [[=]|[[= ->]|[]%elem_of_nil]%elem_of_cons]%elem_of_cons. apply HP.
  - exists []. split; [by rewrite app_nil_r|]. by intros r ?%elem_of_nil.
Qed.

Ltac sends_tac :=
  repeat first
    [ apply sends_pollAWSRequest; reflexivity
    | apply sends_bind; [|intros ?]
    | apply sends_start
    | apply sends_ret
    | apply sends_throw
    | apply sends_get_world
    | apply sends_promise; reflexivity
    | apply sends_quietly; reflexivity
    | apply sends_send; reflexivity
    | apply sends_sleep
    | apply sends_assign
    | apply sends_await
    | apply sends_Role_of
    | apply sends_startResultCollectorIfNeeded; reflexivity
    | match goal with
      | |- sends _ _ (match ?x with _ => _ end) => destruct x
      end ].

Lemma preserves_ret {A} env I (a : A) : preserves env I (ret a).
Proof. by intros w. Qed.

Lemma preserves_throw {A} env I e : preserves env I (@throw A e).
Proof. by intros w. Qed.

Lemma preserves_get_world env I : preserves env I get_world.
Proof. by intros w. Qed.

Lemma preserves_bind {A B} env I (m : M A) (k : A -> M B) :
  preserves env I m -> (forall a, preserves env I (k a)) -> preserves env I (bind m k).
Proof.
  intros Hm Hk w Hw. unfold bind. specialize (Hm w Hw).
  destruct (m env w) as [[a|e] w1]; simpl in *; [by apply Hk|done].
Qed.

Lemma preserves_modify env I f :
  (forall w, I w -> I (f w)) -> preserves env I (modify f).
Proof. intros Hf w Hw. by apply Hf. Qed.

Lemma preserves_send env I r : traceless I -> preserves env I (send r).
Proof. intros HI w Hw. by apply HI. Qed.

Lemma preserves_promise env I r : traceless I -> preserves env I (promise r).
Proof.
  intros HI. apply preserves_bind; [by apply preserves_send|].
  intros [d|e]; [apply preserves_ret|apply preserves_throw].
Qed.

Lemma preserves_quietly env I r : traceless I -> preserves env I (quietly r).
Proof.
  intros HI. apply preserves_bind; [by apply preserves_send|].
  intros [d|e]; apply preserves_ret.
Qed.

Lemma preserves_sleep env I ms : traceless I -> preserves env I (sleep ms).
Proof. intros HI w Hw. by apply HI. Qed.

Lemma preserves_start {A} env I (m : M A) :
  preserves env I m -> preserves env I (start m).
Proof.
  intros Hm w Hw. unfold start. specialize (Hm w Hw). by destruct (m env w).
Qed.

Lemma preserves_await {A} env I (p : Res A) : preserves env I (await p).
Proof. destruct p; [apply preserves_ret|apply preserves_throw]. Qed.

Lemma preserves_Role_of env I d : preserves env I (Role_of d).
Proof.
  unfold Role_of. destruct (Role d); [apply preserves_ret|apply preserves_throw].
Qed.

Lemma preserves_pollAWSRequest env I n description fn :
  traceless I -> preserves env I (pollAWSRequest n description fn).
Proof.
  intros HI. unfold pollAWSRequest.
  apply preserves_bind; [by apply preserves_sleep|]. intros _.
  induction n as [|n IH]; simpl; [apply preserves_throw|].
  apply preserves_bind; [by apply preserves_quietly|].
  intros [d|]; [apply preserves_ret|].
  apply preserves_bind; [by apply preserves_sleep|]. by intros _.
Qed.

(** With [HI : traceless I] and, for every update of the state, its
    own lemma [Hf]. *)
Ltac preserves_tac HI Hf :=
  repeat first
    [ apply preserves_pollAWSRequest; exact HI
    | apply preserves_bind; [|intros ?]
    | apply preserves_start
    | apply preserves_ret
    | apply preserves_throw
    | apply preserves_get_world
    | apply preserves_promise; exact HI
    | apply preserves_quietly; exact HI
    | apply preserves_send; exact HI
    | apply preserves_sleep; exact HI
    | apply preserves_await
    | apply preserves_Role_of
    | apply preserves_modify; apply Hf
    | match goal with
      | |- preserves _ _ (match ?x with _ => _ end) => destruct x
      end ].

Lemma traceless_base_of s : traceless (base_of s).
Proof. by intros ev w. Qed.

Lemma traceless_queue_fields_unset : traceless queue_fields_unset.
Proof. by intros ev w. Qed.

Lemma base_of_initialize_try env fModule s :
  preserves env (base_of s) (initialize_try fModule s).
Proof.
  assert (Hassign : forall f,
            f = set_DeadLetterQueueUrl \/ f = set_SNSFeedbackRole \/
            f = set_RequestTopicArn \/ f = set_ResponseQueueUrl \/
            f = set_SNSLambdaSubscriptionArn ->
            forall v, preserves env (base_of s) (assign (f v))).
  { intros f Hf v. apply preserves_modify. intros w Hw.
    destruct Hf as [->|[->|[->|[->| ->]]]]; exact Hw. }
  assert (Hstart : preserves env (base_of s) (modify startResultCollectorIfNeeded)).
  { apply preserves_modify. intros w Hw.
    destruct (startResultCollectorIfNeeded_frame w) as (_ & _ & _ & Hr & Hq).
    unfold base_of. by rewrite Hr, Hq. }
  pose proof (traceless_base_of s) as HI.
  unfold initialize_try, createLogGroup, createDLQ, deadLetterQueueCollector,
    createSNSFeedbackRole, createSNSNotifier, addSnsInvokePermissionsToFunction,
    createQueue, createFunction, createLambdaRole, addNoCreateLogPolicyToRole.
  repeat first
    [ exact Hstart
    | apply Hassign; auto 6
    | apply preserves_pollAWSRequest; exact HI
    | apply preserves_bind; [|intros ?]
    | apply preserves_start
    | apply preserves_ret
    | apply preserves_throw
    | apply preserves_get_world
    | apply preserves_promise; exact HI
    | apply preserves_quietly; exact HI
    | apply preserves_send; exact HI
    | apply preserves_await
    | apply preserves_Role_of
    | match goal with
      | |- preserves _ _ (match ?x with _ => _ end) => destruct x
      end ].
Qed.

Lemma sends_initialize_try env fModule s :
  sends env (fun r => negb (resource_deletion r)) (initialize_try fModule s).
Proof.
  unfold initialize_try, createLogGroup, createDLQ, deadLetterQueueCollector,
    createSNSFeedbackRole, createSNSNotifier, addSnsInvokePermissionsToFunction,
    createQueue, createFunction, createLambdaRole, addNoCreateLogPolicyToRole.
  sends_tac.
Qed.

(** ** [initialize] *)

(** What holds of the state [initialize] returns. *)
Lemma initialize_ok fModule options nonce env w w' :
  initialize fModule options nonce env w = (Ok tt, w') ->
  base_of (settings options nonce) w' /\
  quiet w' /\
  exists l, trace w' = trace w ++ l /\
    forall r, EvReq r ∈ l -> resource_deletion r = false.
Proof.
  unfold initialize. erewrite bind_ok by reflexivity. unfold try_catch.
  set (s := settings options nonce).
  set (w0 := new_State _ _ w).
  pose proof (base_of_initialize_try env fModule s w0) as Hbase.
  pose proof (keeps_initialize_try fModule s env w0) as Hquiet.
  destruct (sends_initialize_try env fModule s w0) as (l & Hl & HP).
  destruct (initialize_try fModule s env w0) as [[[]|e] w1] eqn:Htry.
  - intros [= <-]. simpl in *. split; [by apply Hbase|]. split; [by apply Hquiet|].
    exists l. split; [done|]. intros r Hr. apply HP in Hr. by apply negb_true_iff.
  - unfold bind. destruct (cleanup env w1) as [[[]|e'] w2]; by intros [=].
Qed.

(** X12. When [initialize] returns a state, the manifest of that state
    holds the function name and the log group name derived from the
    nonce, the role name, the role policy and the region of the options
    after defaulting; the state has no pending call and no collector, so
    that response collection starts with the first call and not before;
    and on the way [initialize] asked for no deletion. *)
Theorem initialize_returns_fresh_state fModule options nonce env w w' :
  initialize fModule options nonce env w = (Ok tt, w') ->
  base_of (settings options nonce) w' /\
  quiet w' /\
  exists l, trace w' = trace w ++ l /\
    forall r, EvReq r ∈ l -> resource_deletion r = false.
Proof. apply initialize_ok. Qed.

(** ** What [cleanup] sends *)

Lemma cleanup_trace env w :
  exists roles feedback l,
    role_segment (resources w) (RoleName (resources w)) roles /\
    role_segment (resources w) (SNSFeedbackRole (resources w)) feedback /\
    snd (cleanup env w) = add_trace l w /\
    forall ev, ev ∈ l ->
      ev ∈ cleanup_head w roles feedback ++ cleanup_tail (resources w) \/
      exists handle, awaited_collector w = Some handle /\
                     ev = EvReq (AwaitResultCollector handle).
Proof.
  destruct (cleanup_run env w) as (roles & feedback & Hroles & Hfeedback & Hrun).
  exists roles, feedback.
  destruct (awaited_collector w) as [handle|].
  - destruct (env _ (AwaitResultCollector handle)); rewrite Hrun; eexists;
      (split; [done|]; split; [done|]; split; [done|]); intros ev.
    + rewrite !elem_of_app, elem_of_cons. intros [H|[->|H]]; eauto.
    + rewrite !elem_of_app, list_elem_of_singleton. intros [H| ->]; eauto.
  - rewrite Hrun. eexists. split; [done|]. split; [done|]. split; [done|]. eauto.
Qed.

Lemma role_segment_iam r x seg req :
  role_segment r x seg -> EvReq req ∈ seg -> iam_request req = true.
Proof.
  unfold role_segment. destruct x as [name|]; [|by intros -> ?%elem_of_nil].
  destruct (_ && _); [|by intros -> ?%elem_of_nil].
  intros (detached & inline & ->). unfold role_deletion.
  rewrite elem_of_cons, elem_of_app, list_elem_of_fmap, elem_of_cons, elem_of_app,
    list_elem_of_fmap, list_elem_of_singleton.
  intros [[= ->]|[(p & [= ->] & _)|[[= ->]|[(p & [= ->] & _)|[= ->]]]]]; by simpl.
Qed.

Lemma role_segment_cached r x seg :
  rolePolicy r <> Some createTemporaryRole -> role_segment r x seg -> seg = [].
Proof.
  intros Hcached. unfold role_segment. destruct x as [name|]; [|done].
  rewrite bool_decide_eq_false_2 by done. by rewrite andb_false_r.
Qed.

Lemma opt_req_class (P : Request -> bool) x f req :
  (forall v, P (f v) = false) -> EvReq req ∈ opt_req x f -> P req = false.
Proof.
  intros HP. unfold opt_req. destruct x as [v|]; [|by intros ?%elem_of_nil].
  destruct (truthy _); [|by intros ?%elem_of_nil].
  by intros [= ->]%list_elem_of_singleton.
Qed.

(** X13. [cleanup] changes nothing of the state but the trace; the only
    deletions it asks for are those of resources the manifest records;
    and unless the manifest says [createTemporaryRole] it sends no
    request to IAM at all: a cached role is neither deleted nor stripped
    of its policies. *)
Theorem cleanup_spares_cached_roles env w :
  exists l,
    snd (cleanup env w) = add_trace l w /\
    (forall r, EvReq r ∈ l -> resource_deletion r = true ->
       r ∈ recorded_deletions (resources w)) /\
    (rolePolicy (resources w) <> Some createTemporaryRole ->
     forall r, EvReq r ∈ l -> iam_request r = false).
Proof.
  destruct (cleanup_trace env w) as (roles & feedback & l & Hroles & Hfeedback & Hl & Hin).
  exists l. split; [done|]. split.
  - intros r Hr Hdel. destruct (Hin _ Hr) as [H|(handle & _ & [= ->])]; [|done].
    by eapply cleanup_events_recorded.
  - intros Hcached r Hr. destruct (Hin _ Hr) as [H|(handle & _ & [= ->])]; [|done].
    rewrite (role_segment_cached _ _ _ Hcached Hroles) in H.
    rewrite (role_segment_cached _ _ _ Hcached Hfeedback) in H.
    unfold cleanup_head, cleanup_tail in H. rewrite !elem_of_app in H.
    destruct (awaited_collector w);
      destruct_or?; try (by apply elem_of_nil in H);
      (eapply opt_req_class; [|exact H]); done.
Qed.

(** ** [initialize] in direct mode *)

Lemma queue_fields_unset_initialize_try env fModule s :
  s_useQueue s = false ->
  preserves env queue_fields_unset (initialize_try fModule s).
Proof.
  intros Hdirect.
  assert (Hassign : forall v,
            preserves env queue_fields_unset (assign (set_DeadLetterQueueUrl v))).
  { intros v. apply preserves_modify. by intros w Hw. }
  pose proof traceless_queue_fields_unset as HI.
  unfold initialize_try. rewrite Hdirect.
  unfold createLogGroup, createDLQ, deadLetterQueueCollector,
    createQueue, createFunction, createLambdaRole, addNoCreateLogPolicyToRole.
  repeat first
    [ apply Hassign
    | apply preserves_pollAWSRequest; exact HI
    | apply preserves_bind; [|intros ?]
    | apply preserves_start
    | apply preserves_ret
    | apply preserves_throw
    | apply preserves_get_world
    | apply preserves_promise; exact HI
    | apply preserves_quietly; exact HI
    | apply preserves_send; exact HI
    | apply preserves_await
    | apply preserves_Role_of
    | match goal with
      | |- preserves _ _ (match ?x with _ => _ end) => destruct x
      end ].
Qed.

Lemma sends_initialize_try_direct env fModule s :
  s_useQueue s = false ->
  sends env (fun r => negb (queue_mode_request r)) (initialize_try fModule s).
Proof.
  intros Hdirect. unfold initialize_try. rewrite Hdirect.
  unfold createLogGroup, createDLQ, deadLetterQueueCollector,
    createQueue, createFunction, createLambdaRole, addNoCreateLogPolicyToRole.
  sends_tac.
Qed.

(** X14. [initialize] in direct mode. With [useQueue] false, whether
    [initialize] returns or fails and tears down, it sends no request to
    SNS and grants SNS no permission on the function, and the manifest
    fields of queue mode (request topic, response queue, subscription,
    feedback role) are never set. *)
Theorem initialize_direct_mode fModule options nonce env w :
  s_useQueue (settings options nonce) = false ->
  queue_fields_unset (snd (initialize fModule options nonce env w)) /\
  exists l,
    trace (snd (initialize fModule options nonce env w)) = trace w ++ l /\
    forall r, EvReq r ∈ l -> queue_mode_request r = false.
Proof.
  intros Hdirect.
  unfold initialize. erewrite bind_ok by reflexivity. unfold try_catch.
  set (s := settings options nonce) in *.
  set (w0 := new_State _ _ w).
  assert (Hw0 : queue_fields_unset w0) by done.
  pose proof (queue_fields_unset_initialize_try env fModule s Hdirect w0 Hw0) as Hunset.
  destruct (sends_initialize_try_direct env fModule s Hdirect w0) as (l & Hl & HP).
  destruct (initialize_try fModule s env w0) as [[[]|e] w1] eqn:Htry.
  - cbn [snd] in *. split; [done|]. exists l. split; [done|].
    intros r Hr. apply HP in Hr. by apply negb_true_iff.
  - cbn [snd] in Hunset, Hl.
    destruct (cleanup_trace env w1)
      as (roles & feedback & l2 & Hroles & Hfeedback & Hl2 & Hin).
    unfold bind. destruct (cleanup env w1) as [[[]|e'] w2]; cbn [snd] in *; subst w2.
    all: split; [done|].
    all: exists (l ++ l2); simpl; rewrite Hl, app_assoc; (split; [done|]).
    all: intros r [Hr|Hr]%elem_of_app; [apply HP in Hr; by apply negb_true_iff|].
    all: destruct Hunset as (Htopic & Hqueue & Hsub & Hrole).
    all: destruct (Hin _ Hr) as [H|(handle & _ & [= ->])]; [|done].
    all: unfold cleanup_head, cleanup_tail in H.
    all: rewrite Htopic, Hsub in H; simpl in H.
    all: rewrite !elem_of_app in H.
    all: destruct (awaited_collector w1); destruct_or?;
        try (by apply elem_of_nil in H);
        try (eapply opt_req_class; [|exact H]; done).
    all: match goal with
         | Hseg : role_segment _ _ ?seg, H : _ ∈ ?seg |- _ =>
             pose proof (role_segment_iam _ _ _ _ Hseg H) as Hiam;
             by destruct r
         end.
Qed.

(** ** [createFunction] *)

Lemma after_failed_probe_bind {A B} env name shape (m : M A) (k : A -> M B) w :
  sends env (fun r => negb (creates_function r)) m ->
  (forall a w1, exists l,
     trace (snd (k a env w1)) = trace w1 ++ l /\
     after_failed_probe env name shape (trace w1) l) ->
  exists l,
    trace (snd (bind m k env w)) = trace w ++ l /\
    after_failed_probe env name shape (trace w) l.
Proof.
  intros Hm Hk. unfold bind. destruct (Hm w) as (la & Hla & HPa).
  assert (Hnone : forall cf, EvReq (LambdaCreateFunction cf) ∉ la).
  { intros cf Hin. by apply HPa in Hin. }
  destruct (m env w) as [[a|e] w1]; simpl in *.
  - destruct (Hk a w1) as (lb & Hlb & Hprobe). exists (la ++ lb).
    rewrite Hlb, Hla, app_assoc. split; [done|].
    intros cf [Hin|Hin]%elem_of_app; [by destruct (Hnone cf)|].
    destruct (Hprobe cf Hin) as (Hname & l1 & l2 & e & -> & Henv).
    split; [done|]. exists (la ++ l1), l2, e.
    rewrite <- app_assoc. split; [done|]. by rewrite app_assoc, <- Hla.
  - exists la. split; [done|]. intros cf Hin. by destruct (Hnone cf).
Qed.

Lemma failed_attempts_requests fn k r :
  EvReq r ∈ failed_attempts fn k -> r = fn tt.
Proof.
  induction k as [|k IH]; [by intros ?%elem_of_nil|].
  rewrite failed_attempts_S. intros [Hin|Hin]%elem_of_app; [|by apply IH].
  apply elem_of_cons in Hin as [[= ->]|Hin]; [done|].
  by apply list_elem_of_singleton in Hin.
Qed.

(** Every request of a poll is the request polled. *)
Lemma pollAWSRequest_requests env n description fn w :
  exists l,
    trace (snd (pollAWSRequest n description fn env w)) = trace w ++ l /\
    forall r, EvReq r ∈ l -> r = fn tt.
Proof.
  destruct (pollAWSRequest_run env n description fn w)
    as (k & _ & _ & [(d & _ & _ & ->)|[-> ->]]); eexists; (split; [reflexivity|]).
  - intros r [[=]|[Hin|Hin]%elem_of_app]%elem_of_cons.
    + by apply failed_attempts_requests in Hin.
    + by apply list_elem_of_singleton in Hin as [= ->].
  - intros r [[=]|Hin]%elem_of_cons. by apply failed_attempts_requests in Hin.
Qed.

Lemma obj_has_set o k v k' :
  obj_has (obj_set o k v) k' = String.eqb k k' || obj_has o k'.
Proof.
  unfold obj_set. destruct (obj_has o k) eqn:Hhas.
  - induction o as [|[k0 v0] o IH]; [done|]. simpl in *.
    destruct (String.eqb k0 k) eqn:Hk0; simpl.
    + apply String.eqb_eq in Hk0 as ->. by destruct (String.eqb k k').
    + rewrite IH by done. destruct (String.eqb k0 k'), (String.eqb k k'); done.
  - induction o as [|[k0 v0] o IH]; simpl in *.
    + by rewrite orb_false_r.
    + apply orb_false_iff in Hhas as [_ Hhas]. rewrite IH by done.
      destruct (String.eqb k0 k'), (String.eqb k k'); done.
Qed.

Lemma obj_get_set o k v k' :
  obj_get (obj_set o k v) k' = if String.eqb k k' then v else obj_get o k'.
Proof.
  unfold obj_set. destruct (obj_has o k) eqn:Hhas.
  - induction o as [|[k0 v0] o IH]; [done|]. simpl in *.
    destruct (String.eqb k0 k) eqn:Hk0; simpl.
    + apply String.eqb_eq in Hk0 as ->. by destruct (String.eqb k k').
    + rewrite IH by done. destruct (String.eqb k0 k') eqn:Hk0'; [|done].
      apply String.eqb_eq in Hk0' as ->. by rewrite String.eqb_sym, Hk0.
  - induction o as [|[k0 v0] o IH]; simpl in *.
    + by destruct (String.eqb k k').
    + apply orb_false_iff in Hhas as [Hk0 Hhas]. rewrite IH by done.
      destruct (String.eqb k0 k') eqn:Hk0'; [|done].
      apply String.eqb_eq in Hk0' as ->. by rewrite String.eqb_sym, Hk0.
Qed.

Lemma spread_cons o k v src : spread o ((k, v) :: src) = spread (obj_set o k v) src.
Proof. reflexivity. Qed.

(** A property that the spread object does not have is left as it is. *)
Lemma obj_get_spread_absent src : forall o k,
  obj_has src k = false -> obj_get (spread o src) k = obj_get o k.
Proof.
  induction src as [|[k0 v0] src IH]; intros o k Hhas; [done|].
  simpl in Hhas. apply orb_false_iff in Hhas as [Hk0 Hhas].
  rewrite spread_cons, IH by done. by rewrite obj_get_set, Hk0.
Qed.

Lemma obj_has_keys src k : k ∉ src.*1 -> obj_has src k = false.
Proof.
  induction src as [|[k0 v0] src IH]; [done|]. simpl.
  intros Hnot. apply not_elem_of_cons in Hnot as [Hne Hnot].
  rewrite IH by done. rewrite orb_false_r. apply String.eqb_neq. congruence.
Qed.

(** A property of the spread object replaces the one of that name. *)
Lemma obj_get_spread_present src : forall o k v,
  NoDup src.*1 -> (k, v) ∈ src -> obj_get (spread o src) k = v.
Proof.
  induction src as [|[k0 v0] src IH]; intros o k v Hdup Hin;
    [by apply elem_of_nil in Hin|].
  simpl in Hdup. apply NoDup_cons in Hdup as [Hfresh Hdup].
  rewrite spread_cons. apply elem_of_cons in Hin as [[= -> ->]|Hin].
  - rewrite obj_get_spread_absent by (by apply obj_has_keys).
    by rewrite obj_get_set, String.eqb_refl.
  - by apply IH.
Qed.

(** X15. The name of the function is probed before the function is
    created, and the options can replace it afterwards. Whatever the
    provider answers, the closure [createFunction] of [initialize] sends
    a [createFunction] request only after a [getFunction] for the name
    derived from the nonce has failed: when that probe finds a function,
    no [createFunction] request is sent. The parameters of the request
    are the object literal for that name with the properties of [rest]
    and then those of [awsLambdaOptions] spread over it: a property that
    neither of them has is the literal's, so the function created is the
    one probed when neither names a [FunctionName]; a property of
    [awsLambdaOptions] replaces the literal's, and so does a property of
    [rest] that [awsLambdaOptions] does not have, [FunctionName]
    included, and then the function created is not the one probed. *)
Theorem createFunction_probes_the_nonce_name fModule FunctionName RoleName PolicyArn
    Timeout MemorySize useQueue rest awsLambdaOptions DeadLetterQueueUrl env w :
  (exists l,
     trace (snd (createFunction fModule FunctionName RoleName PolicyArn Timeout
                   MemorySize useQueue rest awsLambdaOptions DeadLetterQueueUrl
                   env w)) =
       trace w ++ l /\
     after_failed_probe env FunctionName
       (fun cf => exists RoleArn ZipFile,
          cf = createFunctionRequest FunctionName RoleArn useQueue ZipFile Timeout
                 MemorySize DeadLetterQueueUrl rest awsLambdaOptions)
       (trace w) l) /\
  (forall RoleArn ZipFile k,
     let literal :=
       createFunctionRequest_literal FunctionName RoleArn useQueue ZipFile Timeout
         MemorySize DeadLetterQueueUrl in
     let cf :=
       createFunctionRequest FunctionName RoleArn useQueue ZipFile Timeout
         MemorySize DeadLetterQueueUrl rest awsLambdaOptions in
     obj_get literal "FunctionName" = PString FunctionName /\
     (obj_has rest k = false -> obj_has awsLambdaOptions k = false ->
      obj_get cf k = obj_get literal k) /\
     (forall v, NoDup awsLambdaOptions.*1 -> (k, v) ∈ awsLambdaOptions ->
        obj_get cf k = v) /\
     (forall v, obj_has awsLambdaOptions k = false ->
        NoDup rest.*1 -> (k, v) ∈ rest -> obj_get cf k = v)).
Proof.
  split.
  - unfold createFunction.
    apply after_failed_probe_bind; [unfold createLambdaRole; sends_tac|].
    intros roleResponse w1.
    apply after_failed_probe_bind; [unfold addNoCreateLogPolicyToRole; sends_tac|].
    intros _ w2.
    apply after_failed_probe_bind; [sends_tac|].
    intros packed w3.
    unfold bind at 1. rewrite quietly_run.
    destruct (env (trace w3) (LambdaGetFunction FunctionName)) as [d|e] eqn:Hprobe.
    { exists [EvReq (LambdaGetFunction FunctionName)]. split; [done|].
      by intros cf [=]%list_elem_of_singleton. }
    match goal with |- context [?m env (add_trace _ w3)] =>
      assert (Hrest : forall w4, exists l,
                trace (snd (m env w4)) = trace w4 ++ l /\
                forall cf, EvReq (LambdaCreateFunction cf) ∈ l ->
                  exists RoleArn ZipFile,
                    cf = createFunctionRequest FunctionName RoleArn useQueue ZipFile
                           Timeout MemorySize DeadLetterQueueUrl rest
                           awsLambdaOptions)
    end.
    { intros w4.
unfold bind at 1, Role_of.
      destruct (Role roleResponse) as [role|]; cbn [ret throw];
        [|exists []; split; [by rewrite app_nil_r|by intros cf ?%elem_of_nil]].
      unfold bind at 1. rewrite promise_run.
      destruct (env (trace w4) (ZipStreamToBuffer (archive packed))) as [zip|e'];
        [|exists [EvReq (ZipStreamToBuffer (archive packed))]; split;
          [done|by intros cf [=]%list_elem_of_singleton]].
      unfold bind at 1.
      match goal with |- context [pollAWSRequest ?n ?d ?fn env ?w] =>
        destruct (pollAWSRequest_requests env n d fn w) as (l & Hl & Hreq);
        destruct (pollAWSRequest n d fn env w) as [[[func|]|e'] w5]
      end; cbn [snd ret throw] in *.
      all: exists (EvReq (ZipStreamToBuffer (archive packed)) :: l).
      all: split; [rewrite Hl; simpl; by rewrite <- app_assoc|].
      all: intros cf [[=]|Hin]%elem_of_cons.
      all: apply Hreq in Hin; injection Hin as ->; by eexists _, _. }
    destruct (Hrest (add_trace [EvReq (LambdaGetFunction FunctionName)] w3))
      as (l & Hl & Hshape).
    exists (EvReq (LambdaGetFunction FunctionName) :: l). split.
    + rewrite Hl. simpl. by rewrite <- app_assoc.
    + intros cf [[=]|Hin]%elem_of_cons. split; [by apply Hshape|].
      exists [], l, e. split; [done|]. by rewrite app_nil_r.
  - intros RoleArn ZipFile k literal cf. split; [done|]. subst cf literal.
    unfold createFunctionRequest. split; [|split].
    + intros Hrest Hopts. by rewrite !obj_get_spread_absent.
    + intros v Hdup Hin. by apply obj_get_spread_present.
    + intros v Hopts Hdup Hin. rewrite obj_get_spread_absent by done.
      by apply obj_get_spread_present.
Qed.

(** ** Roles *)

Lemma promise_bind {B} r (k : Data -> M B) env w :
  bind (promise r) k env w =
  match env (trace w) r with
  | Fulfilled d => k d env (add_trace [EvReq r] w)
  | Failed e => (Thrown e, add_trace [EvReq r] w)
  end.
Proof. unfold bind at 1. rewrite promise_run. by destruct (env _ _). Qed.

Lemma quietly_bind {B} r (k : option Data -> M B) env w :
  bind (quietly r) k env w =
  k (match env (trace w) r with Fulfilled d => Some d | Failed _ => None end)
    env (add_trace [EvReq r] w).
Proof. unfold bind at 1. by rewrite quietly_run. Qed.

(** Both role functions are this computation, for their own [create]
    and [attach] requests. *)
Lemma create_or_reuse_run RoleName create attach env w :
  (do previousRole <- quietly (IamGetRole RoleName);
   match previousRole with
   | Some previousRole => ret previousRole
   | None =>
       do roleResponse <- promise create;
       promise attach;;
       ret roleResponse
   end) env w =
  match env (trace w) (IamGetRole RoleName) with
  | Fulfilled previous => (Ok previous, add_trace [EvReq (IamGetRole RoleName)] w)
  | Failed _ =>
      match env (trace w ++ [EvReq (IamGetRole RoleName)]) create with
      | Failed e =>
          (Thrown e, add_trace [EvReq (IamGetRole RoleName); EvReq create] w)
      | Fulfilled role =>
          (match env (trace w ++ [EvReq (IamGetRole RoleName); EvReq create]) attach with
           | Fulfilled _ => Ok role
           | Failed e => Thrown e
           end,
           add_trace [EvReq (IamGetRole RoleName); EvReq create; EvReq attach] w)
      end
  end.
Proof.
  rewrite quietly_bind.
  destruct (env (trace w) (IamGetRole RoleName)); [done|].
  rewrite promise_bind. cbn [trace add_trace].
  destruct (env (trace w ++ [EvReq (IamGetRole RoleName)]) create);
    [|by rewrite add_trace_app].
  rewrite promise_bind, !add_trace_app. cbn [trace add_trace].
  rewrite <- app_assoc. cbn [app].
  by destruct (env _ attach).
Qed.

(** X16. Roles are reused when found. [createLambdaRole] and
    [createSNSFeedbackRole] first look the role up. When the lookup
    succeeds they return the role found and send nothing else: no policy
    is attached to a role that exists already. When the lookup fails,
    for whatever reason, they ask for the role to be created and then
    for the policy to be attached, return the created role when both
    succeed, and throw the error of the request that failed otherwise. *)
Theorem roles_are_reused_when_found env RoleName PolicyArn w :
  let lookup := IamGetRole RoleName in
  let run (create attach : Request) (result : Res Data * World) :=
    result =
    match env (trace w) lookup with
    | Fulfilled previous => (Ok previous, add_trace [EvReq lookup] w)
    | Failed _ =>
        match env (trace w ++ [EvReq lookup]) create with
        | Failed e => (Thrown e, add_trace [EvReq lookup; EvReq create] w)
        | Fulfilled role =>
            (match env (trace w ++ [EvReq lookup; EvReq create]) attach with
             | Fulfilled _ => Ok role
             | Failed e => Thrown e
             end,
             add_trace [EvReq lookup; EvReq create; EvReq attach] w)
        end
    end in
  run (IamCreateRole RoleName "lambda.amazonaws.com"
         "role for lambda functions created by cloudify" 3600)
      (IamAttachRolePolicy RoleName PolicyArn)
      (createLambdaRole RoleName PolicyArn env w) /\
  run (IamCreateRole RoleName "sns.amazonaws.com"
         "role for SNS failures created by cloudify" 36000)
      (IamAttachRolePolicy RoleName
         "arn:aws:iam::aws:policy/service-role/AmazonSNSRole")
      (createSNSFeedbackRole RoleName env w).
Proof.
  intros lookup run. unfold run, lookup.
  split; apply create_or_reuse_run.
Qed.

(** X17. [deleteRole] never throws. It detaches the attached policies
    that the first listing returned and deletes the inline policies that
    the second listing returned; a listing that fails counts as empty;
    and whatever failed before, it ends by asking for the role to be
    deleted. *)
Theorem deleteRole_best_effort name env w :
  let detached :=
    listed (env (trace w) (IamListAttachedRolePolicies name)) AttachedPolicies in
  let inline :=
    listed (env (trace w
                 ++ EvReq (IamListAttachedRolePolicies name)
                 :: map (fun p => EvReq (IamDetachRolePolicy name p)) detached)
              (IamListRolePolicies name)) PolicyNames in
  deleteRole name env w =
  (Ok tt, add_trace (role_deletion name detached inline) w).
Proof.
  intros detached inline. unfold deleteRole.
  erewrite bind_ok by apply carefully_run.
  match goal with |- context [for_each ?l _] =>
    replace l with detached by (unfold detached, listed; by destruct (env _ _)) end.
  erewrite bind_ok by apply (for_each_carefully (IamDetachRolePolicy name)).
  erewrite bind_ok by apply carefully_run.
  rewrite add_trace_app. cbn [trace add_trace app].
  match goal with |- context [for_each ?l (fun PolicyName => _)] =>
    replace l with inline
      by (unfold inline, listed; by destruct (env _ (IamListRolePolicies name))) end.
  erewrite bind_ok by apply (for_each_carefully (IamDeleteRolePolicy name)).
  erewrite bind_ok by apply carefully_run.
  unfold ret, role_deletion. rewrite !add_trace_app. reflexivity.
Qed.

(** ** The dead-letter queue *)

Lemma createQueue_run QueueName VTimeout deadLetterTargetArn env w :
  let create :=
    SqsCreateQueue QueueName VTimeout
      (if truthy deadLetterTargetArn then deadLetterTargetArn else None) in
  createQueue QueueName VTimeout deadLetterTargetArn env w =
  (match env (trace w) create with
   | Fulfilled response => Ok (QueueUrl response)
   | Failed e => Thrown e
   end, add_trace [EvReq create] w).
Proof.
  intros create. unfold createQueue. rewrite promise_bind. fold create.
  by destruct (env (trace w) create).
Qed.

(** X18. [createDLQ] records the queue before it looks up its ARN. When
    the queue cannot be created, nothing is recorded. Once it is
    created, its URL is in the manifest whether or not the lookup of the
    ARN then fails, so that a later [cleanup] asks for its deletion; what
    is returned is the [QueueArn] attribute of the lookup, undefined when
    the response has no such attribute. *)
Theorem createDLQ_records_queue_first FunctionName Timeout env w :
  let create := SqsCreateQueue (FunctionName +:+ "-DLQ") Timeout None in
  match env (trace w) create with
  | Failed e =>
      createDLQ FunctionName Timeout env w = (Thrown e, add_trace [EvReq create] w)
  | Fulfilled queue =>
      let lookup := SqsGetQueueAttributes (QueueUrl queue) ["QueueArn"] in
      let w' := add_trace [EvReq create; EvReq lookup]
                  (set_resources
                     (set_DeadLetterQueueUrl (QueueUrl queue) (resources w)) w) in
      createDLQ FunctionName Timeout env w =
      (match env (trace w ++ [EvReq create]) lookup with
       | Failed e => Thrown e
       | Fulfilled response =>
           match Attributes response with
           | Some attrs => Ok (lookup_attribute attrs "QueueArn")
           | None => Thrown (TypeError "Cannot read property 'QueueArn' of undefined")
           end
       end, w') /\
      forall url, QueueUrl queue = Some url -> url <> "" ->
        SqsDeleteQueue url ∈ recorded_deletions (resources w')
  end.
Proof.
  intros create.
  assert (Hrun : forall B (k : option string -> M B),
            bind (createQueue (FunctionName +:+ "-DLQ") Timeout None) k env w =
            match env (trace w) create with
            | Fulfilled queue => k (QueueUrl queue) env (add_trace [EvReq create] w)
            | Failed e => (Thrown e, add_trace [EvReq create] w)
            end).
  { intros B k. unfold bind at 1. rewrite createQueue_run.
    change (if truthy None then None else None) with (@None string). fold create.
    by destruct (env (trace w) create). }
  unfold createDLQ. rewrite Hrun.
  destruct (env (trace w) create) as [queue|e]; [|done].
  cbn zeta. split.
  - unfold bind at 1. unfold assign, modify at 1.
    rewrite promise_bind. cbn [trace add_trace set_resources].
    match goal with |- context [add_trace [?b] (set_resources ?r (add_trace [?a] w))] =>
      replace (add_trace [b] (set_resources r (add_trace [a] w)))
        with (add_trace [a; b]
                (set_resources (set_DeadLetterQueueUrl (QueueUrl queue) (resources w)) w))
        by (unfold add_trace, set_resources; simpl; by rewrite <- app_assoc)
    end.
    destruct (env _ _) as [response|e]; [|done].
    by destruct (Attributes response).
  - intros url Hurl Hne. unfold recorded_deletions. rewrite !elem_of_app.
    do 6 right. simpl. rewrite Hurl. unfold recorded, truthy.
    apply String.eqb_neq in Hne. rewrite Hne. simpl.
    by apply list_elem_of_singleton.
Qed.

(** ** [cancelWithoutCleanup] *)

(** X19. [cancelWithoutCleanup] only stops. It sends at most two
    requests, each of them a stop message: one to the response queue,
    when that queue is recorded and a collector handle is set, and one to
    the dead-letter queue, when that queue is recorded. It deletes
    nothing and leaves the manifest as it is; what it leaves to be
    awaited is the collector's promise, when the first stop message was
    sent, and nothing otherwise. *)
Theorem cancelWithoutCleanup_only_stops env w :
  exists l awaited,
    cancelWithoutCleanup env w = (Ok awaited, add_trace l w) /\
    length l <= 2 /\
    (forall ev, ev ∈ l ->
       exists url, ev = EvReq (stop_message url) /\
         (Some url = ResponseQueueUrl (resources w) /\
          is_Some (resultCollectorPromise w) \/
          Some url = DeadLetterQueueUrl (resources w))) /\
    (awaited = ret tt <-> awaited_collector w = None).
Proof.
  rewrite cancelWithoutCleanup_run. eexists _, _. split; [done|].
  unfold awaited_collector, opt_req.
  destruct (ResponseQueueUrl (resources w)) as [url|];
    destruct (DeadLetterQueueUrl (resources w)) as [dlq|];
    destruct (resultCollectorPromise w) as [h|]; simpl;
    repeat match goal with |- context [String.eqb ?s ""] => destruct (String.eqb s "") end;
    simpl.
  all: split; [lia|]; split;
    [intros ev Hev; repeat (apply elem_of_cons in Hev as [->|Hev]; [eauto 6|]);
       by apply elem_of_nil in Hev|].
  all: split; [|done]; try done.
  all: intros Heq; exfalso;
    apply (f_equal (fun m' => fst (m' (fun _ _ => Failed (new_Error "x")) w))) in Heq;
    by vm_compute in Heq.
Qed.

(** ** A notifier that cannot be configured *)

Lemma fails_throw {A} env e : fails env (@throw A e).
Proof. intros w. by exists e. Qed.

Lemma fails_bind_l {A B} env (m : M A) (k : A -> M B) :
  fails env m -> fails env (bind m k).
Proof.
  intros Hm w. unfold bind. destruct (Hm w) as [e He].
  destruct (m env w) as [[a|e'] w1]; simpl in *; [done|]. by exists e'.
Qed.

Lemma fails_bind_r {A B} env (m : M A) (k : A -> M B) :
  (forall a, fails env (k a)) -> fails env (bind m k).
Proof.
  intros Hk w. unfold bind.
  destruct (m env w) as [[a|e'] w1]; [apply Hk|by exists e'].
Qed.

Lemma fails_pollAWSRequest env n description fn :
  (forall tr, exists e, env tr (fn tt) = Failed e) ->
  fails env (pollAWSRequest n description fn).
Proof.
  intros Hfn w.
  destruct (pollAWSRequest_run env n description fn w)
    as (k & _ & _ & [(d & _ & Hd & _)|[_ ->]]); [|by eexists].
  destruct (Hfn (trace w ++ EvSleep 2000 :: failed_attempts fn k)) as [e He].
  congruence.
Qed.

Lemma fails_createSNSNotifier env Name RoleArn :
  (forall tr t a v, exists e, env tr (SnsSetTopicAttributes t a v) = Failed e) ->
  fails env (createSNSNotifier Name RoleArn).
Proof.
  intros Henv. unfold createSNSNotifier.
  apply fails_bind_r. intros topic. apply fails_bind_l.
  apply fails_pollAWSRequest. intros tr. apply Henv.
Qed.

Lemma preserves_bind_fails {A B} env I (m : M A) (k : A -> M B) :
  preserves env I m -> fails env m -> preserves env I (bind m k).
Proof.
  intros Hm Hfails w Hw. unfold bind. specialize (Hm w Hw).
  destruct (Hfails w) as [e He].
  destruct (m env w) as [[a|e'] w1]; simpl in *; [done|done].
Qed.

Lemma recorded_class x (f : string -> Request) req :
  req ∈ recorded x f -> exists v, req = f v.
Proof.
  unfold recorded. destruct x as [v|]; [|by intros ?%elem_of_nil].
  destruct (truthy _); [|by intros ?%elem_of_nil].
  intros ->%list_elem_of_singleton. by exists v.
Qed.

Lemma cleanup_without_topic env w arn l :
  RequestTopicArn (resources w) = None ->
  snd (cleanup env w) = add_trace l w ->
  EvReq (SnsDeleteTopic arn) ∉ l.
Proof.
  intros Hnone Hl Hin.
  destruct (cleanup_trace env w) as (roles & feedback & l' & Hroles & Hfeedback & Hl' & Hall).
  assert (l' = l) as ->.
  { rewrite Hl in Hl'. apply (f_equal trace) in Hl'. simpl in Hl'.
    by apply app_inv_head in Hl'. }
  destruct (Hall _ Hin) as [H|(handle & _ & [=])].
  apply (cleanup_events_recorded w roles feedback) in H; [|done|done|done].
  unfold recorded_deletions in H. rewrite Hnone in H.
  rewrite !elem_of_app in H.
  destruct (bool_decide _); rewrite ?elem_of_app in H; destruct_or?;
    try (by apply elem_of_nil in H);
    by apply recorded_class in H as [v [=]].
Qed.

(** X20. A notifier that cannot be configured leaves its topic behind.
    [initialize] records the request topic only once [createSNSNotifier]
    has returned. So on a provider that creates the topic but on which
    [setTopicAttributes] never succeeds, [initialize] in queue mode
    fails, and neither it nor the teardown it runs ever asks for a topic
    to be deleted. *)
Theorem unconfigured_notifier_leaves_topic fModule options nonce env w :
  s_useQueue (settings options nonce) = true ->
  (forall tr t a v, exists e, env tr (SnsSetTopicAttributes t a v) = Failed e) ->
  (exists e, fst (initialize fModule options nonce env w) = Thrown e) /\
  exists l,
    trace (snd (initialize fModule options nonce env w)) = trace w ++ l /\
    forall arn, EvReq (SnsDeleteTopic arn) ∉ l.
Proof.
  intros Hqueue Henv.
  set (s := settings options nonce) in *.
  set (I := fun w : World => RequestTopicArn (resources w) = None).
  assert (HI : traceless I) by (by intros ev w0).
  pose proof (fails_createSNSNotifier env) as Hnotifier.
  assert (Hblock_fails : forall A (k : option string -> M A) name,
            fails env
              (do snsRole <- createSNSFeedbackRole name;
               do role <- Role_of snsRole;
               assign (set_SNSFeedbackRole (Some (role_RoleName role)));;
               do topic <- createSNSNotifier (s_FunctionName s +:+ "-Requests")
                             (role_Arn role);
               k topic)).
  { intros A k name. apply fails_bind_r. intros snsRole.
    apply fails_bind_r. intros role. apply fails_bind_r. intros _.
    apply fails_bind_l. by apply Hnotifier. }
  assert (Hblock_keeps : forall A (k : option string -> M A) name,
            preserves env I
              (do snsRole <- createSNSFeedbackRole name;
               do role <- Role_of snsRole;
               assign (set_SNSFeedbackRole (Some (role_RoleName role)));;
               do topic <- createSNSNotifier (s_FunctionName s +:+ "-Requests")
                             (role_Arn role);
               k topic)).
  { intros A k name.
    apply preserves_bind;
      [unfold createSNSFeedbackRole; preserves_tac HI HI|intros snsRole].
    apply preserves_bind; [apply preserves_Role_of|intros role].
    apply preserves_bind; [apply preserves_modify; intros w0 Hw0; exact Hw0|intros _].
    apply preserves_bind_fails; [|by apply Hnotifier].
    unfold createSNSNotifier. preserves_tac HI HI. }
  assert (Hfails : fails env (initialize_try fModule s)).
  { unfold initialize_try. rewrite Hqueue. cbv iota.
    apply fails_bind_r. intros _. apply fails_bind_r. intros arn.
    apply fails_bind_r. intros _. apply fails_bind_r. intros p.
    apply fails_bind_l. apply Hblock_fails. }
  assert (Hkeeps : preserves env I (initialize_try fModule s)).
  { unfold initialize_try. rewrite Hqueue. cbv iota.
    apply preserves_bind;
      [unfold createLogGroup; preserves_tac HI HI|intros _].
    apply preserves_bind; [|intros arn].
    { unfold createDLQ, createQueue.
      repeat first
        [ apply preserves_promise; exact HI
        | apply preserves_bind; [|intros ?]
        | apply preserves_ret
        | apply preserves_throw
        | apply preserves_modify; intros w0 Hw0; exact Hw0
        | match goal with
          | |- preserves _ _ (match ?x with _ => _ end) => destruct x
          end ]. }
    apply preserves_bind;
      [unfold deadLetterQueueCollector; preserves_tac HI HI|intros _].
    apply preserves_bind; [|intros p].
    { apply preserves_start.
      unfold createFunction, createLambdaRole, addNoCreateLogPolicyToRole.
      preserves_tac HI HI. }
    apply preserves_bind_fails; [apply Hblock_keeps|apply Hblock_fails]. }
  unfold initialize. erewrite bind_ok by reflexivity. unfold try_catch.
  fold s. set (w0 := new_State _ _ w).
  assert (Hw0 : I w0) by done.
  specialize (Hkeeps w0 Hw0).
  destruct (Hfails w0) as [e He].
  destruct (sends_initialize_try env fModule s w0) as (l & Hl & HP).
  destruct (initialize_try fModule s env w0) as [[[]|e'] w1]; [done|].
  cbn [fst snd] in *.
  destruct (cleanup_trace env w1) as (roles & feedback & l2 & _ & _ & Hl2 & _).
  pose proof (cleanup_without_topic env w1) as Hnone.
  unfold bind. destruct (cleanup env w1) as [[[]|e2] w2]; cbn [fst snd] in *; subst w2.
  all: split; [by eexists|].
  all: exists (l ++ l2); simpl; rewrite Hl, app_assoc; (split; [done|]).
  all: intros arn [Hin|Hin]%elem_of_app;
    [by apply HP in Hin|by eapply (Hnone arn l2)].
Qed.

(** ** The dead-letter queue collector *)

Lemma deadLetterQueueCollector_forEach_spec Messages : forall turn,
  continueMonitoring (deadLetterQueueCollector_forEach Messages turn) =
    continueMonitoring turn && negb (existsb isQueueStopMessage Messages) /\
  dead_letters (dead_letter_log (deadLetterQueueCollector_forEach Messages turn)) =
    dead_letters (dead_letter_log turn)
    ++ List.filter (fun m => negb (isQueueStopMessage m)) Messages.
Proof.
  unfold deadLetterQueueCollector_forEach, dead_letters.
  induction Messages as [|m Messages IH]; intros turn; simpl.
  - by rewrite andb_true_r, app_nil_r.
  - destruct (IH (if isQueueStopMessage m
                  then mkDeadLetterTurn false (dead_letter_log turn ++ [LogDeadLetterStop])
                  else mkDeadLetterTurn (continueMonitoring turn)
                         (dead_letter_log turn ++ [LogDeadLetter m]))) as [Hc Hl].
    rewrite Hc, Hl. destruct (isQueueStopMessage m); simpl.
    + rewrite andb_false_r, flat_map_app. simpl. by rewrite app_nil_r.
    + rewrite flat_map_app. simpl. by rewrite <- app_assoc.
Qed.

(** X21. The dead-letter queue collector. Resumed with a batch, it asks
    for the whole batch to be deleted from the queue and then looks at
    every message of it: a stop message does not cut the batch short, as
    it does in the response collector. Every other message is logged as
    a dead letter, in the order received, and the collector polls again
    exactly when the batch held no stop message. When the poll rejects,
    the collector ends with that error and sends nothing. *)
Theorem deadLetterQueueCollector_turn DeadLetterQueueUrl w :
  (forall Messages,
     let batch := default [] Messages in
     exists turn,
       deadLetterQueueCollector_resume DeadLetterQueueUrl (Ok Messages) w =
       (Ok turn,
        add_trace
          ((if 0 <? length batch
            then [delete_batch DeadLetterQueueUrl batch] else [])
           ++ (if continueMonitoring turn
               then [EvReq (SqsReceiveMessage DeadLetterQueueUrl 20 10 ["cloudify"])]
               else [])) w) /\
       continueMonitoring turn = negb (existsb isQueueStopMessage batch) /\
       dead_letters (dead_letter_log turn) =
         List.filter (fun m => negb (isQueueStopMessage m)) batch) /\
  (forall e,
     deadLetterQueueCollector_resume DeadLetterQueueUrl (Thrown e) w = (Thrown e, w)).
Proof.
  split; [|done]. intros Messages batch.
  unfold deadLetterQueueCollector_resume. fold batch.
  set (log := if 0 <? length batch then [LogDeadLetters (length batch)] else []).
  destruct (deadLetterQueueCollector_forEach_spec batch (mkDeadLetterTurn true log))
    as [Hc Hl].
  eexists. split; [|split; [exact Hc|]].
  - f_equal. unfold deleteSQSMessages, delete_batch.
    destruct (0 <? length batch); destruct (continueMonitoring _);
      cbn [app]; rewrite ?add_trace_nil; try done.
    unfold add_trace, emit; simpl. by rewrite <- app_assoc.
  - rewrite Hl. unfold log. by destruct (0 <? length batch).
Qed.

(** ** Roles named by the caller *)

(** X22. Teardown never deletes a role the caller named. Take a state
    that [initialize] returned and any later [cleanup] of it. When it
    asks for a role to be deleted, the options said
    [createTemporaryRole], and the role is the one [initialize] named
    after the nonce, whatever [RoleName] the options gave, or the
    feedback role that the manifest records. *)
Theorem teardown_spares_named_role fModule options nonce env env' w w' l name :
  initialize fModule options nonce env w = (Ok tt, w') ->
  snd (cleanup env' w') = add_trace l w' ->
  EvReq (IamDeleteRole name) ∈ l ->
  o_rolePolicy options = Some createTemporaryRole /\
  (name = "cloudify-role-" +:+ nonce \/ SNSFeedbackRole (resources w') = Some name).
Proof.
  intros Hinit Hl Hin.
  destruct (initialize_ok _ _ _ _ _ _ Hinit) as ((_ & Hrole & Hpolicy & _) & _).
  destruct (cleanup_trace env' w')
    as (roles & feedback & l' & Hroles & Hfeedback & Hl' & Hall).
  assert (l' = l) as ->.
  { rewrite Hl in Hl'. apply (f_equal trace) in Hl'. simpl in Hl'.
    by apply app_inv_head in Hl'. }
  destruct (Hall _ Hin) as [H|(handle & _ & [=])].
  apply (cleanup_events_recorded w' roles feedback) in H; [|done|done|done].
  unfold recorded_deletions in H. rewrite !elem_of_app in H.
  case_bool_decide as Htemp.
  - rewrite Hpolicy in Htemp. injection Htemp as Htemp.
    unfold settings in Htemp, Hrole. cbn [s_rolePolicy s_RoleName] in Htemp, Hrole.
    rewrite bool_decide_eq_true_2 in Hrole by done.
    assert (Hopt : o_rolePolicy options = Some createTemporaryRole).
    { destruct (o_rolePolicy options) as [p|]; simpl in Htemp; congruence. }
    split; [done|].
    rewrite elem_of_app in H. destruct_or?;
      try (by apply recorded_class in H as [v [=]]).
    + left. rewrite Hrole in H. unfold recorded in H.
      destruct (truthy _); [|by apply elem_of_nil in H].
      by apply list_elem_of_singleton in H as [= ->].
    + right. unfold recorded in H.
      destruct (SNSFeedbackRole (resources w')) as [v|]; [|by apply elem_of_nil in H].
      destruct (truthy _); [|by apply elem_of_nil in H].
      by apply list_elem_of_singleton in H as [= ->].
  - destruct_or?; try (by apply elem_of_nil in H);
      by apply recorded_class in H as [v [=]].
Qed.

(** ** What a failed [initialize] always asks to delete *)

Lemma recorded_set (f : string -> Request) v :
  String.eqb v "" = false -> f v ∈ recorded (Some v) f.
Proof.
  intros Hv. unfold recorded, truthy. rewrite Hv. simpl.
  by apply list_elem_of_singleton.
Qed.

(** X23. A failed [initialize] has asked for the function and the log
    group that it named to be deleted, in every schedule of the main
    flow and the closure. Their names are in the manifest before the
    first request, so whichever step fails, by the time [initialize]
    throws, the teardown has asked for the function and for the log group
    named after the nonce to be deleted, and, when the options say
    [createTemporaryRole], for the role named after the nonce as well.
    That the deletion was asked for does not mean that the function is
    gone: the closure can still be in flight, and ask for the function to
    be created after [cleanup] asked for it to be deleted. *)
Theorem failed_initialize_asks_to_delete_what_it_named fModule options nonce env w
    schedule e :
  let c := Async.run env schedule
             (Async.begin env (Async.initialize fModule options nonce) w) in
  Async.main c = Async.Done (Thrown e) ->
  exists l,
    trace (Async.world c) = trace w ++ l /\
    EvReq (LambdaDeleteFunction ("cloudify-" +:+ nonce)) ∈ l /\
    EvReq (LogsDeleteLogGroup ("/aws/lambda/" +:+ ("cloudify-" +:+ nonce))) ∈ l /\
    (o_rolePolicy options = Some createTemporaryRole ->
     EvReq (IamDeleteRole ("cloudify-role-" +:+ nonce)) ∈ l).
Proof.
  intros c Hthrown.
  set (s := settings options nonce).
  set (w0 := new_State (initial_resources s) (Some (s_useQueue s)) w).
  set (Q := fun (r : Res unit) (w' : World) =>
              match r with
              | Ok _ => True
              | Thrown _ =>
                  exists l,
                    trace w' = trace w ++ l /\
                    EvReq (LambdaDeleteFunction ("cloudify-" +:+ nonce)) ∈ l /\
                    EvReq (LogsDeleteLogGroup
                             ("/aws/lambda/" +:+ ("cloudify-" +:+ nonce))) ∈ l /\
                    (o_rolePolicy options = Some createTemporaryRole ->
                     EvReq (IamDeleteRole ("cloudify-role-" +:+ nonce)) ∈ l)
              end).
  assert (HQ : stable Q).
  { intros [[]|e'] w' l'; [done|]. intros (l & Hl & Hfn & Hlog & Hrole).
    exists (l ++ l'). simpl. rewrite Hl, app_assoc. split; [done|].
    rewrite !elem_of_app. split; [by left|]. split; [by left|].
    intros Htemp. left. by apply Hrole. }
  assert (Hwp : wp env (Async.initialize fModule options nonce) Q w).
  { unfold Async.initialize. fold s.
    change (wp env
              (Async.try_catch (Async.initialize_try fModule s) Async.initialize_catch)
              Q w0).
    apply wp_try_catch.
    eapply wp_mono; [|apply wp_initialize_try, trying_new_State].
    intros [[]|e'] w1; [done|].
    intros ((Hfn & Hrole & Hpolicy & Hlog & _) & Hnone & l1 & Hl1).
    unfold Async.initialize_catch. apply wp_bind, wp_cleanup; [done|].
    intros l2 Hall. cbn [wp mthrow Async.Task_throw]. unfold Q.
    exists (l1 ++ l2). split; [|split; [|split]].
    - simpl. by rewrite Hl1, app_assoc.
    - apply elem_of_app. right. apply Hall. unfold recorded_deletions.
      rewrite Hfn. rewrite !elem_of_app. right. left. by apply recorded_set.
    - apply elem_of_app. right. apply Hall. unfold recorded_deletions.
      rewrite Hlog. rewrite !elem_of_app. do 2 right. left. by apply recorded_set.
    - intros Htemp. apply elem_of_app. right. apply Hall. unfold recorded_deletions.
      assert (Hs : s_rolePolicy s = createTemporaryRole)
        by (unfold s, settings; simpl; by rewrite Htemp).
      assert (Hname : s_RoleName s = "cloudify-role-" +:+ nonce).
      { unfold s, settings. cbn [s_RoleName]. by rewrite Htemp. }
      rewrite Hpolicy, Hs, Hrole, Hname.
      rewrite bool_decide_eq_true_2 by done.
      rewrite !elem_of_app. do 3 right. left. left. by apply recorded_set. }
  exact (wp_sound env _ Q None w schedule (Thrown e) HQ Hwp Hthrown).
Qed.

End Host.

(* ================================================================== *)
(** * Part VIII: the properties at the sample inputs                   *)
(* ================================================================== *)

(** Two calls are enqueued, their replies arrive in one batch in the
    other order, the batch's timer fires: the deferred of the first call
    holds the reply to the first call. *)
Lemma correlation_witness :
  let received :=
    resultCollector_resume 0
      (Ok (Some [sample_reply "c2" "15"; sample_reply "c1" "2"])) sample_two_calls in
  let w :=
    run_timer sample_JSON_parse
      (TResolvePromises
         [mkCallResults (Some "c2") (sample_reply "c2" "15") (Some 1);
          mkCallResults (Some "c1") (sample_reply "c1" "2") (Some 0)])
      (set_timers [TStartResultCollectorIfNeeded] received) in
  let r := mkQueued (FRValue (JNum 2)) (sample_reply "c1" "2") in
  reachable sample_JSON_parse w /\
  deferreds w !! 0 = Some (Resolved r) /\
  exists CallId,
    (CallId, 0) ∈ enqueuings (trace w) /\ answers sample_JSON_parse CallId r /\
    forall CallId', (CallId', 0) ∈ enqueuings (trace w) -> CallId' = CallId.
Proof.
  intros received w r.
  assert (Hreach : reachable sample_JSON_parse w).
  { eapply reachable_step;
      [|apply (step_timer sample_JSON_parse _ [TStartResultCollectorIfNeeded] received);
        vm_compute; reflexivity].
    eapply reachable_step;
      [|apply (step_receive sample_JSON_parse 0); vm_compute; left; reflexivity].
    eapply reachable_step; [|apply step_call].
    eapply reachable_step; [|apply step_call].
    apply reachable_idle. repeat split. }
  assert (Hd : deferreds w !! 0 = Some (Resolved r)) by (vm_compute; reflexivity).
  split; [exact Hreach|]. split; [exact Hd|].
  exact (proj1 (correlation sample_JSON_parse w Hreach) 0 r Hd).
Defined.

Lemma registration_before_publish_witness :
  useQueue sample_idle = Some true /\
  exists w',
    responsifedFunc "add" [JNum 1; JNum 1] "c1" sample_idle = (AwaitPublish 0, w') /\
    Map_get (callResultPromises w') "c1" = Some 0 /\
    deferreds w' !! 0 = Some Pending /\
    exists c, collectors w' = [c] /\ resultCollectorPromise w' = Some c.
Proof.
  split; [reflexivity|].
  destruct (registration_before_publish sample_JSON_parse
              "add" [JNum 1; JNum 1] "c1" sample_idle eq_refl)
    as (started & w' & Hrun & _ & Hget & Hpending & _ & Hlive).
  exists w'. split; [exact Hrun|]. split; [exact Hget|]. split; [exact Hpending|].
  apply Hlive. apply polled_idle. by repeat split.
Defined.

(** C2 as stated fails after a failed poll: the collector has ended,
    the state still holds its handle, and the next call publishes its
    request while no collector runs. *)
Lemma registration_without_collector :
  let w := resultCollector_resume 0
             (Thrown (new_Error "NetworkingError")) sample_two_calls in
  let call := mkFunctionCall "add" [JNum 2; JNum 3] "c3"
                (ResponseQueueUrl (resources w)) in
  let w' := snd (responsifedFunc "add" [JNum 2; JNum 3] "c3" w) in
  reachable sample_JSON_parse w /\
  useQueue w = Some true /\
  collectors w = [] /\
  Map_get (callResultPromises w) "c3" = None /\
  fst (responsifedFunc "add" [JNum 2; JNum 3] "c3" w) = AwaitPublish 2 /\
  Map_get (callResultPromises w') "c3" = Some 2 /\
  trace w' = trace w ++ [EvLog (LogCalling call); EvLog (LogEnqueuing "c3" 2);
                         EvReq (SnsPublish (RequestTopicArn (resources w)) call)] /\
  collectors w' = [].
Proof.
  split; [|by vm_compute].
  eapply reachable_step; [|apply step_receive; by left].
  eapply reachable_step; [|apply step_call].
  eapply reachable_step; [|apply step_call].
  apply reachable_idle. by repeat split.
Qed.

Lemma at_most_one_collector_witness :
  reachable sample_JSON_parse sample_two_calls /\
  length (collectors sample_two_calls) <= 1 /\
  (calm_reachable sample_JSON_parse sample_two_calls ->
   (collectors sample_two_calls = [] <-> callResultPromises sample_two_calls = [])).
Proof.
  assert (Hreach : reachable sample_JSON_parse sample_two_calls).
  { eapply reachable_step; [|apply step_call].
    eapply reachable_step; [|apply step_call].
    apply reachable_idle. repeat split. }
  split; [exact Hreach|].
  destruct (at_most_one_collector sample_JSON_parse sample_two_calls Hreach)
    as (Hle & _ & _ & Hcalm & _).
  split; [exact Hle|exact Hcalm].
Defined.

(** C3 as it is stated fails: after a stop sentinel no collector is left
    and the map still holds the calls that were rejected. *)
Lemma at_most_one_collector_iff_fails :
  ~ (forall w, reachable sample_JSON_parse w ->
       (length (collectors w) = 0 <-> callResultPromises w = [])).
Proof.
  intros Hclaim.
  set (w := resultCollector_resume 0 (Ok (Some [sample_stop])) sample_two_calls).
  assert (Hreach : reachable sample_JSON_parse w).
  { eapply reachable_step;
      [|apply (step_receive sample_JSON_parse 0); vm_compute; left; reflexivity].
    eapply reachable_step; [|apply step_call].
    eapply reachable_step; [|apply step_call].
    apply reachable_idle. repeat split. }
  destruct (Hclaim w Hreach) as [Hempty _].
  assert (Hmap : callResultPromises w = []) by (apply Hempty; vm_compute; reflexivity).
  vm_compute in Hmap. discriminate Hmap.
Qed.

Lemma invoke_result_mapping_witness :
  let raw := mkInvocation None None (Some "2") in
  truthy (FunctionError raw) = false /\
  sample_JSON_parse "2" = Some (FRValue (JNum 2)) /\
  responsifedFunc_direct sample_JSON_parse (Ok raw) =
  Ok (mkResponse (VJson (JNum 2)) None (RawInvocation raw)).
Proof.
  intros raw. split; [reflexivity|]. split; [reflexivity|].
  refine (proj1 (proj2 (invoke_result_mapping sample_JSON_parse (FRValue (JNum 2))))
            raw "2" eq_refl eq_refl _ eq_refl).
  discriminate.
Defined.

(** A function of the derived name exists already. The name-collision
    probe fails in the closure while the main flow
    is at its SNS steps; the main flow learns of it when it awaits the
    promise, with the topic and the queues created by then. *)
Lemma initialize_partial_failure_teardown_witness :
  let collision := new_Error "Function name hash collision" in
  let s := settings sample_options "n" in
  let schedule := main_only 4 ++ replicate 4 Async.resume_closure ++ main_only 5 in
  let failed :=
    Async.step sample_env Async.resume_main
      (Async.run sample_env schedule
         (Async.begin sample_env (Async.initialize_try "module" s)
            (new_State (initial_resources s) (Some (s_useQueue s)) sample_idle))) in
  Async.main failed = Async.Done (Thrown collision) /\
  exists n l,
    let c := Async.run sample_env (schedule ++ Async.resume_main :: main_only n)
               (Async.begin sample_env (Async.initialize "module" sample_options "n")
                  sample_idle) in
    Async.main c = Async.Done (Thrown collision) /\
    Async.world c = add_trace l (Async.world failed) /\
    EvReq (LambdaDeleteFunction "cloudify-n") ∈ l /\
    EvReq (LogsDeleteLogGroup "/aws/lambda/cloudify-n") ∈ l /\
    EvReq (SnsDeleteTopic "arn:topic") ∈ l /\
    EvReq (SqsDeleteQueue "https://sqs/queue") ∈ l.
Proof.
  intros collision s schedule failed.
  assert (Hfailed : Async.main failed = Async.Done (Thrown collision))
    by (vm_compute; reflexivity).
  split; [exact Hfailed|].
  destruct (initialize_partial_failure_teardown "module" sample_options "n"
              sample_env sample_idle schedule collision
              ltac:(vm_compute; reflexivity) Hfailed) as (Hall & n & Hn).
  destruct (Hall (main_only n)) as (_ & Hdone).
  destruct (Hdone _ Hn) as (_ & l & Hl & Hreq).
  exists n, l. split; [exact Hn|]. split; [exact Hl|].
  assert (Hres : recorded_deletions (resources (Async.world failed)) =
            [LambdaDeleteFunction "cloudify-n";
             LogsDeleteLogGroup "/aws/lambda/cloudify-n";
             SnsDeleteTopic "arn:topic";
             SqsDeleteQueue "https://sqs/queue";
             SqsDeleteQueue "https://sqs/queue"]) by (vm_compute; reflexivity).
  fold s schedule failed in Hreq. rewrite Hres in Hreq.
  repeat split; apply Hreq; repeat constructor.
Defined.


Lemma cleanupResources_contract_witness :
  sample_parse_resources (getResourceList sample_region sample_idle) =
    Some (resources sample_idle) /\
  cleanupResources sample_parse_resources (getResourceList sample_region sample_idle)
    sample_env sample_idle =
  cleanup sample_env (new_State (resources sample_idle) None sample_idle).
Proof.
  split; [reflexivity|].
  exact (proj1 (cleanupResources_contract sample_region sample_parse_resources
                  sample_idle sample_env sample_env sample_idle eq_refl)).
Defined.

(** C9 as it is stated fails: a manifest whose region field is present
    and empty is refused like one without a region. *)
Lemma cleanupResources_empty_region_throws :
  let live := set_resources sample_empty_region sample_idle in
  let manifest := getResourceList sample_region live in
  region (resources live) = Some "" /\
  sample_parse_resources manifest = Some (resources live) /\
  cleanupResources sample_parse_resources manifest sample_env sample_idle =
    (Thrown (new_Error "Resources missing 'region'"), sample_idle) /\
  cleanupResources sample_parse_resources manifest sample_env sample_idle <>
    cleanup sample_env (new_State (resources live) None sample_idle).
Proof.
  intros live manifest.
  split; [reflexivity|]. split; [reflexivity|]. split; [reflexivity|].
  vm_compute. discriminate.
Qed.

(** ** The further properties at the sample inputs *)

Lemma stop_sentinel_first_cancels_everything_witness :
  isQueueStopMessage sample_stop = true /\
  let w' :=
    resultCollector_resume 0 (Ok (Some [sample_stop; sample_reply "c1" "2"]))
      sample_two_calls in
  deferreds w' !! 0 = Some (Rejected cancelled) /\
  deferreds w' !! 1 = Some (Rejected cancelled) /\
  timers w' = [].
Proof.
  split; [reflexivity|].
  destruct (stop_sentinel_first_cancels_everything 0 sample_stop
              [sample_reply "c1" "2"] sample_two_calls eq_refl)
    as (Hd & _ & _ & _ & Ht).
  split; [exact (Hd 0)|]. split; [exact (Hd 1)|exact Ht].
Defined.

Lemma resolvePromises_undelivered_witness :
  let nobody :=
    mkMessage (Some "id-c1") (Some "receipt") None
      (Some [("CallId", mkAttr "String" (Some "c1"))]) in
  let garbled := sample_reply "c1" "oops" in
  let behind := mkCallResults (Some "c2") (sample_reply "c2" "15") (Some 1) in
  truthy (Body nobody) = false /\
  sample_JSON_parse (default "" (Body garbled)) = None /\
  deferreds (resolvePromises sample_JSON_parse
               [mkCallResults (Some "c1") nobody (Some 0)] sample_two_calls) =
    deferreds (resolvePromises sample_JSON_parse [] sample_two_calls) /\
  deferreds (resolvePromises sample_JSON_parse
               [mkCallResults (Some "c1") garbled (Some 0); behind] sample_two_calls) =
    deferreds sample_two_calls.
Proof.
  intros nobody garbled behind.
  split; [reflexivity|]. split; [reflexivity|]. split.
  - exact (proj1 (resolvePromises_undelivered sample_JSON_parse (Some "c1") nobody
                    (Some 0) [] sample_two_calls) eq_refl).
  - exact (proj1 (proj2 (resolvePromises_undelivered sample_JSON_parse (Some "c1")
                           garbled (Some 0) [behind] sample_two_calls)
                    eq_refl eq_refl)).
Defined.

Lemma direct_mode_never_queues_witness :
  let w := snd (responsifedFunc "add" [JNum 1; JNum 1] "c1" sample_direct) in
  unused sample_direct /\ useQueue sample_direct <> Some true /\
  steps sample_JSON_parse sample_direct w /\
  unused w /\ useQueue w = Some false.
Proof.
  intros w.
  assert (Hunused : unused sample_direct) by (repeat split).
  assert (Hdirect : useQueue sample_direct <> Some true) by discriminate.
  assert (Hsteps : steps sample_JSON_parse sample_direct w).
  { eapply steps_next; [apply steps_refl|apply step_call]. }
  split; [exact Hunused|]. split; [exact Hdirect|]. split; [exact Hsteps|].
  exact (direct_mode_never_queues sample_JSON_parse sample_direct w
           Hunused Hdirect Hsteps).
Defined.

Lemma restart_check_is_idle_witness :
  let received :=
    resultCollector_resume 0
      (Ok (Some [sample_reply "c2" "15"; sample_reply "c1" "2"])) sample_two_calls in
  let w :=
    run_timer sample_JSON_parse
      (TResolvePromises
         [mkCallResults (Some "c2") (sample_reply "c2" "15") (Some 1);
          mkCallResults (Some "c1") (sample_reply "c1" "2") (Some 0)])
      (set_timers [TStartResultCollectorIfNeeded] received) in
  calm_reachable sample_JSON_parse w /\
  timers w = [TStartResultCollectorIfNeeded] /\
  run_timer sample_JSON_parse TStartResultCollectorIfNeeded (set_timers [] w) =
    set_timers [] w.
Proof.
  intros received w.
  assert (Hcalm : calm_reachable sample_JSON_parse w).
  { eapply calm_next;
      [|apply (calm_timer sample_JSON_parse _ [TStartResultCollectorIfNeeded] received);
        vm_compute; reflexivity].
    eapply calm_next;
      [|apply (calm_receive sample_JSON_parse 0);
        [vm_compute; left; reflexivity|reflexivity]].
    eapply calm_next; [|apply calm_call].
    eapply calm_next; [|apply calm_call].
    apply calm_idle. repeat split. }
  assert (Ht : timers w = [TStartResultCollectorIfNeeded]) by (vm_compute; reflexivity).
  split; [exact Hcalm|]. split; [exact Ht|].
  exact (restart_check_is_idle sample_JSON_parse w [] Hcalm Ht).
Defined.

Lemma reachable_tidy_witness :
  reachable sample_JSON_parse sample_two_calls /\
  NoDup (map fst (callResultPromises sample_two_calls)) /\
  (forall k d, Map_get (callResultPromises sample_two_calls) k = Some d ->
     deferreds sample_two_calls !! d = Some Pending \/
     deferreds sample_two_calls !! d = Some (Rejected cancelled)).
Proof.
  assert (Hreach : reachable sample_JSON_parse sample_two_calls).
  { eapply reachable_step; [|apply step_call].
    eapply reachable_step; [|apply step_call].
    apply reachable_idle. repeat split. }
  split; [exact Hreach|].
  destruct (reachable_tidy sample_JSON_parse sample_two_calls Hreach)
    as (Hkeys & _ & Hmap).
  split; [exact Hkeys|exact Hmap].
Defined.

Lemma malformed_message_strands_batch_witness :
  let err := TypeError "Cannot read property 'CallId' of undefined" in
  let w' :=
    resultCollector_resume 0
      (Ok (Some ([sample_reply "c1" "2"] ++ sample_malformed :: [sample_reply "c2" "15"])))
      sample_two_calls in
  reachable sample_JSON_parse sample_two_calls /\
  CallId_of sample_malformed = Thrown err /\
  Map_get (callResultPromises sample_two_calls) "c1" = Some 0 /\
  Map_get (callResultPromises w') "c1" = None /\
  timers w' = [] /\
  deferreds w' !! 0 = Some Pending.
Proof.
  intros err w'.
  assert (Hreach : reachable sample_JSON_parse sample_two_calls).
  { eapply reachable_step; [|apply step_call].
    eapply reachable_step; [|apply step_call].
    apply reachable_idle. repeat split. }
  assert (Hbefore : Forall readable [sample_reply "c1" "2"]).
  { constructor; [|constructor]. split; [reflexivity|]. eexists. reflexivity. }
  assert (Hcarried : exists m', m' ∈ [sample_reply "c1" "2"] /\
                       CallId_of m' = Ok (Some "c1")).
  { exists (sample_reply "c1" "2"). split; [repeat constructor|reflexivity]. }
  destruct (malformed_message_strands_batch sample_JSON_parse 0
              [sample_reply "c1" "2"] sample_malformed [sample_reply "c2" "15"]
              err "c1" 0 sample_two_calls Hreach Hbefore eq_refl eq_refl Hcarried
              eq_refl eq_refl) as (Hgone & _ & Hpending).
  split; [exact Hreach|]. split; [reflexivity|]. split; [reflexivity|].
  split; [exact Hgone|]. split; [reflexivity|].
  apply Hpending. apply steps_refl.
Defined.

Lemma failed_poll_ends_collection_witness :
  let err := new_Error "NetworkingError" in
  let w2 := resultCollector_resume 0 (Thrown err) sample_two_calls in
  reachable sample_JSON_parse sample_two_calls /\
  In 0 (collectors sample_two_calls) /\
  useQueue w2 = Some true /\
  exists d w3,
    responsifedFunc "add" [JNum 2; JNum 3] "c3" w2 = (AwaitPublish d, w3) /\
    deferreds w3 !! d = Some Pending /\ collectors w3 = [].
Proof.
  intros err w2.
  assert (Hreach : reachable sample_JSON_parse sample_two_calls).
  { eapply reachable_step; [|apply step_call].
    eapply reachable_step; [|apply step_call].
    apply reachable_idle. repeat split. }
  assert (Hin : In 0 (collectors sample_two_calls)) by (left; reflexivity).
  destruct (failed_poll_ends_collection sample_JSON_parse 0 err sample_two_calls w2
              "add" [JNum 2; JNum 3] "c3" Hreach Hin (steps_refl _ _) eq_refl)
    as (d & w3 & Hrun & _ & Hlater).
  split; [exact Hreach|]. split; [exact Hin|]. split; [reflexivity|].
  exists d, w3. split; [exact Hrun|]. apply Hlater. apply steps_refl.
Defined.

Lemma initialize_returns_fresh_state_witness :
  let run := initialize "module" sample_options "n" sample_env_fresh sample_idle in
  run = (Ok tt, snd run) /\
  base_of (settings sample_options "n") (snd run) /\
  quiet (snd run).
Proof.
  intros run.
  assert (Hrun : run = (Ok tt, snd run)) by (vm_compute; reflexivity).
  destruct (initialize_returns_fresh_state "module" sample_options "n"
              sample_env_fresh sample_idle (snd run) Hrun) as (Hbase & Hquiet & _).
  split; [exact Hrun|]. split; [exact Hbase|exact Hquiet].
Defined.

Lemma cleanup_spares_cached_roles_witness :
  let w := new_State (initial_resources (settings sample_options "n")) None sample_idle in
  rolePolicy (resources w) <> Some createTemporaryRole /\
  exists l,
    snd (cleanup sample_env w) = add_trace l w /\
    forall r, EvReq r ∈ l -> iam_request r = false.
Proof.
  intros w.
  assert (Hcached : rolePolicy (resources w) <> Some createTemporaryRole)
    by discriminate.
  destruct (cleanup_spares_cached_roles sample_env w) as (l & Hl & _ & Hiam).
  split; [exact Hcached|]. exists l. split; [exact Hl|]. exact (Hiam Hcached).
Defined.

Lemma initialize_direct_mode_witness :
  let run :=
    initialize "module" sample_direct_options "n" sample_env_fresh sample_idle in
  s_useQueue (settings sample_direct_options "n") = false /\
  queue_fields_unset (snd run) /\
  exists l, trace (snd run) = trace sample_idle ++ l /\
    forall r, EvReq r ∈ l -> queue_mode_request r = false.
Proof.
  intros run. split; [reflexivity|].
  exact (initialize_direct_mode "module" sample_direct_options "n" sample_env_fresh
           sample_idle eq_refl).
Defined.

(** The probe is for ["cloudify-n"]; the function that the request
    creates is the one [awsLambdaOptions] names. *)
Lemma createFunction_probes_the_nonce_name_witness :
  let awsLambdaOptions := [("FunctionName", PString "other")] in
  let run :=
    createFunction "module" "cloudify-n" "cloudify-cached-lambda-role"
      "arn:aws:iam::aws:policy/AdministratorAccess" 60 128 true []
      awsLambdaOptions (Some "arn:queue") sample_env_fresh sample_idle in
  exists cf l1 l2 e,
    EvReq (LambdaCreateFunction cf) ∈ trace (snd run) /\
    trace (snd run) = l1 ++ EvReq (LambdaGetFunction "cloudify-n") :: l2 /\
    sample_env_fresh l1 (LambdaGetFunction "cloudify-n") = Failed e /\
    obj_get cf "FunctionName" = PString "other" /\
    obj_get cf "Runtime" = PString "nodejs6.10".
Proof.
  intros awsLambdaOptions run.
  destruct (createFunction_probes_the_nonce_name "module" "cloudify-n"
              "cloudify-cached-lambda-role"
              "arn:aws:iam::aws:policy/AdministratorAccess" 60 128 true []
              awsLambdaOptions (Some "arn:queue") sample_env_fresh sample_idle)
    as ((l & Hl & Hprobe) & Hshape).
  fold run in Hl. change (trace sample_idle ++ l) with l in Hl. subst l.
  assert (Hsent : exists cf, EvReq (LambdaCreateFunction cf) ∈ trace (snd run)).
  { eexists. vm_compute. repeat constructor. }
  destruct Hsent as [cf Hcf].
  destruct (Hprobe cf Hcf) as ((RoleArn & ZipFile & ->) & l1 & l2 & e & Hsplit & Henv).
  eexists _, l1, l2, e. split; [exact Hcf|]. split; [exact Hsplit|].
  split; [exact Henv|]. split.
  - destruct (Hshape RoleArn ZipFile "FunctionName") as (_ & _ & Hreplaced & _).
    apply Hreplaced; [apply NoDup_singleton|by apply list_elem_of_singleton].
  - destruct (Hshape RoleArn ZipFile "Runtime") as (_ & Hsame & _).
    by rewrite Hsame.
Defined.

Lemma createDLQ_records_queue_first_witness :
  QueueUrl sample_data = Some "https://sqs/queue" /\
  "https://sqs/queue" <> "" /\
  SqsDeleteQueue "https://sqs/queue"
    ∈ recorded_deletions (resources (snd (createDLQ "cloudify-n" 60 sample_env sample_idle))).
Proof.
  split; [reflexivity|]. split; [discriminate|].
  pose proof (createDLQ_records_queue_first "cloudify-n" 60 sample_env sample_idle) as H.
  hnf in H. destruct H as [Hrun Hrecorded]. rewrite Hrun.
  apply Hrecorded; [reflexivity|discriminate].
Defined.

Lemma unconfigured_notifier_leaves_topic_witness :
  let run := initialize "module" sample_options "n" sample_env_no_feedback sample_idle in
  s_useQueue (settings sample_options "n") = true /\
  EvReq (SnsCreateTopic "cloudify-n-Requests") ∈ trace (snd run) /\
  (exists e, fst run = Thrown e) /\
  exists l, trace (snd run) = trace sample_idle ++ l /\
    forall arn, EvReq (SnsDeleteTopic arn) ∉ l.
Proof.
  intros run. split; [reflexivity|]. split.
  - vm_compute. repeat constructor.
  - apply (unconfigured_notifier_leaves_topic "module" sample_options "n"
             sample_env_no_feedback sample_idle); [reflexivity|].
    intros tr t a v. eexists. reflexivity.
Defined.

Lemma teardown_spares_named_role_witness :
  let options :=
    mkOptions None None (Some createTemporaryRole) (Some "my-role")
      None None None None [] in
  let run := initialize "module" options "n" sample_env_fresh sample_idle in
  let l := drop (length (trace (snd run))) (trace (snd (cleanup sample_env (snd run)))) in
  run = (Ok tt, snd run) /\
  snd (cleanup sample_env (snd run)) = add_trace l (snd run) /\
  EvReq (IamDeleteRole "cloudify-role-n") ∈ l /\
  o_rolePolicy options = Some createTemporaryRole.
Proof.
  intros options run l.
  assert (Hrun : run = (Ok tt, snd run)) by (vm_compute; reflexivity).
  assert (Hl : snd (cleanup sample_env (snd run)) = add_trace l (snd run))
    by (vm_compute; reflexivity).
  assert (Hin : EvReq (IamDeleteRole "cloudify-role-n") ∈ l)
    by (vm_compute; repeat constructor).
  split; [exact Hrun|]. split; [exact Hl|]. split; [exact Hin|].
  exact (proj1 (teardown_spares_named_role "module" options "n" sample_env_fresh
                  sample_env sample_idle (snd run) l "cloudify-role-n" Hrun Hl Hin)).
Defined.

(** The provider refuses to create the feedback role: the main flow
    fails and tears down while the closure waits for its first answer. *)
Lemma failed_initialize_asks_to_delete_what_it_named_witness :
  let denied := new_Error "AccessDenied" in
  let c := Async.run sample_env_no_sns_role (main_only 12)
             (Async.begin sample_env_no_sns_role
                (Async.initialize "module" sample_options "n") sample_idle) in
  Async.main c = Async.Done (Thrown denied) /\
  exists l,
    trace (Async.world c) = trace sample_idle ++ l /\
    EvReq (LambdaDeleteFunction "cloudify-n") ∈ l /\
    EvReq (LogsDeleteLogGroup "/aws/lambda/cloudify-n") ∈ l.
Proof.
  intros denied c.
  assert (Hthrown : Async.main c = Async.Done (Thrown denied))
    by (vm_compute; reflexivity).
  split; [exact Hthrown|].
  destruct (failed_initialize_asks_to_delete_what_it_named "module" sample_options
              "n" sample_env_no_sns_role sample_idle (main_only 12) denied Hthrown)
    as (l & Hl & Hfn & Hlog & _).
  exists l. split; [exact Hl|]. split; [exact Hfn|exact Hlog].
Defined.

(** X24. The closure can outlive the teardown. The provider refuses to create
    the feedback role while the closure waits for its first answer: the
    main flow fails, [cleanup] asks for the function to be deleted, and
    [initialize] throws. The closure then goes on: it probes the name,
    finds it free, and asks for the function to be created. *)
Lemma closure_outlives_cleanup :
  let schedule := main_only 12 ++ replicate 8 Async.resume_closure in
  let c := Async.run sample_env_no_sns_role schedule
             (Async.begin sample_env_no_sns_role
                (Async.initialize "module" sample_options "n") sample_idle) in
  Async.main c = Async.Done (Thrown (new_Error "AccessDenied")) /\
  Async.closure c = Some (Async.SDone (Ok (FunctionArn sample_data))) /\
  first_index is_delete_function (trace (Async.world c)) = Some 9 /\
  first_index is_create_function (trace (Async.world c)) = Some 17.
Proof. by vm_compute. Qed.

Lemma invoke_throws_when_witness :
  let raw := mkInvocation None None (Some "oops") in
  truthy (FunctionError raw) = false /\
  sample_JSON_parse "oops" = None /\
  (exists e, responsifedFunc_direct sample_JSON_parse (Ok raw) = Thrown e) /\
  responsifedFunc_queue (Fulfilled sample_data) (Rejected cancelled) =
    Some (Thrown cancelled).
Proof.
  intros raw.
  destruct (invoke_throws_when sample_JSON_parse) as (_ & Hdirect & _ & Hqueue).
  split; [reflexivity|]. split; [reflexivity|]. split.
  - apply (Hdirect raw "oops"); [reflexivity|reflexivity|discriminate|reflexivity].
  - apply Hqueue.
Defined.

Lemma cancelWithoutCleanup_only_stops_witness :
  awaited_collector sample_idle = None /\
  exists l awaited,
    cancelWithoutCleanup sample_env sample_idle = (Ok awaited, add_trace l sample_idle) /\
    length l <= 2 /\
    awaited = ret tt.
Proof.
  split; [reflexivity|].
  destruct (cancelWithoutCleanup_only_stops sample_env sample_idle)
    as (l & awaited & Hrun & Hlen & _ & Hiff).
  exists l, awaited. split; [exact Hrun|]. split; [exact Hlen|].
  apply Hiff. reflexivity.
Defined.
